(** * Uptimer: public status and uptime query engine

    A shallow embedding of the public routes of the Uptimer worker
    (the second document of [src/apps/web/src/pages/AdminLogin.tsx]):
    the interval algebra ([mergeIntervals], [sumIntervals],
    [overlapSeconds], [ensureInterval], [pushMergedInterval]), the
    observation gap classifier ([buildUnknownIntervals]) and the pure part
    of the [GET /status], [GET /monitors/:id/uptime] and
    [GET /monitors/:id/latency] handlers, with the heartbeats of the
    status response and the latency statistics ([p95]).

    Numbers.  A TypeScript [number] is modelled by [num]: a finite value,
    [Infinity], [-Infinity] or [NaN].  Finite values are exact rationals;
    the service works on integer seconds, where double arithmetic is exact
    (below 2^53), so rounding and the sign of zero are not modelled.
    Comparisons and [Math.max]/[Math.min] follow ECMAScript on the
    non-finite values (every comparison with [NaN] is false).  The mean
    latency is the one quotient that need not be an integer; it is the
    exact quotient here.

    Datastore.  A handler is a function of the clock reading and of the
    rows its queries return. *)

From Stdlib Require Import QArith Qround Lqa ZArith Lia List Bool String.
Import ListNotations.

Open Scope Q_scope.

(** ** JavaScript numbers *)

Module Num.

Inductive num : Type :=
| Fin (q : Q)
| PInf
| NInf
| NaN.

Definition of_Z (z : Z) : num := Fin (inject_Z z).

Definition Qlt_bool (x y : Q) : bool := negb (Qle_bool y x).

(** [Number.isFinite] *)
Definition isFinite (a : num) : bool :=
  match a with Fin _ => true | _ => false end.

(** [a < b] *)
Definition lt (a b : num) : bool :=
  match a, b with
  | Fin x, Fin y => Qlt_bool x y
  | Fin _, PInf => true
  | NInf, Fin _ => true
  | NInf, PInf => true
  | _, _ => false
  end.

(** [a <= b] *)
Definition le (a b : num) : bool :=
  match a, b with
  | Fin x, Fin y => Qle_bool x y
  | Fin _, PInf => true
  | NInf, Fin _ => true
  | NInf, PInf => true
  | NInf, NInf => true
  | PInf, PInf => true
  | _, _ => false
  end.

(** [a > b] and [a >= b] *)
Definition gt (a b : num) : bool := lt b a.
Definition ge (a b : num) : bool := le b a.

(** [a === b] on numbers *)
Definition eqb (a b : num) : bool :=
  match a, b with
  | Fin x, Fin y => Qeq_bool x y
  | PInf, PInf => true
  | NInf, NInf => true
  | _, _ => false
  end.

Definition neg (a : num) : num :=
  match a with
  | Fin x => Fin (- x)
  | PInf => NInf
  | NInf => PInf
  | NaN => NaN
  end.

(** [a + b] *)
Definition add (a b : num) : num :=
  match a, b with
  | NaN, _ | _, NaN => NaN
  | Fin x, Fin y => Fin (x + y)
  | PInf, NInf | NInf, PInf => NaN
  | PInf, _ | _, PInf => PInf
  | NInf, _ | _, NInf => NInf
  end.

(** [a - b] *)
Definition sub (a b : num) : num :=
  match a, b with
  | Fin x, Fin y => Fin (x - y)
  | _, _ => add a (neg b)
  end.

(** The sign used by products and quotients with an infinite operand:
    [Some true] for positive, [Some false] for negative, [None] for zero. *)
Definition sign (x : Q) : option bool :=
  if Qlt_bool 0 x then Some true
  else if Qlt_bool x 0 then Some false
  else None.

Definition signed_inf (positive : bool) : num :=
  if positive then PInf else NInf.

(** [a * b] *)
Definition mul (a b : num) : num :=
  match a, b with
  | NaN, _ | _, NaN => NaN
  | Fin x, Fin y => Fin (x * y)
  | Fin x, PInf | PInf, Fin x =>
      match sign x with Some s => signed_inf s | None => NaN end
  | Fin x, NInf | NInf, Fin x =>
      match sign x with Some s => signed_inf (negb s) | None => NaN end
  | PInf, PInf | NInf, NInf => PInf
  | PInf, NInf | NInf, PInf => NInf
  end.

(** [a / b] *)
Definition div (a b : num) : num :=
  match a, b with
  | NaN, _ | _, NaN => NaN
  | Fin x, Fin y =>
      if Qeq_bool y 0
      then match sign x with Some s => signed_inf s | None => NaN end
      else Fin (x / y)
  | Fin _, _ => Fin 0
  | PInf, Fin y => signed_inf (negb (Qlt_bool y 0))
  | NInf, Fin y => signed_inf (Qlt_bool y 0)
  | _, _ => NaN
  end.

(** [Math.max(a, b)] *)
Definition max (a b : num) : num :=
  match a, b with
  | NaN, _ | _, NaN => NaN
  | _, _ => if lt a b then b else a
  end.

(** [Math.min(a, b)] *)
Definition min (a b : num) : num :=
  match a, b with
  | NaN, _ | _, NaN => NaN
  | _, _ => if lt b a then b else a
  end.

(** [Number.isInteger(a)] *)
Definition isInteger (a : num) : bool :=
  match a with
  | Fin x => Qeq_bool (inject_Z (Qfloor x)) x
  | _ => false
  end.

(** [Math.floor(a)] *)
Definition floor (a : num) : num :=
  match a with
  | Fin x => Fin (inject_Z (Qfloor x))
  | _ => a
  end.

(** The value relation behind [===]: equal finite values, or the same
    infinity; [NaN] equals nothing. *)
Definition eq (a b : num) : Prop :=
  match a, b with
  | Fin x, Fin y => x == y
  | PInf, PInf => True
  | NInf, NInf => True
  | _, _ => False
  end.

(** [Math.ceil(a)] *)
Definition ceil (a : num) : num :=
  match a with
  | Fin x => Fin (inject_Z (Qceiling x))
  | _ => a
  end.

(** [Math.round(a)]: the nearest integer, a tie going up. *)
Definition round (a : num) : num :=
  match a with
  | Fin x => Fin (inject_Z (Qfloor (x + (1 # 2))))
  | _ => a
  end.

End Num.

Import Num.

Declare Scope num_scope.
Delimit Scope num_scope with num.
Bind Scope num_scope with num.
Notation "a + b" := (Num.add a b) : num_scope.
Notation "a - b" := (Num.sub a b) : num_scope.
Notation "a * b" := (Num.mul a b) : num_scope.
Notation "a / b" := (Num.div a b) : num_scope.
Notation "a <? b" := (Num.lt a b) (at level 70) : num_scope.
Notation "a <=? b" := (Num.le a b) (at level 70) : num_scope.
Notation "a >? b" := (Num.gt a b) (at level 70) : num_scope.
Notation "a >=? b" := (Num.ge a b) (at level 70) : num_scope.
Notation "a === b" := (Num.eq a b) (at level 70) : num_scope.

Definition num_of_literal (z : Z) : num := Num.of_Z z.
Definition num_to_literal (a : num) : option Z :=
  match a with
  | Fin (Qmake z 1) => Some z
  | _ => None
  end.
Number Notation num num_of_literal num_to_literal : num_scope.

Open Scope string_scope.
Open Scope list_scope.
Open Scope num_scope.

(** ** Data model *)

(** [type Interval = { start: number; end: number }] *)
Record Interval : Type := mkInterval { start : num; end_ : num }.

(** An element of the [checks] argument of [buildUnknownIntervals]. *)
Record Check : Type := mkCheck { checked_at : num; status : string }.

Inductive MonitorStatus : Type :=
| MUp | MDown | MMaintenance | MPaused | MUnknown.

Inductive CheckStatus : Type :=
| CUp | CDown | CMaintenance | CUnknown.

Definition toMonitorStatus (value : option string) : MonitorStatus :=
  match value with
  | Some s =>
      if String.eqb s "up" then MUp
      else if String.eqb s "down" then MDown
      else if String.eqb s "maintenance" then MMaintenance
      else if String.eqb s "paused" then MPaused
      else MUnknown
  | None => MUnknown
  end.

Definition toCheckStatus (value : option string) : CheckStatus :=
  match value with
  | Some s =>
      if String.eqb s "up" then CUp
      else if String.eqb s "down" then CDown
      else if String.eqb s "maintenance" then CMaintenance
      else CUnknown
  | None => CUnknown
  end.

(** The string a [CheckStatus] is at run time. *)
Definition check_status_string (s : CheckStatus) : string :=
  match s with
  | CUp => "up"
  | CDown => "down"
  | CMaintenance => "maintenance"
  | CUnknown => "unknown"
  end.

(** ** Interval algebra *)

(** [Array.prototype.sort] with a comparator.  The sort is stable, so for a
    consistent comparator its result is the one stable ordering, computed
    here by insertion: an element moves right past exactly the elements
    the comparator puts strictly before it. *)
Section ArraySort.
Context {A : Type} (compareFn : A -> A -> num).

Fixpoint sort_insert (x : A) (l : list A) : list A :=
  match l with
  | [] => [x]
  | y :: l' =>
      if compareFn x y >? 0 then y :: sort_insert x l' else x :: l
  end.

Fixpoint array_sort (l : list A) : list A :=
  match l with
  | [] => []
  | x :: l' => sort_insert x (array_sort l')
  end.

End ArraySort.

(** Body of the [for] loop of [mergeIntervals]: [merged] is never empty
    there, the first branch is the [!prev] guard.  The guards [!first] and
    [!cur] test array elements, which are objects, and never fire. *)
Fixpoint merge_step (merged : list Interval) (cur : Interval) : list Interval :=
  match merged with
  | [] => [mkInterval (start cur) (end_ cur)]
  | [prev] =>
      if start cur <=? end_ prev
      then [mkInterval (start prev) (Num.max (end_ prev) (end_ cur))]
      else [prev; mkInterval (start cur) (end_ cur)]
  | x :: rest => x :: merge_step rest cur
  end.

Definition mergeIntervals (intervals : list Interval) : list Interval :=
  match array_sort (fun a b => start a - start b) intervals with
  | [] => []
  | first :: rest =>
      fold_left merge_step rest [mkInterval (start first) (end_ first)]
  end.

Definition sumIntervals (intervals : list Interval) : num :=
  fold_left (fun acc it => acc + Num.max 0 (end_ it - start it)) intervals 0.

(** The [while] loop of [overlapSeconds]: the pointers [i] and [j] are the
    suffixes of [a] and [b] still to visit.  The guard [!x || !y] tests
    array elements inside the bounds and never fires. *)
Fixpoint overlap_loop (a : list Interval) : list Interval -> num -> num :=
  fix inner (b : list Interval) (acc : num) {struct b} : num :=
    match a, b with
    | x :: a', y :: b' =>
        let start' := Num.max (start x) (start y) in
        let end' := Num.min (end_ x) (end_ y) in
        let acc' := if end' >? start' then acc + (end' - start') else acc in
        if end_ x <=? end_ y then overlap_loop a' b acc' else inner b' acc'
    | _, _ => acc
    end.

Definition overlapSeconds (a b : list Interval) : num := overlap_loop a b 0.

Definition ensureInterval (interval : Interval) : option Interval :=
  if negb (isFinite (start interval)) || negb (isFinite (end_ interval)) then None
  else if end_ interval <=? start interval then None
  else Some interval.

Fixpoint pushMergedInterval (intervals : list Interval) (next : Interval)
  : list Interval :=
  match intervals with
  | [] => [mkInterval (start next) (end_ next)]
  | [last] =>
      if start next <=? end_ last
      then [mkInterval (start last) (Num.max (end_ last) (end_ next))]
      else [last; mkInterval (start next) (end_ next)]
  | x :: rest => x :: pushMergedInterval rest next
  end.

(** ** Observation gap classifier *)

(** The closure [addUnknown]; the captured array [unknown] is threaded. *)
Definition addUnknown (unknown : list Interval) (from to : num) : list Interval :=
  match ensureInterval (mkInterval from to) with
  | None => unknown
  | Some it => pushMergedInterval unknown it
  end.

(** The closure [processSegment]; it reads the captured [intervalSec] and
    [lastCheck] and updates [unknown]. *)
Definition processSegment (intervalSec : num) (lastCheck : option Check)
    (unknown : list Interval) (segStart segEnd : num) : list Interval :=
  if segEnd <=? segStart then unknown
  else
    match lastCheck with
    | None => addUnknown unknown segStart segEnd
    | Some lc =>
        let validUntil := checked_at lc + intervalSec in
        if segStart >=? validUntil then addUnknown unknown segStart segEnd
        else
          let coveredEnd := Num.min segEnd validUntil in
          let unknown1 :=
            if String.eqb (status lc) "unknown"
            then addUnknown unknown segStart coveredEnd
            else unknown in
          if coveredEnd <? segEnd
          then addUnknown unknown1 coveredEnd segEnd
          else unknown1
    end.

(** The mutable locals of [buildUnknownIntervals]. *)
Record Scan : Type := mkScan {
  lastCheck : option Check;
  cursor : num;
  unknown : list Interval
}.

(** The [for (const check of checks)] loop; the second branch is [break]. *)
Fixpoint scanChecks (rangeStart rangeEnd intervalSec : num)
    (checks : list Check) (st : Scan) : Scan :=
  match checks with
  | [] => st
  | check :: rest =>
      if checked_at check <? rangeStart
      then scanChecks rangeStart rangeEnd intervalSec rest
             (mkScan (Some check) (cursor st) (unknown st))
      else if checked_at check >=? rangeEnd then st
      else scanChecks rangeStart rangeEnd intervalSec rest
             (mkScan (Some check) (checked_at check)
                (processSegment intervalSec (lastCheck st) (unknown st)
                   (cursor st) (checked_at check)))
  end.

Definition buildUnknownIntervals (rangeStart rangeEnd intervalSec : num)
    (checks : list Check) : list Interval :=
  if rangeEnd <=? rangeStart then []
  else if negb (isFinite intervalSec) || (intervalSec <=? 0)
  then [mkInterval rangeStart rangeEnd]
  else
    let st := scanChecks rangeStart rangeEnd intervalSec checks
                (mkScan None rangeStart []) in
    processSegment intervalSec (lastCheck st) (unknown st) (cursor st) rangeEnd.

(** ** Time utilities *)

Inductive UptimeRange : Type := R24h | R7d | R30d.

Definition rangeToSeconds (range : UptimeRange) : num :=
  match range with
  | R24h => 24 * 60 * 60
  | R7d => 7 * 24 * 60 * 60
  | R30d => 30 * 24 * 60 * 60
  end.

(** [Math.floor(Date.now() / 1000)]; [date_now] is the clock reading in
    milliseconds. *)
Definition now_of (date_now : Z) : num := Num.floor (Num.of_Z date_now / 1000).

(** ** [GET /status] *)

Module PublicStatusMonitorRow.
Record t : Type := mk {
  id : num;
  name : string;
  type : string;
  interval_sec : num;
  state_status : option string;
  last_checked_at : option num;
  last_latency_ms : option num
}.
End PublicStatusMonitorRow.

(** An element of [monitorsList].  The [heartbeats] field, filled by the
    second query after the summary is computed, is left out. *)
Module StatusMonitor.
Record t : Type := mk {
  id : num;
  name : string;
  type : string;
  status : MonitorStatus;
  is_stale : bool;
  last_checked_at : option num;
  last_latency_ms : option num
}.
End StatusMonitor.

Module Counts.
Record t : Type := mk {
  up : nat;
  down : nat;
  maintenance : nat;
  paused : nat;
  unknown : nat
}.

(** [counts[status]++] *)
Definition incr (counts : t) (status : MonitorStatus) : t :=
  match status with
  | MUp => mk (S (up counts)) (down counts) (maintenance counts) (paused counts) (unknown counts)
  | MDown => mk (up counts) (S (down counts)) (maintenance counts) (paused counts) (unknown counts)
  | MMaintenance => mk (up counts) (down counts) (S (maintenance counts)) (paused counts) (unknown counts)
  | MPaused => mk (up counts) (down counts) (maintenance counts) (S (paused counts)) (unknown counts)
  | MUnknown => mk (up counts) (down counts) (maintenance counts) (paused counts) (S (unknown counts))
  end.
End Counts.

Module StatusResponse.
Record t : Type := mk {
  generated_at : num;
  overall_status : MonitorStatus;
  summary : Counts.t;
  monitors : list StatusMonitor.t
}.
End StatusResponse.

(** The callback of [(results ?? []).map(...)]. *)
Definition status_monitor (now : num) (r : PublicStatusMonitorRow.t)
  : StatusMonitor.t :=
  let stateStatus := toMonitorStatus (PublicStatusMonitorRow.state_status r) in
  let isStale :=
    match stateStatus with
    | MPaused | MMaintenance => false
    | _ =>
        match PublicStatusMonitorRow.last_checked_at r with
        | None => true
        | Some last => now - last >? PublicStatusMonitorRow.interval_sec r * 2
        end
    end in
  let status := if isStale then MUnknown else stateStatus in
  StatusMonitor.mk
    (PublicStatusMonitorRow.id r)
    (PublicStatusMonitorRow.name r)
    (PublicStatusMonitorRow.type r)
    status
    isStale
    (PublicStatusMonitorRow.last_checked_at r)
    (if isStale then None else PublicStatusMonitorRow.last_latency_ms r).

(** [for (const m of monitorsList) counts[m.status]++] *)
Definition tally (monitorsList : list StatusMonitor.t) : Counts.t :=
  fold_left (fun counts m => Counts.incr counts (StatusMonitor.status m))
    monitorsList (Counts.mk 0 0 0 0 0).

Definition overall_status_of (counts : Counts.t) : MonitorStatus :=
  if (0 <? Counts.down counts)%nat then MDown
  else if (0 <? Counts.unknown counts)%nat then MUnknown
  else if (0 <? Counts.maintenance counts)%nat then MMaintenance
  else if (0 <? Counts.up counts)%nat then MUp
  else if (0 <? Counts.paused counts)%nat then MPaused
  else MUnknown.

(** The handler of [GET /status]: [results] is what the monitor query
    returns ([None] for a missing result set). *)
Definition status_handler (date_now : Z)
    (results : option (list PublicStatusMonitorRow.t)) : StatusResponse.t :=
  let now := now_of date_now in
  let monitorsList :=
    map (status_monitor now) (match results with Some rs => rs | None => [] end) in
  let counts := tally monitorsList in
  StatusResponse.mk now (overall_status_of counts) counts monitorsList.

(** ** [GET /monitors/:id/uptime] *)

Module UptimeMonitorRow.
Record t : Type := mk {
  id : num;
  name : string;
  interval_sec : num;
  created_at : num
}.
End UptimeMonitorRow.

(** [type OutageRow = { started_at: number; ended_at: number | null }] *)
Record OutageRow : Type := mkOutageRow {
  started_at : num;
  ended_at : option num
}.

(** A row of the check query; [status] is the stored string. *)
Module CheckRow.
Record t : Type := mk {
  checked_at : num;
  status : string
}.
End CheckRow.

Record AppError : Type := mkAppError {
  err_status : nat;
  err_code : string;
  err_message : string
}.

Module UptimeResponse.
Record t : Type := mk {
  monitor_id : num;
  monitor_name : string;
  range : UptimeRange;
  range_start_at : num;
  range_end_at : num;
  total_sec : num;
  downtime_sec : num;
  unknown_sec : num;
  uptime_sec : num;
  uptime_pct : num
}.
End UptimeResponse.

(** The callback clamping an outage row to the range. *)
Definition clamp_outage (rangeStart rangeEnd : num) (r : OutageRow) : Interval :=
  let start' := Num.max (started_at r) rangeStart in
  let end' :=
    Num.min (match ended_at r with Some e => e | None => rangeEnd end) rangeEnd in
  mkInterval start' end'.

(** The handler of [GET /monitors/:id/uptime] after parameter validation:
    [range_query] is the validated [range] parameter ([None] when absent,
    which defaults to 24h), [monitor] is the result of [first()] on the monitor query, [outageRows]
    and [checkRows] the result sets of the two [all()] queries. *)
Definition uptime_handler (date_now : Z) (range_query : option UptimeRange)
    (monitor : option UptimeMonitorRow.t)
    (outageRows : option (list OutageRow))
    (checkRows : option (list CheckRow.t)) : AppError + UptimeResponse.t :=
  match monitor with
  | None => inl (mkAppError 404 "NOT_FOUND" "Monitor not found")
  | Some monitor =>
      let range := match range_query with Some r => r | None => R24h end in
      let now := now_of date_now in
      let rangeEnd := Num.floor (now / 60) * 60 in
      let requestedRangeStart := rangeEnd - rangeToSeconds range in
      let rangeStart :=
        Num.max requestedRangeStart (UptimeMonitorRow.created_at monitor) in
      let total_sec := Num.max 0 (rangeEnd - rangeStart) in
      let downtimeIntervals :=
        mergeIntervals
          (filter (fun it => end_ it >? start it)
             (map (clamp_outage rangeStart rangeEnd)
                (match outageRows with Some rs => rs | None => [] end))) in
      let downtime_sec := sumIntervals downtimeIntervals in
      let unknownIntervals :=
        buildUnknownIntervals rangeStart rangeEnd
          (UptimeMonitorRow.interval_sec monitor)
          (map (fun r =>
                  mkCheck (CheckRow.checked_at r)
                    (check_status_string (toCheckStatus (Some (CheckRow.status r)))))
             (match checkRows with Some rs => rs | None => [] end)) in
      let unknown_sec :=
        Num.max 0
          (sumIntervals unknownIntervals
           - overlapSeconds unknownIntervals downtimeIntervals) in
      let unavailable_sec := Num.min total_sec (downtime_sec + unknown_sec) in
      let uptime_sec := Num.max 0 (total_sec - unavailable_sec) in
      let uptime_pct :=
        if Num.eqb total_sec 0 then 0 else (uptime_sec / total_sec) * 100 in
      inr (UptimeResponse.mk
             (UptimeMonitorRow.id monitor) (UptimeMonitorRow.name monitor)
             range rangeStart rangeEnd
             total_sec downtime_sec unknown_sec uptime_sec uptime_pct)
  end.

(** ** [GET /monitors/:id/latency] *)

(** [array.length] *)
Definition array_length {A : Type} (l : list A) : num :=
  Num.of_Z (Z.of_nat (List.length l)).

(** [array[i]] for a number [i]: the element at [i] when [i] is an integer
    inside the bounds, [undefined] otherwise. *)
Definition array_get {A : Type} (l : list A) (i : num) : option A :=
  match i with
  | Fin q =>
      if Num.isInteger i && Qle_bool 0 q
      then nth_error l (Z.to_nat (Qfloor q))
      else None
  | _ => None
  end.

(** [p95].  The literal [0.95] is the double nearest to 19/20; the ceiling
    of its product with an array length is the ceiling of the exact
    product, so the rational is used. *)
Definition p95 (values : list num) : option num :=
  match values with
  | [] => None
  | _ :: _ =>
      let sorted := array_sort (fun a b => a - b) values in
      let idx :=
        Num.max 0
          (Num.min (array_length sorted - 1)
             (Num.ceil (Fin (19 # 20) * array_length sorted) - 1)) in
      array_get sorted idx
  end.

Inductive LatencyRange : Type := L24h.

(** A [LatencyRange] as an argument of [rangeToSeconds]. *)
Definition latency_range (range : LatencyRange) : UptimeRange :=
  match range with L24h => R24h end.

Module LatencyMonitorRow.
Record t : Type := mk {
  id : num;
  name : string
}.
End LatencyMonitorRow.

Module LatencyRow.
Record t : Type := mk {
  checked_at : num;
  status : string;
  latency_ms : option num
}.
End LatencyRow.

Module LatencyPoint.
Record t : Type := mk {
  checked_at : num;
  status : CheckStatus;
  latency_ms : option num
}.
End LatencyPoint.

Module LatencyResponse.
Record t : Type := mk {
  monitor_id : num;
  monitor_name : string;
  range : LatencyRange;
  range_start_at : num;
  range_end_at : num;
  avg_latency_ms : option num;
  p95_latency_ms : option num;
  points : list LatencyPoint.t
}.
End LatencyResponse.

(** The filter and the map that build [upLatencies]; the cast of the map
    is applied to points the filter kept, whose latency is a number. *)
Definition up_with_latency (p : LatencyPoint.t) : bool :=
  match LatencyPoint.status p, LatencyPoint.latency_ms p with
  | CUp, Some _ => true
  | _, _ => false
  end.

Definition latency_of (p : LatencyPoint.t) : num :=
  match LatencyPoint.latency_ms p with
  | Some v => v
  | None => NaN
  end.

(** The handler of [GET /monitors/:id/latency] after parameter validation:
    [monitor] is the result of [first()], [results] the rows of the check
    query. *)
Definition latency_handler (date_now : Z) (range_query : option LatencyRange)
    (monitor : option LatencyMonitorRow.t)
    (results : option (list LatencyRow.t)) : AppError + LatencyResponse.t :=
  match monitor with
  | None => inl (mkAppError 404 "NOT_FOUND" "Monitor not found")
  | Some monitor =>
      let range := match range_query with Some r => r | None => L24h end in
      let now := now_of date_now in
      let rangeEnd := Num.floor (now / 60) * 60 in
      let rangeStart := rangeEnd - rangeToSeconds (latency_range range) in
      let points :=
        map (fun r =>
               LatencyPoint.mk (LatencyRow.checked_at r)
                 (toCheckStatus (Some (LatencyRow.status r)))
                 (LatencyRow.latency_ms r))
          (match results with Some rs => rs | None => [] end) in
      let upLatencies := map latency_of (filter up_with_latency points) in
      let avg_latency_ms :=
        match upLatencies with
        | [] => None
        | _ :: _ =>
            Some (Num.round
                    (fold_left (fun acc v => acc + v) upLatencies 0
                     / array_length upLatencies))
        end in
      inr (LatencyResponse.mk
             (LatencyMonitorRow.id monitor) (LatencyMonitorRow.name monitor)
             range rangeStart rangeEnd
             avg_latency_ms (p95 upLatencies) points)
  end.

(** ** [GET /status]: heartbeats *)

Module PublicHeartbeatRow.
Record t : Type := mk {
  monitor_id : num;
  checked_at : num;
  status : string;
  latency_ms : option num
}.
End PublicHeartbeatRow.

(** An element of a [heartbeats] array. *)
Module Heartbeat.
Record t : Type := mk {
  checked_at : num;
  status : CheckStatus;
  latency_ms : option num
}.
End Heartbeat.

(** Key equality of a [Map]: SameValueZero, under which [NaN] is equal to
    itself. *)
Definition same_value_zero (a b : num) : bool :=
  match a, b with
  | NaN, NaN => true
  | _, _ => Num.eqb a b
  end.

(** A [Map<number, V>] as its entries in insertion order. *)
Fixpoint map_get {V : Type} (m : list (num * V)) (k : num) : option V :=
  match m with
  | [] => None
  | (k', v) :: m => if same_value_zero k' k then Some v else map_get m k
  end.

Fixpoint map_set {V : Type} (m : list (num * V)) (k : num) (v : V)
  : list (num * V) :=
  match m with
  | [] => [(k, v)]
  | (k', v') :: m =>
      if same_value_zero k' k then (k', v) :: m else (k', v') :: map_set m k v
  end.

(** [{ checked_at: r.checked_at, status: toCheckStatus(r.status),
      latency_ms: r.latency_ms }] *)
Definition heartbeat_of (r : PublicHeartbeatRow.t) : Heartbeat.t :=
  Heartbeat.mk (PublicHeartbeatRow.checked_at r)
    (toCheckStatus (Some (PublicHeartbeatRow.status r)))
    (PublicHeartbeatRow.latency_ms r).

(** The first loop: [byMonitor] after the heartbeat rows are pushed.  Every
    array is held by its map entry only, so the entry stands for the
    array. *)
Definition group_step (byMonitor : list (num * list Heartbeat.t))
    (r : PublicHeartbeatRow.t) : list (num * list Heartbeat.t) :=
  let existing :=
    match map_get byMonitor (PublicHeartbeatRow.monitor_id r) with
    | Some rows => rows
    | None => []
    end in
  map_set byMonitor (PublicHeartbeatRow.monitor_id r)
    (existing ++ [heartbeat_of r]).

Definition group_heartbeats (heartbeatRows : list PublicHeartbeatRow.t)
  : list (num * list Heartbeat.t) :=
  fold_left group_step heartbeatRows [].

(** What [m.heartbeats] refers to after the second loop: the array of a map
    entry, shared with every monitor of that key, or an empty array of its
    own. *)
Inductive HeartbeatsRef : Type :=
  | InMap (key : num)
  | Fresh.

(** The second loop: [rows.reverse()] reverses the array of the entry in
    place, and [m.heartbeats] refers to that array. *)
Definition attach_step
    (st : list (num * list Heartbeat.t) * list HeartbeatsRef)
    (m : StatusMonitor.t) : list (num * list Heartbeat.t) * list HeartbeatsRef :=
  match map_get (fst st) (StatusMonitor.id m) with
  | Some rows =>
      (map_set (fst st) (StatusMonitor.id m) (rev rows),
       snd st ++ [InMap (StatusMonitor.id m)])
  | None => (fst st, snd st ++ [Fresh])
  end.

(** The array a reference stands for when the response is written. *)
Definition deref (byMonitor : list (num * list Heartbeat.t))
    (r : HeartbeatsRef) : list Heartbeat.t :=
  match r with
  | InMap key =>
      match map_get byMonitor key with Some rows => rows | None => [] end
  | Fresh => []
  end.

(** The [heartbeats] of the monitors of the response, in the order of
    [monitorsList]; [heartbeatRows] is what the heartbeat query returns. *)
Definition status_heartbeats (monitorsList : list StatusMonitor.t)
    (heartbeatRows : option (list PublicHeartbeatRow.t))
  : list (list Heartbeat.t) :=
  let ids := map StatusMonitor.id monitorsList in
  if (0 <? List.length ids)%nat then
    let byMonitor :=
      group_heartbeats
        (match heartbeatRows with Some rs => rs | None => [] end) in
    let st := fold_left attach_step monitorsList (byMonitor, []) in
    map (deref (fst st)) (snd st)
  else map (fun _ => []) monitorsList.

(** * Specification vocabulary *)

(** ** Numbers *)

(** The value of a finite number. *)
Definition qv (a : num) : Q :=
  match a with Fin q => q | _ => 0%Q end.

(** The guard of the classifier, as the spec words it. *)
Definition positive_finite_integer (a : num) : bool :=
  isFinite a && isInteger a && (a >? 0).

(** ** Intervals and interval sets *)

Definition finite_interval (it : Interval) : bool :=
  isFinite (start it) && isFinite (end_ it).

(** A half-open interval with finite end points and [start < end]. *)
Definition proper (it : Interval) : bool :=
  finite_interval it && (start it <? end_ it).

(** A proper interval inside [lo, hi). *)
Definition within (lo hi : num) (it : Interval) : bool :=
  proper it && (lo <=? start it) && (end_ it <=? hi).

(** An interval the spec calls invalid: a non-finite end point, or
    [end <= start]. *)
Definition invalid_interval (it : Interval) : Prop :=
  isFinite (start it) = false \/ isFinite (end_ it) = false
  \/ (end_ it <=? start it) = true.

(** A relation holds between every two consecutive elements. *)
Fixpoint chain (R : Interval -> Interval -> bool) (l : list Interval) : bool :=
  match l with
  | a :: (b :: _) as t => R a b && chain R t
  | _ => true
  end.

(** No two consecutive elements touch or overlap: the next start is
    strictly greater than the previous end. *)
Definition separated : list Interval -> bool :=
  chain (fun a b => end_ a <? start b).

(** Ascending by start. *)
Definition ascending : list Interval -> bool :=
  chain (fun a b => start a <=? start b).

(** Strictly ascending by start. *)
Definition strictly_ascending : list Interval -> bool :=
  chain (fun a b => start a <? start b).

(** A non-overlapping ascending list of finite intervals; consecutive
    intervals may touch and an interval may be empty.  Every merged set
    is one. *)
Definition nonoverlapping (l : list Interval) : bool :=
  forallb (fun it => finite_interval it && (start it <=? end_ it)) l
  && chain (fun a b => end_ a <=? start b) l.

(** [fits hi lo l]: the intervals of [l] are finite, lie in [lo, hi] in
    ascending order and do not overlap (they may touch or be empty). *)
Inductive fits (hi : Q) : Q -> list Interval -> Prop :=
| fits_nil lo : (lo <= hi)%Q -> fits hi lo []
| fits_cons lo s e l :
    (lo <= s)%Q -> (s <= e)%Q -> fits hi e l ->
    fits hi lo (mkInterval (Fin s) (Fin e) :: l).

(** The comparator of [mergeIntervals]. *)
Definition by_start (a b : Interval) : num := start a - start b.

(** Closure of a predicate on intervals under the update made when an
    interval is coalesced with the last one. *)
Definition merge_closed (P : Interval -> bool) : Prop :=
  forall p c, P p = true -> P c = true ->
    P (mkInterval (start p) (Num.max (end_ p) (end_ c))) = true.

(** ** Lengths *)

(** The seconds one interval adds to [sumIntervals]. *)
Definition span (it : Interval) : Q :=
  qv (Num.max 0 (end_ it - start it)).

Fixpoint total (l : list Interval) : Q :=
  match l with
  | [] => 0
  | it :: l' => span it + total l'
  end.

(** The seconds one pair of intervals adds to [overlapSeconds]. *)
Definition overlap_term (x y : Interval) : num :=
  let start' := Num.max (start x) (start y) in
  let end' := Num.min (end_ x) (end_ y) in
  if end' >? start' then end' - start' else 0.

Definition ov1 (x y : Interval) : Q := qv (overlap_term x y).

(** Value of the sweep started with accumulator [acc]. *)
Definition ovq (a b : list Interval) (acc : Q) : Q :=
  qv (overlap_loop a b (Fin acc)).

(** The intersection length taken pair by pair: every interval of [a]
    against every interval of [b]. *)
Fixpoint col (x : Interval) (b : list Interval) : Q :=
  match b with
  | [] => 0
  | y :: b' => ov1 x y + col x b'
  end.

Fixpoint dsum (a b : list Interval) : Q :=
  match a with
  | [] => 0
  | x :: a' => col x b + dsum a' b
  end.

(** ** Invariants of the gap classifier *)

(** The invariant of the array [unknown]: proper intervals inside the
    range, none touching or overlapping the next. *)
Definition unknown_ok (rangeStart rangeEnd : num) (l : list Interval) : Prop :=
  forallb (within rangeStart rangeEnd) l = true /\ separated l = true.

Definition check_finite (c : option Check) : Prop :=
  match c with
  | Some c => isFinite (checked_at c) = true
  | None => True
  end.

(** The invariant of the loop over the checks. *)
Definition scan_ok (lo hi : Q) (st : Scan) : Prop :=
  (exists c, cursor st = Fin c /\ (lo <= c)%Q)
  /\ check_finite (lastCheck st)
  /\ unknown_ok (Fin lo) (Fin hi) (unknown st).

(** ** Responses *)

Definition MonitorStatus_eq_dec (a b : MonitorStatus) : {a = b} + {a <> b}.
Proof. decide equality. Defined.

(** Number of entries of the [monitors] array exposed under [s]. *)
Definition exposed_as (s : MonitorStatus) (ms : list StatusMonitor.t) : nat :=
  count_occ MonitorStatus_eq_dec (map StatusMonitor.status ms) s.

Definition finite_check_row (r : CheckRow.t) : bool :=
  isFinite (CheckRow.checked_at r).

(** Uptime conservation, on the numbers of one response. *)
Definition conserved (total_sec downtime_sec unknown_sec uptime_sec uptime_pct : num)
  : Prop :=
  unknown_sec + downtime_sec + uptime_sec === total_sec
  /\ (0 <=? unknown_sec) = true
  /\ (0 <=? downtime_sec) = true
  /\ (0 <=? uptime_sec) = true
  /\ (uptime_sec <=? total_sec) = true
  /\ (0 <=? uptime_pct) = true
  /\ (uptime_pct <=? 100) = true
  /\ uptime_sec + Num.min total_sec (downtime_sec + unknown_sec) === total_sec.

(** ** Sample rows *)

(** Scenario S5: state down, last checked at 9000, interval 60. *)
Definition row_S5 : PublicStatusMonitorRow.t :=
  PublicStatusMonitorRow.mk 1 "api" "http" 60 (Some "down") (Some 9000) (Some 35).

(** Scenario S6: paused, never checked. *)
Definition row_paused : PublicStatusMonitorRow.t :=
  PublicStatusMonitorRow.mk 2 "batch" "tcp" 60 (Some "paused") None None.

(** A monitor created at 1000 and checked every 60 seconds. *)
Definition monitor_S1 : UptimeMonitorRow.t :=
  UptimeMonitorRow.mk 1 "api" 60 1000.

(** ** Coverage *)

(** The instant [t] lies in the half-open interval. *)
Definition covers (it : Interval) (t : num) : bool :=
  (start it <=? t) && (t <? end_ it).

(** The instant [t] lies in some interval of the list. *)
Definition covered (l : list Interval) (t : num) : bool :=
  existsb (fun it => covers it t) l.

(** ** The verdict in force at an instant *)

(** The last check of the list, in list order, taken at or before [t]. *)
Definition verdict_at (checks : list Check) (t : num) : option Check :=
  fold_left (fun acc c => if checked_at c <=? t then Some c else acc)
    checks None.

(** Whether the verdict [lc] leaves the instant [t] unknown: there is no
    verdict, or it has expired at [t], or it is an unknown verdict. *)
Definition unknown_by (intervalSec : num) (lc : option Check) (t : num) : bool :=
  match lc with
  | None => true
  | Some c =>
      (checked_at c + intervalSec <=? t) || String.eqb (status c) "unknown"
  end.

Definition unknown_at (intervalSec : num) (checks : list Check) (t : num) : bool :=
  unknown_by intervalSec (verdict_at checks t) t.

(** Checks in chronological order (equal times allowed). *)
Fixpoint checks_sorted (checks : list Check) : bool :=
  match checks with
  | a :: (b :: _) as rest => (checked_at a <=? checked_at b) && checks_sorted rest
  | _ => true
  end.

Definition finite_check (c : Check) : bool := isFinite (checked_at c).

(** The invariant of the loop over the checks after the prefix [done]:
    the unknown set is decided up to the cursor. *)
Definition scan_decided (lo hi iv : Q) (done : list Check) (st : Scan) : Prop :=
  exists c,
    cursor st = Fin c /\ (lo <= c)%Q /\ (c <= hi)%Q
    /\ unknown_ok (Fin lo) (Fin c) (unknown st)
    /\ (forall t, (lo <= t)%Q -> (t < c)%Q ->
        covered (unknown st) (Fin t) = unknown_at (Fin iv) done (Fin t))
    /\ lastCheck st = last (map Some done) None
    /\ match lastCheck st with
       | Some p => (qv (checked_at p) <= c)%Q
                   /\ ((c <= lo)%Q \/ (c <= qv (checked_at p))%Q)
       | None => (c <= lo)%Q
       end.

(** Consecutive checks are at most one interval apart. *)
Fixpoint checks_gapless (intervalSec : num) (checks : list Check) : bool :=
  match checks with
  | a :: (b :: _) as rest =>
      (checked_at b <=? checked_at a + intervalSec)
      && checks_gapless intervalSec rest
  | _ => true
  end.

(** The checks observe the whole range: the first is taken at or before
    the start of the range, consecutive checks are at most one interval
    apart, the verdict of the last one reaches the end of the range, and
    no status is unknown. *)
Definition observed_throughout (rangeStart rangeEnd intervalSec : num)
    (checks : list Check) : bool :=
  match checks with
  | [] => false
  | first :: _ => checked_at first <=? rangeStart
  end
  && checks_gapless intervalSec checks
  && (rangeEnd <=? checked_at (last checks (mkCheck NaN "")) + intervalSec)
  && forallb (fun c => negb (String.eqb (status c) "unknown")) checks.

(** The checks the uptime handler passes to the classifier. *)
Definition uptime_checks (checkRows : option (list CheckRow.t)) : list Check :=
  map (fun r =>
         mkCheck (CheckRow.checked_at r)
           (check_status_string (toCheckStatus (Some (CheckRow.status r)))))
    (match checkRows with Some rs => rs | None => [] end).

(** A stored check status that the uptime computation reads as unknown:
    anything but up, down and maintenance. *)
Definition reads_as_unknown (s : string) : bool :=
  String.eqb (check_status_string (toCheckStatus (Some s))) "unknown".

(** Two check rows the uptime computation cannot tell apart. *)
Definition same_for_uptime (r r' : CheckRow.t) : Prop :=
  CheckRow.checked_at r = CheckRow.checked_at r'
  /\ reads_as_unknown (CheckRow.status r) = reads_as_unknown (CheckRow.status r').

(** Two checks the classifier cannot tell apart. *)
Definition same_verdict (c c' : Check) : Prop :=
  checked_at c = checked_at c'
  /\ String.eqb (status c) "unknown" = String.eqb (status c') "unknown".

(** ** Latency statistics *)

(** The comparator of [p95]. *)
Definition by_value (a b : num) : num := a - b.

(** Numbers in ascending order. *)
Fixpoint nums_ascending (l : list num) : bool :=
  match l with
  | a :: (b :: _) as rest => (a <=? b) && nums_ascending rest
  | _ => true
  end.

(** How many numbers of the list satisfy [p]. *)
Definition count_if (p : num -> bool) (l : list num) : nat :=
  List.length (filter p l).

(** The latencies that enter the statistics of a latency response: those
    of the rows with status up and a latency. *)
Definition up_latencies (results : option (list LatencyRow.t)) : list num :=
  flat_map (fun r =>
              match toCheckStatus (Some (LatencyRow.status r)),
                    LatencyRow.latency_ms r with
              | CUp, Some v => [v]
              | _, _ => []
              end)
    (match results with Some rs => rs | None => [] end).

(** The mean of the numbers of a list, rounded to the nearest integer
    with a tie going up; none for the empty list. *)
Definition rounded_mean (l : list num) : option num :=
  match l with
  | [] => None
  | _ :: _ =>
      Some (Num.round (fold_left (fun acc v => acc + v) l 0 / array_length l))
  end.

(** ** Heartbeats *)

(** The rows of the heartbeat query that belong to a monitor id, as
    heartbeats, in query order. *)
Definition heartbeats_for (id : num) (rows : list PublicHeartbeatRow.t)
  : list Heartbeat.t :=
  map heartbeat_of
    (filter (fun r => same_value_zero (PublicHeartbeatRow.monitor_id r) id) rows).

(** The keys are pairwise different. *)
Fixpoint distinct_keys (ks : list num) : bool :=
  match ks with
  | [] => true
  | k :: ks => negb (existsb (same_value_zero k) ks) && distinct_keys ks
  end.

(** How many monitors of the list have the key [k]. *)
Definition monitors_with (k : num) (ms : list StatusMonitor.t) : nat :=
  List.length (filter (fun m => same_value_zero (StatusMonitor.id m) k) ms).

(** ** Statuses *)

(** The string a [MonitorStatus] is at run time. *)
Definition monitor_status_string (s : MonitorStatus) : string :=
  match s with
  | MUp => "up"
  | MDown => "down"
  | MMaintenance => "maintenance"
  | MPaused => "paused"
  | MUnknown => "unknown"
  end.

(** A monitor status read as a check status: a check is never paused. *)
Definition as_check_status (s : MonitorStatus) : CheckStatus :=
  match s with
  | MUp => CUp
  | MDown => CDown
  | MMaintenance => CMaintenance
  | MPaused => CUnknown
  | MUnknown => CUnknown
  end.

(** * Properties *)

(** ** Numbers and booleans *)

(** Strict comparison of finite numbers is the order of the rationals. *)
Lemma Qlt_bool_iff x y : Num.Qlt_bool x y = true <-> (x < y)%Q.
Proof.
  unfold Num.Qlt_bool. rewrite negb_true_iff. split.
  - intros H. destruct (Qlt_le_dec x y) as [? | Hle]; [assumption |].
    apply Qle_bool_iff in Hle. congruence.
  - intros H. destruct (Qle_bool y x) eqn:E; [| reflexivity].
    apply Qle_bool_iff in E. lra.
Qed.

Lemma Qlt_bool_false x y : Num.Qlt_bool x y = false <-> (y <= x)%Q.
Proof.
  unfold Num.Qlt_bool. rewrite negb_false_iff. apply Qle_bool_iff.
Qed.

Lemma Qle_bool_false x y : Qle_bool x y = false <-> (y < x)%Q.
Proof.
  rewrite <- Qlt_bool_iff. unfold Num.Qlt_bool.
  destruct (Qle_bool x y); simpl; intuition congruence.
Qed.

(** Case analysis on the comparisons of finite numbers in the goal and the
    hypotheses, leaving facts about rationals. *)
Ltac qbool :=
  repeat match goal with
    | H : Num.Qlt_bool _ _ = true |- _ => apply Qlt_bool_iff in H
    | H : Num.Qlt_bool _ _ = false |- _ => apply Qlt_bool_false in H
    | H : Qle_bool _ _ = true |- _ => apply Qle_bool_iff in H
    | H : Qle_bool _ _ = false |- _ => apply Qle_bool_false in H
    | |- Num.Qlt_bool _ _ = true => apply Qlt_bool_iff
    | |- Num.Qlt_bool _ _ = false => apply Qlt_bool_false
    | |- Qle_bool _ _ = true => apply Qle_bool_iff
    | |- Qle_bool _ _ = false => apply Qle_bool_false
    end.

Ltac qcase :=
  match goal with
  | |- context [Num.Qlt_bool ?a ?b] =>
      let E := fresh "E" in destruct (Num.Qlt_bool a b) eqn:E
  | |- context [Qle_bool ?a ?b] =>
      let E := fresh "E" in destruct (Qle_bool a b) eqn:E
  | H : context [Num.Qlt_bool ?a ?b] |- _ =>
      let E := fresh "E" in destruct (Num.Qlt_bool a b) eqn:E
  | H : context [Qle_bool ?a ?b] |- _ =>
      let E := fresh "E" in destruct (Qle_bool a b) eqn:E
  end.

(** Expose the end points of an interval known to be finite. *)
Ltac fin_interval x :=
  let s := fresh "s" in
  let e := fresh "e" in
  destruct x as [[s | | |] [e | | |]]; simpl in *; try discriminate.

Ltac bdestr :=
  repeat match goal with
    | H : _ && _ = true |- _ => apply andb_true_iff in H as [? ?]
    end.

Ltac bsplit := repeat (apply andb_true_intro; split).

Lemma forallb_impl {A} (P P' : A -> bool) l :
  (forall a, P a = true -> P' a = true) ->
  forallb P l = true -> forallb P' l = true.
Proof.
  intros HP. induction l as [| a l IH]; simpl; intros H; [reflexivity |].
  bdestr. bsplit; auto.
Qed.

Lemma forallb_map_compose {A B} (f : A -> B) (P : B -> bool) l :
  forallb P (map f l) = forallb (fun x => P (f x)) l.
Proof.
  induction l as [| x l IH]; simpl; [reflexivity |]. rewrite IH. reflexivity.
Qed.

Lemma le_false_lt a b :
  isFinite a = true -> isFinite b = true -> (a <=? b) = false -> (b <? a) = true.
Proof.
  destruct a, b; simpl; try discriminate. intros _ _ H.
  unfold Num.Qlt_bool. rewrite H. reflexivity.
Qed.

Lemma lt_le_false a b : (a <? b) = true -> (b <=? a) = false.
Proof.
  destruct a, b; simpl; try discriminate; try reflexivity.
  unfold Num.Qlt_bool. intros H. apply negb_true_iff in H. exact H.
Qed.

Lemma max_finite a b :
  isFinite a = true -> isFinite b = true -> isFinite (Num.max a b) = true.
Proof.
  destruct a, b; simpl; try discriminate. intros _ _.
  destruct (Num.Qlt_bool q q0); reflexivity.
Qed.

Lemma le_trans_fin a b c :
  isFinite a = true -> isFinite b = true -> isFinite c = true ->
  (a <=? b) = true -> (b <=? c) = true -> (a <=? c) = true.
Proof.
  destruct a, b, c; simpl; try discriminate. intros _ _ _ H1 H2.
  qbool. lra.
Qed.

(** ** Scenario S4 and the contract of the gap classifier *)

(** C2. Range [1000, 1600), interval 60 and the single check (970, up):
    the verdict is valid until 1030, so the unknown set is the single
    interval [1030, 1600) and it sums to 570 seconds. *)
Theorem C2_straddling_verdict :
  let checks := [mkCheck 970 "up"] in
  checked_at (mkCheck 970 "up") + 60 = 1030
  /\ buildUnknownIntervals 1000 1600 60 checks = [mkInterval 1030 1600]
  /\ sumIntervals (buildUnknownIntervals 1000 1600 60 checks) = 570.
Proof. repeat split; vm_compute; reflexivity. Qed.

(** C3, as stated, fails: a positive finite interval that is not an integer
    passes the guard.  With range [0, 10), interval 5/2 and one check
    (0, up) the result is [5/2, 10), not the full range. *)
Lemma C3_counterexample :
  positive_finite_integer (Fin (5 # 2)%Q) = false
  /\ (10 <=? 0) = false
  /\ buildUnknownIntervals 0 10 (Fin (5 # 2)%Q) [mkCheck 0 "up"]
     = [mkInterval (Fin (5 # 2)%Q) 10]
  /\ buildUnknownIntervals 0 10 (Fin (5 # 2)%Q) [mkCheck 0 "up"]
     <> [mkInterval 0 10].
Proof.
  repeat split; try (vm_compute; reflexivity).
  vm_compute. discriminate.
Qed.

(** C3 (amended). The classifier returns the empty list whenever
    [rangeEnd <= rangeStart]; otherwise, whenever [intervalSec] is not
    finite or is [<= 0], it returns the full range as one interval. *)
Theorem C3_degenerate_inputs :
  forall rangeStart rangeEnd intervalSec checks,
    ((rangeEnd <=? rangeStart) = true ->
     buildUnknownIntervals rangeStart rangeEnd intervalSec checks = [])
    /\ ((rangeEnd <=? rangeStart) = false ->
        isFinite intervalSec = false \/ (intervalSec <=? 0) = true ->
        buildUnknownIntervals rangeStart rangeEnd intervalSec checks
        = [mkInterval rangeStart rangeEnd]).
Proof.
  intros rangeStart rangeEnd intervalSec checks.
  unfold buildUnknownIntervals. split.
  - intros ->. reflexivity.
  - intros -> [H | H]; rewrite H; simpl.
    + reflexivity.
    + rewrite orb_true_r. reflexivity.
Qed.

Lemma C3_degenerate_inputs_witness :
  buildUnknownIntervals 1600 1000 60 [mkCheck 970 "up"] = []
  /\ buildUnknownIntervals 1000 1600 NaN [mkCheck 970 "up"]
     = [mkInterval 1000 1600]
  /\ buildUnknownIntervals 1000 1600 0 [mkCheck 970 "up"]
     = [mkInterval 1000 1600].
Proof.
  split; [| split].
  - apply (C3_degenerate_inputs 1600 1000 60 [mkCheck 970 "up"]).
    reflexivity.
  - apply (C3_degenerate_inputs 1000 1600 NaN [mkCheck 970 "up"]).
    + reflexivity.
    + left. reflexivity.
  - apply (C3_degenerate_inputs 1000 1600 0 [mkCheck 970 "up"]).
    + reflexivity.
    + right. reflexivity.
Defined.

(** ** Fleet status: freshness, tally and overall status *)

Lemma toMonitorStatus_paused v :
  toMonitorStatus v = MPaused <-> v = Some "paused".
Proof.
  split.
  - destruct v as [s |]; simpl; [| discriminate].
    repeat (match goal with
            | |- context [String.eqb ?a ?b] =>
                destruct (String.eqb_spec a b); try discriminate
            end).
    congruence.
  - intros ->. reflexivity.
Qed.

Lemma toMonitorStatus_maintenance v :
  toMonitorStatus v = MMaintenance <-> v = Some "maintenance".
Proof.
  split.
  - destruct v as [s |]; simpl; [| discriminate].
    repeat (match goal with
            | |- context [String.eqb ?a ?b] =>
                destruct (String.eqb_spec a b); try discriminate
            end).
    congruence.
  - intros ->. reflexivity.
Qed.

(** C5. Every row of the [GET /status] response comes from the row of the
    monitor query at the same index.  A paused or maintenance state is
    never stale; otherwise a missing [last_checked_at] is stale, and a
    present one is stale iff [now - last_checked_at > 2 * interval_sec].
    A stale row is exposed as unknown with a null latency, and
    [last_checked_at] is always the stored value. *)
Theorem C5_freshness :
  forall date_now results k m,
    let resp := status_handler date_now results in
    let now := StatusResponse.generated_at resp in
    nth_error (StatusResponse.monitors resp) k = Some m ->
    exists r,
      nth_error (match results with Some rs => rs | None => [] end) k = Some r
      /\ let state := PublicStatusMonitorRow.state_status r in
         (state = Some "paused" \/ state = Some "maintenance" ->
          StatusMonitor.is_stale m = false)
         /\ (state <> Some "paused" -> state <> Some "maintenance" ->
             PublicStatusMonitorRow.last_checked_at r = None ->
             StatusMonitor.is_stale m = true)
         /\ (state <> Some "paused" -> state <> Some "maintenance" ->
             forall last,
               PublicStatusMonitorRow.last_checked_at r = Some last ->
               StatusMonitor.is_stale m
               = (now - last >? PublicStatusMonitorRow.interval_sec r * 2))
         /\ (state <> Some "paused" -> state <> Some "maintenance" ->
             forall last interval,
               PublicStatusMonitorRow.last_checked_at r = Some (Fin last) ->
               PublicStatusMonitorRow.interval_sec r = Fin interval ->
               exists n : Z,
                 now = Num.of_Z n
                 /\ (StatusMonitor.is_stale m = true
                     <-> (2 * interval < inject_Z n - last)%Q))
         /\ (StatusMonitor.is_stale m = true ->
             StatusMonitor.status m = MUnknown
             /\ StatusMonitor.last_latency_ms m = None)
         /\ StatusMonitor.last_checked_at m
            = PublicStatusMonitorRow.last_checked_at r.
Proof.
  intros date_now results k m resp now Hk.
  subst resp. cbn [status_handler StatusResponse.monitors] in Hk.
  rewrite nth_error_map in Hk.
  destruct (nth_error (match results with Some rs => rs | None => [] end) k)
    as [r |]; [| discriminate].
  cbn [option_map] in Hk. injection Hk as <-.
  exists r. split; [reflexivity |]. intros state.
  change (StatusResponse.generated_at (status_handler date_now results))
    with (now_of date_now) in now.
  assert (Hp : state <> Some "paused" -> toMonitorStatus state <> MPaused).
  { intros H E. apply H. apply toMonitorStatus_paused. exact E. }
  assert (Hm : state <> Some "maintenance" -> toMonitorStatus state <> MMaintenance).
  { intros H E. apply H. apply toMonitorStatus_maintenance. exact E. }
  unfold status_monitor. fold state. fold now. simpl.
  split; [| split; [| split; [| split; [| split]]]].
  - intros [H | H]; rewrite H; reflexivity.
  - intros H1 H2 Hl. rewrite Hl.
    destruct (toMonitorStatus state); auto; [elim (Hm H2) | elim (Hp H1)]; reflexivity.
  - intros H1 H2 last Hl. rewrite Hl.
    destruct (toMonitorStatus state); auto; [elim (Hm H2) | elim (Hp H1)]; reflexivity.
  - intros H1 H2 last interval Hl Hi. rewrite Hl, Hi.
    exists (Qfloor (inject_Z date_now / 1000)). split; [reflexivity |].
    assert (E : (now - Fin last >? Fin interval * 2) = true
                <-> (2 * interval < inject_Z (Qfloor (inject_Z date_now / 1000)) - last)%Q).
    { subst now. simpl. unfold Num.gt. simpl. rewrite Qlt_bool_iff.
      split; intros; lra. }
    destruct (toMonitorStatus state); auto; [elim (Hm H2) | elim (Hp H1)]; reflexivity.
  - destruct (toMonitorStatus state);
      destruct (PublicStatusMonitorRow.last_checked_at r);
      try discriminate; try (intros ->); auto.
  - reflexivity.
Qed.

Lemma C5_freshness_witness :
  exists m,
    nth_error (StatusResponse.monitors (status_handler 10000000 (Some [row_S5]))) 0
    = Some m
    /\ StatusMonitor.is_stale m = true
    /\ StatusMonitor.status m = MUnknown
    /\ StatusMonitor.last_latency_ms m = None
    /\ StatusMonitor.last_checked_at m = Some 9000.
Proof.
  exists (status_monitor (now_of 10000000) row_S5).
  destruct (C5_freshness 10000000 (Some [row_S5]) 0
              (status_monitor (now_of 10000000) row_S5) eq_refl)
    as (r & Hr & _ & _ & _ & _ & Hexposed & Hlast).
  cbn [nth_error] in Hr. injection Hr as <-.
  destruct (Hexposed eq_refl) as [Hu Hl].
  repeat split; assumption.
Defined.

Lemma tally_from_spec ms : forall c,
  let c' := fold_left (fun counts m => Counts.incr counts (StatusMonitor.status m)) ms c in
  Counts.up c' = (Counts.up c + exposed_as MUp ms)%nat
  /\ Counts.down c' = (Counts.down c + exposed_as MDown ms)%nat
  /\ Counts.maintenance c' = (Counts.maintenance c + exposed_as MMaintenance ms)%nat
  /\ Counts.paused c' = (Counts.paused c + exposed_as MPaused ms)%nat
  /\ Counts.unknown c' = (Counts.unknown c + exposed_as MUnknown ms)%nat.
Proof.
  induction ms as [| m ms IH]; intros c; simpl.
  - unfold exposed_as; simpl. repeat split; lia.
  - specialize (IH (Counts.incr c (StatusMonitor.status m))). simpl in IH.
    destruct IH as (H1 & H2 & H3 & H4 & H5).
    rewrite H1, H2, H3, H4, H5. unfold exposed_as. simpl.
    destruct (StatusMonitor.status m); simpl; repeat split; lia.
Qed.

Lemma exposed_as_total ms :
  (exposed_as MUp ms + exposed_as MDown ms + exposed_as MMaintenance ms
   + exposed_as MPaused ms + exposed_as MUnknown ms)%nat = List.length ms.
Proof.
  unfold exposed_as. induction ms as [| m ms IH]; simpl; [reflexivity |].
  destruct (StatusMonitor.status m); simpl; lia.
Qed.

(** C6. In every [GET /status] response the overall status follows the
    strict priority down, unknown, maintenance, up, paused on the summary
    counts, and is unknown when all counts are zero. *)
Theorem C6_overall_status_priority :
  forall date_now results,
    let resp := status_handler date_now results in
    let s := StatusResponse.summary resp in
    let overall := StatusResponse.overall_status resp in
    ((Counts.down s > 0)%nat -> overall = MDown)
    /\ (Counts.down s = 0%nat -> (Counts.unknown s > 0)%nat -> overall = MUnknown)
    /\ (Counts.down s = 0%nat -> Counts.unknown s = 0%nat ->
        (Counts.maintenance s > 0)%nat -> overall = MMaintenance)
    /\ (Counts.down s = 0%nat -> Counts.unknown s = 0%nat ->
        Counts.maintenance s = 0%nat ->
        (Counts.up s > 0)%nat -> overall = MUp)
    /\ (Counts.down s = 0%nat -> Counts.unknown s = 0%nat ->
        Counts.maintenance s = 0%nat -> Counts.up s = 0%nat ->
        (Counts.paused s > 0)%nat -> overall = MPaused)
    /\ (Counts.down s = 0%nat -> Counts.unknown s = 0%nat ->
        Counts.maintenance s = 0%nat -> Counts.up s = 0%nat ->
        Counts.paused s = 0%nat -> overall = MUnknown).
Proof.
  intros date_now results resp s overall.
  assert (E : overall = overall_status_of s) by reflexivity.
  rewrite E. unfold overall_status_of.
  repeat split; intros;
    repeat match goal with
           | H : _ = 0%nat |- _ => rewrite H
           | H : (_ > 0)%nat |- _ => apply Nat.ltb_lt in H; rewrite H
           end; reflexivity.
Qed.

Lemma C6_overall_status_priority_witness :
  StatusResponse.overall_status
    (status_handler 10000000 (Some [row_S5; row_paused])) = MUnknown
  /\ StatusResponse.overall_status
       (status_handler 10000000 (Some [row_paused])) = MPaused.
Proof.
  split.
  - destruct (C6_overall_status_priority 10000000 (Some [row_S5; row_paused]))
      as (_ & H & _).
    apply H; [reflexivity | vm_compute; lia].
  - destruct (C6_overall_status_priority 10000000 (Some [row_paused]))
      as (_ & _ & _ & _ & H & _).
    apply H; try reflexivity. vm_compute. lia.
Defined.

(** C10. In every [GET /status] response each summary count is the number
    of entries of [monitors] exposed under that status, so the five counts
    add up to [monitors.length]. *)
Theorem C10_summary_counts :
  forall date_now results,
    let resp := status_handler date_now results in
    let s := StatusResponse.summary resp in
    let ms := StatusResponse.monitors resp in
    Counts.up s = exposed_as MUp ms
    /\ Counts.down s = exposed_as MDown ms
    /\ Counts.maintenance s = exposed_as MMaintenance ms
    /\ Counts.paused s = exposed_as MPaused ms
    /\ Counts.unknown s = exposed_as MUnknown ms
    /\ (Counts.up s + Counts.down s + Counts.maintenance s + Counts.paused s
        + Counts.unknown s)%nat = List.length ms.
Proof.
  intros date_now results resp s ms.
  pose proof (tally_from_spec ms (Counts.mk 0 0 0 0 0)) as H. simpl in H.
  change (fold_left _ ms _) with s in H.
  destruct H as (H1 & H2 & H3 & H4 & H5).
  rewrite H1, H2, H3, H4, H5.
  repeat split; try reflexivity.
  apply exposed_as_total.
Qed.

(** ** Interval sets *)

Lemma finite_interval_eta it :
  mkInterval (start it) (end_ it) = it.
Proof. destruct it; reflexivity. Qed.

(** *** Appending with merge *)

Lemma merge_step_push merged cur :
  merge_step merged cur = pushMergedInterval merged cur.
Proof.
  induction merged as [| x [| y rest] IH]; simpl in *;
    try reflexivity; try (rewrite IH; reflexivity).
Qed.

Lemma push_snoc l p c :
  pushMergedInterval (l ++ [p]) c = l ++ pushMergedInterval [p] c.
Proof.
  induction l as [| a l IH]; [reflexivity |].
  change ((a :: l) ++ [p]) with (a :: (l ++ [p])).
  destruct (l ++ [p]) as [| b t] eqn:E.
  - destruct l; discriminate.
  - change (a :: pushMergedInterval (b :: t) c = (a :: l) ++ pushMergedInterval [p] c).
    rewrite IH. reflexivity.
Qed.

Lemma chain_app_last R l p :
  chain R (l ++ [p]) = true ->
  forall p', (forall q, R q p = true -> R q p' = true) ->
  chain R (l ++ [p']) = true.
Proof.
  induction l as [| a [| b l] IH]; intros H p' Hp; simpl in *.
  - reflexivity.
  - apply andb_true_iff in H as [H _]. rewrite (Hp _ H). reflexivity.
  - apply andb_true_iff in H as [H1 H2]. rewrite H1. simpl.
    apply (IH H2 p' Hp).
Qed.

Lemma chain_snoc R l p c :
  chain R (l ++ [p]) = true -> R p c = true ->
  chain R (l ++ [p; c]) = true.
Proof.
  induction l as [| a [| b l] IH]; intros H Hc; simpl in *.
  - rewrite Hc. reflexivity.
  - apply andb_true_iff in H as [H _]. rewrite H, Hc. reflexivity.
  - apply andb_true_iff in H as [H1 H2]. rewrite H1. simpl.
    apply (IH H2 Hc).
Qed.

Lemma chain_tail R a l : chain R (a :: l) = true -> chain R l = true.
Proof.
  destruct l as [| b l]; [reflexivity |]. simpl.
  intros H. apply andb_true_iff in H as [_ H]. exact H.
Qed.

(** Appending with merge keeps a separated list separated. *)
Lemma push_separated l c :
  forallb finite_interval l = true -> finite_interval c = true ->
  separated l = true -> separated (pushMergedInterval l c) = true.
Proof.
  destruct l as [| p l _] using rev_ind; intros Hl Hc Hs; [reflexivity |].
  rewrite push_snoc. simpl.
  rewrite forallb_app in Hl. apply andb_true_iff in Hl as [_ Hp].
  simpl in Hp. rewrite andb_true_r in Hp.
  apply andb_true_iff in Hp as [_ Hpe]. apply andb_true_iff in Hc as [Hcs _].
  destruct (start c <=? end_ p) eqn:E.
  - apply (chain_app_last _ _ _ Hs). intros q Hq. exact Hq.
  - apply (chain_snoc _ _ _ _ Hs). simpl.
    apply le_false_lt; assumption.
Qed.

Lemma push_forallb P l c :
  merge_closed P ->
  forallb P l = true -> P c = true ->
  forallb P (pushMergedInterval l c) = true.
Proof.
  intros HP. destruct l as [| p l _] using rev_ind; intros Hl Hc.
  - simpl. rewrite finite_interval_eta, Hc. reflexivity.
  - rewrite push_snoc. rewrite forallb_app in *.
    apply andb_true_iff in Hl as [Hl Hp]. rewrite Hl. simpl in *.
    rewrite andb_true_r in Hp.
    destruct (start c <=? end_ p); simpl.
    + rewrite (HP p c Hp Hc). reflexivity.
    + rewrite Hp, finite_interval_eta, Hc. reflexivity.
Qed.

Lemma finite_merge_closed : merge_closed finite_interval.
Proof.
  intros p c Hp Hc. unfold finite_interval in *. simpl.
  apply andb_true_iff in Hp as [Hps Hpe]. apply andb_true_iff in Hc as [_ Hce].
  rewrite Hps, (max_finite _ _ Hpe Hce). reflexivity.
Qed.

Lemma proper_merge_closed : merge_closed proper.
Proof.
  intros p c Hp Hc. unfold proper, finite_interval in *.
  fin_interval p; fin_interval c.
  unfold Num.max; simpl. qcase; simpl; qbool; lra.
Qed.

Lemma within_merge_closed lo hi : merge_closed (within lo hi).
Proof.
  intros p c Hp Hc. unfold within in *.
  apply andb_true_iff in Hp as [Hp Hp3]. apply andb_true_iff in Hp as [Hp1 Hp2].
  apply andb_true_iff in Hc as [Hc Hc3]. apply andb_true_iff in Hc as [Hc1 Hc2].
  rewrite (proper_merge_closed p c Hp1 Hc1). simpl. rewrite Hp2. simpl.
  unfold proper, finite_interval in *.
  fin_interval p; fin_interval c.
  unfold Num.max; simpl. qcase; assumption.
Qed.

(** *** Sorting by start *)

Lemma by_start_gt a b :
  finite_interval a = true -> finite_interval b = true ->
  (by_start a b >? 0) = (start b <? start a).
Proof.
  unfold by_start, finite_interval. intros Ha Hb.
  fin_interval a; fin_interval b. unfold Num.gt. simpl.
  destruct (Num.Qlt_bool s0 s) eqn:E; qbool; lra.
Qed.

Lemma sort_insert_forallb (P : Interval -> bool) x l :
  P x = true -> forallb P l = true ->
  forallb P (sort_insert by_start x l) = true.
Proof.
  intros Hx. induction l as [| y l IH]; cbn [sort_insert forallb]; intros Hl.
  - rewrite Hx. reflexivity.
  - apply andb_true_iff in Hl as [Hy Hl].
    destruct (by_start x y >? 0); cbn [forallb].
    + rewrite Hy. apply IH. exact Hl.
    + rewrite Hx, Hy, Hl. reflexivity.
Qed.

Lemma array_sort_forallb (P : Interval -> bool) l :
  forallb P l = true -> forallb P (array_sort by_start l) = true.
Proof.
  induction l as [| x l IH]; simpl; intros Hl; [reflexivity |].
  apply andb_true_iff in Hl as [Hx Hl].
  apply sort_insert_forallb; auto.
Qed.

Lemma sort_insert_ascending x l :
  finite_interval x = true -> forallb finite_interval l = true ->
  ascending l = true -> ascending (sort_insert by_start x l) = true.
Proof.
  intros Hx. induction l as [| y l IH]; intros Hl Hasc; [reflexivity |].
  simpl in Hl. apply andb_true_iff in Hl as [Hy Hl].
  cbn [sort_insert]. rewrite (by_start_gt x y Hx Hy).
  destruct (start y <? start x) eqn:E.
  - specialize (IH Hl (chain_tail _ _ _ Hasc)).
    destruct l as [| z l].
    + unfold finite_interval in *. fin_interval x; fin_interval y.
      unfold ascending. simpl. rewrite andb_true_r. qbool. lra.
    + simpl in Hl. apply andb_true_iff in Hl as [Hz Hl].
      cbn [sort_insert] in IH |- *. rewrite (by_start_gt x z Hx Hz) in IH |- *.
      unfold ascending in Hasc. simpl in Hasc.
      apply andb_true_iff in Hasc as [Hyz Hasc].
      destruct (start z <? start x) eqn:E'.
      * unfold ascending. simpl. rewrite Hyz. exact IH.
      * unfold ascending. simpl.
        assert (Hyx : (start y <=? start x) = true).
        { unfold finite_interval in *. fin_interval x; fin_interval y.
          qbool. lra. }
        rewrite Hyx. exact IH.
  - unfold ascending in *. simpl.
    assert (Hxy : (start x <=? start y) = true).
    { unfold finite_interval in *. fin_interval x; fin_interval y.
      qbool. lra. }
    rewrite Hxy. exact Hasc.
Qed.

Lemma array_sort_ascending l :
  forallb finite_interval l = true ->
  ascending (array_sort by_start l) = true.
Proof.
  induction l as [| x l IH]; simpl; intros Hl; [reflexivity |].
  apply andb_true_iff in Hl as [Hx Hl].
  apply sort_insert_ascending; auto using array_sort_forallb.
Qed.

(** A list already ascending by start is left as it is. *)
Lemma array_sort_id l :
  forallb finite_interval l = true -> ascending l = true ->
  array_sort by_start l = l.
Proof.
  induction l as [| x l IH]; simpl; intros Hl Hasc; [reflexivity |].
  apply andb_true_iff in Hl as [Hx Hl].
  rewrite (IH Hl (chain_tail _ _ _ Hasc)).
  destruct l as [| y l]; [reflexivity |].
  simpl in Hl. apply andb_true_iff in Hl as [Hy Hl].
  cbn [sort_insert]. rewrite (by_start_gt x y Hx Hy).
  unfold ascending in Hasc. simpl in Hasc.
  apply andb_true_iff in Hasc as [Hxy _].
  assert (E : (start y <? start x) = false).
  { unfold finite_interval in *. fin_interval x; fin_interval y. qbool. lra. }
  rewrite E. reflexivity.
Qed.

(** *** The merge loop *)

Lemma fold_merge_step rest : forall merged,
  fold_left merge_step rest merged = fold_left pushMergedInterval rest merged.
Proof.
  induction rest as [| c rest IH]; intros merged; simpl; [reflexivity |].
  rewrite merge_step_push. apply IH.
Qed.

Lemma fold_push_forallb P rest : forall merged,
  merge_closed P ->
  forallb P merged = true -> forallb P rest = true ->
  forallb P (fold_left pushMergedInterval rest merged) = true.
Proof.
  induction rest as [| c rest IH]; intros merged HP Hm Hr; simpl; [exact Hm |].
  simpl in Hr. apply andb_true_iff in Hr as [Hc Hr].
  apply IH; auto using push_forallb.
Qed.

Lemma fold_push_separated rest : forall merged,
  forallb finite_interval merged = true -> forallb finite_interval rest = true ->
  separated merged = true ->
  separated (fold_left pushMergedInterval rest merged) = true.
Proof.
  induction rest as [| c rest IH]; intros merged Hm Hr Hs; simpl; [exact Hs |].
  simpl in Hr. apply andb_true_iff in Hr as [Hc Hr].
  apply IH; auto using push_separated, push_forallb, finite_merge_closed.
Qed.

Lemma fold_push_ascending rest : forall pre p,
  forallb finite_interval (pre ++ [p]) = true ->
  forallb finite_interval rest = true ->
  ascending (pre ++ [p]) = true -> ascending (p :: rest) = true ->
  ascending (fold_left pushMergedInterval rest (pre ++ [p])) = true.
Proof.
  induction rest as [| c rest IH]; intros pre p Hm Hr Ha Hpr; simpl; [exact Ha |].
  simpl in Hr. apply andb_true_iff in Hr as [Hc Hr].
  pose proof Hm as Hm'. rewrite forallb_app in Hm'.
  apply andb_true_iff in Hm' as [Hpre Hp]. simpl in Hp. rewrite andb_true_r in Hp.
  unfold ascending in Hpr. simpl in Hpr.
  apply andb_true_iff in Hpr as [Hpc Hcr]. fold ascending in Hcr.
  rewrite push_snoc. simpl.
  destruct (start c <=? end_ p) eqn:E.
  - apply IH.
    + rewrite forallb_app, Hpre. simpl.
      rewrite (finite_merge_closed p c Hp Hc). reflexivity.
    + exact Hr.
    + apply (chain_app_last _ _ _ Ha). intros q Hq. exact Hq.
    + destruct rest as [| d rest]; [reflexivity |].
      unfold ascending in Hcr |- *. simpl in Hcr |- *.
      apply andb_true_iff in Hcr as [Hcd Hcr]. rewrite Hcr, andb_true_r.
      simpl in Hr. apply andb_true_iff in Hr as [Hd _].
      unfold finite_interval in Hp, Hc, Hd.
      apply andb_true_iff in Hp as [Hp _]. apply andb_true_iff in Hc as [Hc _].
      apply andb_true_iff in Hd as [Hd _].
      apply (le_trans_fin _ (start c)); assumption.
  - rewrite finite_interval_eta.
    change (pre ++ [p; c]) with (pre ++ [p] ++ [c]). rewrite app_assoc.
    apply IH.
    + rewrite forallb_app, Hm. simpl. rewrite Hc. reflexivity.
    + exact Hr.
    + rewrite <- app_assoc. apply (chain_snoc _ _ _ _ Ha). exact Hpc.
    + exact Hcr.
Qed.

(** On a separated list the loop appends every element unchanged. *)
Lemma fold_push_id rest : forall pre p,
  separated (p :: rest) = true ->
  fold_left pushMergedInterval rest (pre ++ [p]) = pre ++ p :: rest.
Proof.
  induction rest as [| c rest IH]; intros pre p Hs; simpl; [reflexivity |].
  unfold separated in Hs. simpl in Hs.
  apply andb_true_iff in Hs as [Hpc Hs]. fold separated in Hs.
  rewrite push_snoc. simpl. rewrite (lt_le_false _ _ Hpc), finite_interval_eta.
  change (pre ++ [p; c]) with (pre ++ [p] ++ [c]). rewrite app_assoc.
  rewrite (IH _ _ Hs). rewrite <- app_assoc. reflexivity.
Qed.

Lemma mergeIntervals_eq intervals :
  mergeIntervals intervals =
  match array_sort by_start intervals with
  | [] => []
  | first :: rest => fold_left pushMergedInterval rest ([] ++ [first])
  end.
Proof.
  unfold mergeIntervals. fold by_start.
  destruct (array_sort by_start intervals) as [| first rest]; [reflexivity |].
  rewrite fold_merge_step, finite_interval_eta. reflexivity.
Qed.

Lemma mergeIntervals_forallb P intervals :
  merge_closed P -> forallb P intervals = true ->
  forallb P (mergeIntervals intervals) = true.
Proof.
  intros HP H. rewrite mergeIntervals_eq.
  pose proof (array_sort_forallb P _ H) as Hs.
  destruct (array_sort by_start intervals) as [| first rest]; [reflexivity |].
  simpl in Hs. apply andb_true_iff in Hs as [Hf Hr].
  apply fold_push_forallb; auto. simpl. rewrite Hf. reflexivity.
Qed.

Lemma mergeIntervals_separated intervals :
  forallb finite_interval intervals = true ->
  separated (mergeIntervals intervals) = true.
Proof.
  intros H. rewrite mergeIntervals_eq.
  pose proof (array_sort_forallb _ _ H) as Hs.
  destruct (array_sort by_start intervals) as [| first rest]; [reflexivity |].
  simpl in Hs. apply andb_true_iff in Hs as [Hf Hr].
  apply fold_push_separated; auto. simpl. rewrite Hf. reflexivity.
Qed.

Lemma mergeIntervals_ascending intervals :
  forallb finite_interval intervals = true ->
  ascending (mergeIntervals intervals) = true.
Proof.
  intros H. rewrite mergeIntervals_eq.
  pose proof (array_sort_forallb _ _ H) as Hs.
  pose proof (array_sort_ascending _ H) as Ha.
  destruct (array_sort by_start intervals) as [| first rest]; [reflexivity |].
  simpl in Hs. apply andb_true_iff in Hs as [Hf Hr].
  apply fold_push_ascending; auto. simpl. rewrite Hf. reflexivity.
Qed.

(** A merged list is a fixed point of [mergeIntervals]. *)
Lemma mergeIntervals_fixed l :
  forallb finite_interval l = true ->
  separated l = true -> ascending l = true ->
  mergeIntervals l = l.
Proof.
  intros Hf Hs Ha. rewrite mergeIntervals_eq, (array_sort_id _ Hf Ha).
  destruct l as [| first rest]; [reflexivity |].
  apply fold_push_id. exact Hs.
Qed.

Lemma chain_impl (P : Interval -> bool) (R R' : Interval -> Interval -> bool) l :
  (forall a b, P a = true -> P b = true -> R a b = true -> R' a b = true) ->
  forallb P l = true -> chain R l = true -> chain R' l = true.
Proof.
  intros HR. induction l as [| a [| b l] IH]; intros HP Hc; try reflexivity.
  simpl in HP. apply andb_true_iff in HP as [Ha HP].
  pose proof HP as HP'. simpl in HP'. apply andb_true_iff in HP' as [Hb _].
  simpl in Hc. apply andb_true_iff in Hc as [Hab Hc].
  simpl. rewrite (HR a b Ha Hb Hab). apply IH; assumption.
Qed.

(** C7. For every list of intervals with finite end points, merging is
    idempotent, and the merged list is ascending by start with every
    start strictly greater than the previous end.  When the intervals
    are proper ([start < end]) the starts are strictly ascending. *)
Theorem C7_merge_idempotent :
  forall xs,
    forallb finite_interval xs = true ->
    mergeIntervals (mergeIntervals xs) = mergeIntervals xs
    /\ ascending (mergeIntervals xs) = true
    /\ separated (mergeIntervals xs) = true
    /\ (forallb proper xs = true ->
        strictly_ascending (mergeIntervals xs) = true).
Proof.
  intros xs Hf.
  pose proof (mergeIntervals_forallb _ xs finite_merge_closed Hf) as Hmf.
  pose proof (mergeIntervals_separated xs Hf) as Hs.
  pose proof (mergeIntervals_ascending xs Hf) as Ha.
  repeat split; auto using mergeIntervals_fixed.
  intros Hp.
  pose proof (mergeIntervals_forallb _ xs proper_merge_closed Hp) as Hmp.
  apply (chain_impl proper (fun a b => end_ a <? start b)); auto.
  intros a b Hpa Hpb Hab. unfold proper, finite_interval in *.
  fin_interval a; fin_interval b. qbool. lra.
Qed.

Lemma C7_merge_idempotent_witness :
  let xs := [mkInterval 5 9; mkInterval 1 3; mkInterval 2 6; mkInterval 20 21] in
  mergeIntervals xs = [mkInterval 1 9; mkInterval 20 21]
  /\ mergeIntervals (mergeIntervals xs) = mergeIntervals xs
  /\ separated (mergeIntervals xs) = true.
Proof.
  intros xs.
  destruct (C7_merge_idempotent xs eq_refl) as (Hi & _ & Hs & _).
  split; [vm_compute; reflexivity | split; assumption].
Defined.

(** ** The observation gap classifier *)

Lemma within_proper lo hi it : within lo hi it = true -> proper it = true.
Proof. unfold within. intros H. bdestr. assumption. Qed.

Lemma proper_finite it : proper it = true -> finite_interval it = true.
Proof. unfold proper. intros H. bdestr. assumption. Qed.

Lemma within_finite lo hi it : within lo hi it = true -> finite_interval it = true.
Proof. intros H. eapply proper_finite, within_proper, H. Qed.

Lemma within_Fin (lo hi s e : Q) :
  (lo <= s)%Q -> (s < e)%Q -> (e <= hi)%Q ->
  within (Fin lo) (Fin hi) (mkInterval (Fin s) (Fin e)) = true.
Proof.
  intros. unfold within, proper, finite_interval. simpl. bsplit; qbool; auto.
Qed.

Lemma addUnknown_ok (lo hi from to : Q) l :
  (lo <= from)%Q -> (to <= hi)%Q ->
  unknown_ok (Fin lo) (Fin hi) l ->
  unknown_ok (Fin lo) (Fin hi) (addUnknown l (Fin from) (Fin to)).
Proof.
  intros Hfrom Hto [Hw Hs]. unfold addUnknown, ensureInterval. simpl.
  destruct (Qle_bool to from) eqn:E; [split; assumption |].
  qbool. split.
  - apply push_forallb; auto using within_merge_closed, within_Fin.
  - apply push_separated; auto.
    apply (forallb_impl _ _ _ (within_finite (Fin lo) (Fin hi)) Hw).
Qed.

Lemma processSegment_ok (lo hi iv segStart segEnd : Q) lc l :
  (lo <= segStart)%Q -> (segEnd <= hi)%Q -> check_finite lc ->
  unknown_ok (Fin lo) (Fin hi) l ->
  unknown_ok (Fin lo) (Fin hi)
    (processSegment (Fin iv) lc l (Fin segStart) (Fin segEnd)).
Proof.
  intros Hs He Hlc Hl. unfold processSegment. simpl.
  destruct (Qle_bool segEnd segStart) eqn:E; [exact Hl |].
  destruct lc as [[[c | | |] st] |]; simpl in Hlc; try discriminate;
    [| apply addUnknown_ok; assumption].
  simpl. unfold Num.ge. simpl.
  destruct (Qle_bool (c + iv) segStart) eqn:E1;
    [apply addUnknown_ok; assumption |].
  destruct (Num.Qlt_bool (c + iv) segEnd) eqn:E2; simpl.
  - rewrite E2. qbool.
    apply addUnknown_ok; try lra.
    destruct (String.eqb st "unknown"); [| exact Hl].
    apply addUnknown_ok; try lra. exact Hl.
  - assert (E3 : Num.Qlt_bool segEnd segEnd = false) by (qbool; lra).
    rewrite E3.
    destruct (String.eqb st "unknown"); [| exact Hl].
    apply addUnknown_ok; try lra. exact Hl.
Qed.

Lemma scanChecks_ok (lo hi iv : Q) checks : forall st,
  forallb (fun c => isFinite (checked_at c)) checks = true ->
  scan_ok lo hi st ->
  scan_ok lo hi (scanChecks (Fin lo) (Fin hi) (Fin iv) checks st).
Proof.
  induction checks as [| check checks IH]; intros st Hc Hst; [exact Hst |].
  simpl in Hc. bdestr.
  destruct Hst as ((c & Hcur & Hlo) & Hlast & Hun).
  cbn [scanChecks].
  destruct (checked_at check) as [t | | |] eqn:Et; try discriminate.
  destruct (Fin t <? Fin lo) eqn:E1.
  - apply IH; [assumption |]. split; [| split]; simpl; eauto.
    rewrite Et. reflexivity.
  - destruct (Fin t >=? Fin hi) eqn:E2.
    + split; [| split]; eauto.
    + apply IH; [assumption |]. unfold Num.ge in E2. simpl in E1, E2. qbool.
      split; [| split]; simpl.
      * exists t. split; [reflexivity | assumption].
      * rewrite Et. reflexivity.
      * rewrite Hcur. apply processSegment_ok; auto. lra.
Qed.

Lemma buildUnknownIntervals_ok (lo hi : Q) intervalSec checks :
  forallb (fun c => isFinite (checked_at c)) checks = true ->
  unknown_ok (Fin lo) (Fin hi)
    (buildUnknownIntervals (Fin lo) (Fin hi) intervalSec checks).
Proof.
  intros Hc. unfold buildUnknownIntervals.
  destruct (Fin hi <=? Fin lo) eqn:E; [split; reflexivity |].
  simpl in E. qbool.
  destruct (negb (isFinite intervalSec) || (intervalSec <=? 0)) eqn:G.
  - split; [| reflexivity]. simpl. rewrite within_Fin; auto; lra.
  - destruct intervalSec as [iv | | |]; try discriminate.
    pose proof (scanChecks_ok lo hi iv checks (mkScan None (Fin lo) []) Hc) as H.
    destruct H as ((c & Hcur & Hlo) & Hlast & Hun).
    { split; [| split; [| split]]; simpl; auto.
      exists lo. split; [reflexivity | lra]. }
    rewrite Hcur. apply processSegment_ok; auto. lra.
Qed.

(** C9. For finite range bounds and check times, every interval returned
    by the gap classifier is proper and lies inside the range
    ([rangeStart <= start < end <= rangeEnd]), and the list is already
    merged: ascending by start, each start strictly greater than the
    previous end.  This holds for every interval length and every order
    of the checks, hence for a positive finite length and a sorted list. *)
Theorem C9_unknown_intervals_merged :
  forall rangeStart rangeEnd intervalSec checks,
    isFinite rangeStart = true -> isFinite rangeEnd = true ->
    forallb (fun c => isFinite (checked_at c)) checks = true ->
    let unknown := buildUnknownIntervals rangeStart rangeEnd intervalSec checks in
    forallb (within rangeStart rangeEnd) unknown = true
    /\ separated unknown = true
    /\ strictly_ascending unknown = true
    /\ mergeIntervals unknown = unknown.
Proof.
  intros rangeStart rangeEnd intervalSec checks Hs He Hc unknown.
  destruct rangeStart as [lo | | |]; try discriminate.
  destruct rangeEnd as [hi | | |]; try discriminate.
  destruct (buildUnknownIntervals_ok lo hi intervalSec checks Hc) as [Hw Hsep].
  fold unknown in Hw, Hsep.
  assert (Hstrict : strictly_ascending unknown = true).
  { apply (chain_impl proper (fun a b => end_ a <? start b)); auto.
    - intros a b Hpa Hpb Hab. unfold proper, finite_interval in *.
      fin_interval a; fin_interval b. qbool. lra.
    - apply (forallb_impl _ _ _ (within_proper (Fin lo) (Fin hi)) Hw). }
  repeat split; auto.
  apply mergeIntervals_fixed; auto.
  - apply (forallb_impl _ _ _ (within_finite (Fin lo) (Fin hi)) Hw).
  - apply (chain_impl finite_interval (fun a b => start a <? start b)); auto.
    + intros a b Hpa Hpb Hab. unfold finite_interval in *.
      fin_interval a; fin_interval b. qbool. lra.
    + apply (forallb_impl _ _ _ (within_finite (Fin lo) (Fin hi)) Hw).
Qed.

Lemma C9_unknown_intervals_merged_witness :
  let checks := [mkCheck 970 "up"; mkCheck 1200 "unknown"; mkCheck 1290 "down"] in
  let unknown := buildUnknownIntervals 1000 1600 60 checks in
  unknown = [mkInterval 1030 1290; mkInterval 1350 1600]
  /\ forallb (within 1000 1600) unknown = true
  /\ separated unknown = true.
Proof.
  intros checks unknown.
  destruct (C9_unknown_intervals_merged 1000 1600 60 checks eq_refl eq_refl eq_refl)
    as (Hw & Hs & _).
  split; [vm_compute; reflexivity | split; assumption].
Defined.

(** ** Lengths: [sumIntervals] and [overlapSeconds] on finite intervals *)

Lemma fits_finite hi lo l : fits hi lo l -> forallb finite_interval l = true.
Proof. induction 1; simpl; auto. Qed.

Lemma fits_intro hi l : forall lo,
  (lo <= hi)%Q ->
  forallb (fun it => finite_interval it && (start it <=? end_ it)
                     && (end_ it <=? Fin hi)) l = true ->
  chain (fun a b => end_ a <=? start b) l = true ->
  match l with x :: _ => (Fin lo <=? start x) = true | [] => True end ->
  fits hi lo l.
Proof.
  induction l as [| x l IH]; intros lo Hlo Hf Hc Hh; [constructor; assumption |].
  pose proof (chain_tail _ _ _ Hc) as Hc'.
  assert (Hh' : match l with
                | y :: _ => (end_ x <=? start y) = true
                | [] => True
                end).
  { destruct l as [| y l]; [exact I |]. simpl in Hc. bdestr. assumption. }
  clear Hc. simpl in Hf. bdestr. unfold finite_interval in *.
  fin_interval x. qbool.
  constructor; auto.
Qed.

Lemma fits_of_within lo hi l :
  (lo <= hi)%Q ->
  forallb (within (Fin lo) (Fin hi)) l = true -> separated l = true ->
  fits hi lo l.
Proof.
  intros Hlo Hw Hs. apply fits_intro; auto.
  - eapply forallb_impl; [| exact Hw].
    intros it. unfold within, proper, finite_interval.
    intros H. bdestr. fin_interval it. qbool. bsplit; qbool; auto; lra.
  - apply (chain_impl (fun _ => true) (fun a b => end_ a <? start b)); auto.
    + intros a b _ _. destruct (end_ a), (start b); simpl; try discriminate; auto.
      intros H. qbool. lra.
    + eapply forallb_impl; [| exact Hw]. reflexivity.
  - destruct l as [| x l]; [exact I |]. simpl in Hw. unfold within in Hw.
    bdestr. assumption.
Qed.

(** *** [sumIntervals] *)

Lemma sum_fold l : forall acc,
  forallb finite_interval l = true ->
  exists r,
    fold_left (fun acc it => acc + Num.max 0 (end_ it - start it)) l (Fin acc)
    = Fin r
    /\ (r == acc + total l)%Q.
Proof.
  induction l as [| it l IH]; intros acc Hf; simpl.
  - exists acc. split; [reflexivity | lra].
  - simpl in Hf. bdestr. unfold finite_interval in *. fin_interval it.
    unfold span. simpl. unfold Num.max. simpl.
    destruct (Num.Qlt_bool 0 (e - s)); simpl.
    + destruct (IH (acc + (e - s))%Q) as (r & Hr & Er); auto.
      exists r. split; [exact Hr | lra].
    + destruct (IH (acc + 0)%Q) as (r & Hr & Er); auto.
      exists r. split; [exact Hr | lra].
Qed.

Lemma sumIntervals_total l :
  forallb finite_interval l = true ->
  sumIntervals l = Fin (qv (sumIntervals l))
  /\ (qv (sumIntervals l) == total l)%Q.
Proof.
  intros Hf. destruct (sum_fold l 0 Hf) as (r & Hr & Er).
  unfold sumIntervals. change (Num.of_Z 0) with (Fin 0) in *.
  rewrite Hr. simpl. split; [reflexivity | lra].
Qed.

Lemma total_nonneg l : forallb finite_interval l = true -> (0 <= total l)%Q.
Proof.
  induction l as [| it l IH]; simpl; intros Hf; [lra |].
  bdestr. unfold finite_interval in *. fin_interval it.
  specialize (IH ltac:(assumption)).
  unfold span, Num.max. simpl. qcase; simpl; qbool; lra.
Qed.

(** The lengths of non-overlapping intervals inside [lo, hi] add up to at
    most [hi - lo]. *)
Lemma total_fits hi lo l : fits hi lo l -> (total l <= hi - lo)%Q.
Proof.
  induction 1 as [lo Hlo | lo s e l Hs He F IH]; simpl; [lra |].
  unfold span, Num.max. simpl. qcase; simpl; qbool; lra.
Qed.

(** *** [overlapSeconds] *)

Lemma overlap_loop_cons x a y b acc :
  overlap_loop (x :: a) (y :: b) acc =
  (if end_ x <=? end_ y then overlap_loop a (y :: b) else overlap_loop (x :: a) b)
    (if Num.min (end_ x) (end_ y) >? Num.max (start x) (start y)
     then acc + (Num.min (end_ x) (end_ y) - Num.max (start x) (start y))
     else acc).
Proof. simpl. destruct (end_ x <=? end_ y); reflexivity. Qed.

Lemma overlap_loop_nil_l b acc : overlap_loop [] b acc = acc.
Proof. destruct b; reflexivity. Qed.

Lemma overlap_loop_nil_r a acc : overlap_loop a [] acc = acc.
Proof. destruct a; reflexivity. Qed.

(** One step of the sweep adds the pair's overlap to the accumulator. *)
Lemma overlap_acc_step (sx ex sy ey acc : Q) :
  let x := mkInterval (Fin sx) (Fin ex) in
  let y := mkInterval (Fin sy) (Fin ey) in
  exists acc',
    (if Num.min (end_ x) (end_ y) >? Num.max (start x) (start y)
     then Fin acc + (Num.min (end_ x) (end_ y) - Num.max (start x) (start y))
     else Fin acc) = Fin acc'
    /\ (acc' == acc + ov1 x y)%Q.
Proof.
  intros x y. unfold ov1, overlap_term. subst x y. cbn [start end_].
  unfold Num.min, Num.max, Num.gt, Num.lt.
  destruct (Num.Qlt_bool ey ex), (Num.Qlt_bool sx sy);
    match goal with
    | |- context [Num.Qlt_bool ?a ?b] => destruct (Num.Qlt_bool a b)
    end; simpl; eexists; (split; [reflexivity | lra]).
Qed.

Lemma ovq_acc a : forall b,
  forallb finite_interval a = true -> forallb finite_interval b = true ->
  forall acc,
    exists r, overlap_loop a b (Fin acc) = Fin r /\ (r == acc + ovq a b 0)%Q.
Proof.
  induction a as [| x a IHa]; intros b Ha Hb.
  { intros acc. exists acc. unfold ovq. rewrite !overlap_loop_nil_l.
    split; [reflexivity | simpl; lra]. }
  induction b as [| y b IHb].
  { intros acc. exists acc. unfold ovq. rewrite !overlap_loop_nil_r.
    split; [reflexivity | simpl; lra]. }
  intros acc.
  pose proof Ha as Ha'. pose proof Hb as Hb'.
  cbn [forallb] in Ha', Hb'.
  apply andb_true_iff in Ha' as [Hx Hfa]. apply andb_true_iff in Hb' as [Hy Hfb].
  specialize (IHa (y :: b) Hfa Hb). specialize (IHb Hfb).
  unfold ovq. rewrite !overlap_loop_cons.
  unfold finite_interval in Hx, Hy.
  destruct x as [[sx | | |] [ex | | |]]; try discriminate.
  destruct y as [[sy | | |] [ey | | |]]; try discriminate.
  change (Num.of_Z 0) with (Fin 0).
  destruct (overlap_acc_step sx ex sy ey acc) as (acc1 & -> & E1).
  destruct (overlap_acc_step sx ex sy ey 0) as (acc0 & -> & E0).
  destruct (end_ _ <=? end_ _).
  - destruct (IHa acc1) as (r1 & Hr1 & Er1).
    destruct (IHa acc0) as (r0 & Hr0 & Er0).
    exists r1. rewrite Hr1, Hr0. split; [reflexivity | simpl; lra].
  - destruct (IHb acc1) as (r1 & Hr1 & Er1).
    destruct (IHb acc0) as (r0 & Hr0 & Er0).
    exists r1. rewrite Hr1, Hr0. split; [reflexivity | simpl; lra].
Qed.

Lemma overlapSeconds_finite a b :
  forallb finite_interval a = true -> forallb finite_interval b = true ->
  overlapSeconds a b = Fin (ovq a b 0).
Proof.
  intros Ha Hb. destruct (ovq_acc a b Ha Hb 0) as (r & Hr & _).
  unfold overlapSeconds, ovq. change (Num.of_Z 0) with (Fin 0).
  rewrite Hr. reflexivity.
Qed.

(** The sweep, one pair at a time. *)
Lemma ovq_cons (sx ex sy ey : Q) a b :
  let x := mkInterval (Fin sx) (Fin ex) in
  let y := mkInterval (Fin sy) (Fin ey) in
  forallb finite_interval a = true -> forallb finite_interval b = true ->
  (ovq (x :: a) (y :: b) 0 ==
   ov1 x y + (if Qle_bool ex ey then ovq a (y :: b) 0 else ovq (x :: a) b 0))%Q.
Proof.
  intros x y Ha Hb. unfold ovq at 1. rewrite overlap_loop_cons.
  destruct (overlap_acc_step sx ex sy ey 0) as (acc0 & E & E0).
  fold x y in E, E0. rewrite E.
  change (end_ x <=? end_ y) with (Qle_bool ex ey).
  destruct (Qle_bool ex ey).
  - destruct (ovq_acc a (y :: b) Ha) with (acc := acc0) as (r & Hr & Er).
    { simpl. exact Hb. }
    rewrite Hr. simpl. lra.
  - destruct (ovq_acc (x :: a) b) with (acc := acc0) as (r & Hr & Er); auto.
    rewrite Hr. simpl. lra.
Qed.

(** Unfold the overlap of two finite intervals and split on the
    comparisons it makes. *)
Ltac ov1_cases :=
  unfold ov1, overlap_term, Num.min, Num.max, Num.gt, Num.lt;
  cbn [start end_ qv];
  repeat (match goal with
          | |- context [Num.Qlt_bool ?a ?b] =>
              let E := fresh "E" in destruct (Num.Qlt_bool a b) eqn:E
          end; cbn [qv Num.sub Num.lt]);
  change (qv (Num.of_Z 0)) with 0%Q;
  qbool.

Lemma ov1_sym (sx ex sy ey : Q) :
  (ov1 (mkInterval (Fin sx) (Fin ex)) (mkInterval (Fin sy) (Fin ey))
   == ov1 (mkInterval (Fin sy) (Fin ey)) (mkInterval (Fin sx) (Fin ex)))%Q.
Proof. ov1_cases; lra. Qed.

(** An interval ending at or before [lo] misses every interval of a list
    that fits after [lo]. *)
Lemma col_zero hi lo b : fits hi lo b ->
  forall sx ex, (ex <= lo)%Q -> (col (mkInterval (Fin sx) (Fin ex)) b == 0)%Q.
Proof.
  induction 1 as [lo Hlo | lo s e b Hs He F IH]; intros sx ex Hex; simpl; [lra |].
  rewrite (IH sx ex) by lra.
  ov1_cases; lra.
Qed.

Lemma dsum_cons_zero hi lo a : fits hi lo a ->
  forall sy ey b, (ey <= lo)%Q ->
  (dsum a (mkInterval (Fin sy) (Fin ey) :: b) == dsum a b)%Q.
Proof.
  induction 1 as [lo Hlo | lo s e a Hs He F IH]; intros sy ey b Hey; simpl; [lra |].
  rewrite (IH sy ey b) by lra.
  assert (E : (ov1 (mkInterval (Fin s) (Fin e)) (mkInterval (Fin sy) (Fin ey)) == 0)%Q)
    by (ov1_cases; lra).
  rewrite E. lra.
Qed.

(** On non-overlapping ascending lists the sweep computes the pairwise
    intersection length. *)
Lemma ovq_dsum hi lo a : fits hi lo a ->
  forall hi' lo' b, fits hi' lo' b -> (ovq a b 0 == dsum a b)%Q.
Proof.
  induction 1 as [lo Hlo | lo sx ex a Hsx Hex Fa IHa].
  { intros hi' lo' b _. unfold ovq. rewrite overlap_loop_nil_l. simpl. lra. }
  induction 1 as [lo' Hlo' | lo' sy ey b Hsy Hey Fb IHb].
  { unfold ovq. rewrite overlap_loop_nil_r. simpl.
    clear. induction a as [| x a IH]; simpl; lra. }
  rewrite ovq_cons by eauto using fits_finite.
  destruct (Qle_bool ex ey) eqn:E; qbool.
  - rewrite (IHa hi' lo' (mkInterval (Fin sy) (Fin ey) :: b))
      by (constructor; assumption).
    simpl. rewrite (col_zero _ _ _ Fb sx ex) by lra. lra.
  - rewrite IHb. simpl.
    rewrite (dsum_cons_zero _ _ _ Fa sy ey b) by lra. lra.
Qed.

Lemma dsum_nil_r a : (dsum a [] == 0)%Q.
Proof. induction a as [| x a IH]; simpl; lra. Qed.

Lemma dsum_cons_r a : forall sy ey b,
  forallb finite_interval a = true ->
  (dsum a (mkInterval (Fin sy) (Fin ey) :: b)
   == col (mkInterval (Fin sy) (Fin ey)) a + dsum a b)%Q.
Proof.
  induction a as [| x a IH]; intros sy ey b Ha; simpl; [lra |].
  simpl in Ha. bdestr. rewrite (IH sy ey b) by assumption.
  unfold finite_interval in *.
  destruct x as [[sx | | |] [ex | | |]]; try discriminate.
  rewrite (ov1_sym sx ex sy ey). lra.
Qed.

Lemma dsum_sym a : forall b,
  forallb finite_interval a = true -> forallb finite_interval b = true ->
  (dsum a b == dsum b a)%Q.
Proof.
  induction a as [| x a IH]; intros b Ha Hb; simpl.
  - rewrite dsum_nil_r. lra.
  - simpl in Ha. bdestr. rewrite (IH b) by assumption.
    unfold finite_interval in *.
    destruct x as [[sx | | |] [ex | | |]]; try discriminate.
    rewrite (dsum_cons_r b sx ex a) by assumption. lra.
Qed.

Lemma fits_of_nonoverlapping l :
  nonoverlapping l = true ->
  forall lo,
    match l with x :: _ => (Fin lo <=? start x) = true | [] => True end ->
    exists hi, fits hi lo l.
Proof.
  unfold nonoverlapping. induction l as [| x l IH]; intros H lo Hlo.
  - exists lo. constructor. lra.
  - apply andb_true_iff in H as [Hf Hc].
    pose proof (chain_tail _ _ _ Hc) as Hc'.
    assert (Hh : match l with
                 | y :: _ => (end_ x <=? start y) = true
                 | [] => True
                 end).
    { destruct l as [| y l]; [exact I |]. simpl in Hc. bdestr. assumption. }
    clear Hc. cbn [forallb] in Hf. apply andb_true_iff in Hf as [Hx Hf].
    apply andb_true_iff in Hx as [Hx Hse]. unfold finite_interval in Hx.
    destruct x as [[s | | |] [e | | |]]; try discriminate.
    cbn [start end_] in *.
    destruct (IH ltac:(rewrite Hf, Hc'; reflexivity) e Hh) as (hi & F).
    exists hi. simpl in Hlo, Hse. qbool. constructor; assumption.
Qed.

(** The merge of proper intervals is a non-overlapping ascending list. *)
Lemma mergeIntervals_nonoverlapping xs :
  forallb proper xs = true -> nonoverlapping (mergeIntervals xs) = true.
Proof.
  intros Hp.
  assert (Hf : forallb finite_interval xs = true)
    by (eapply forallb_impl; [| exact Hp]; apply proper_finite).
  pose proof (mergeIntervals_forallb _ xs proper_merge_closed Hp) as Hmp.
  pose proof (mergeIntervals_separated xs Hf) as Hs.
  unfold nonoverlapping. apply andb_true_intro. split.
  - eapply forallb_impl; [| exact Hmp].
    intros it. unfold proper, finite_interval. intros H. bdestr.
    fin_interval it. qbool. bsplit; qbool; auto; lra.
  - apply (chain_impl proper (fun a b => end_ a <? start b)); auto.
    intros a b Ha Hb. unfold proper, finite_interval in *.
    fin_interval a; fin_interval b. intros H. qbool. lra.
Qed.

(** C8. For every two non-overlapping ascending lists of finite intervals
    (merged sets in particular), [overlapSeconds a b] and
    [overlapSeconds b a] are the same number, although the sweep advances
    its first argument when two intervals end together. *)
Theorem C8_overlap_symmetric :
  forall a b,
    nonoverlapping a = true -> nonoverlapping b = true ->
    overlapSeconds a b === overlapSeconds b a.
Proof.
  intros a b Ha Hb.
  assert (Hfa : forallb finite_interval a = true).
  { unfold nonoverlapping in Ha. apply andb_true_iff in Ha as [Ha _].
    eapply forallb_impl; [| exact Ha]. intros it H. simpl in H. bdestr. assumption. }
  assert (Hfb : forallb finite_interval b = true).
  { unfold nonoverlapping in Hb. apply andb_true_iff in Hb as [Hb _].
    eapply forallb_impl; [| exact Hb]. intros it H. simpl in H. bdestr. assumption. }
  assert (Ga : exists hi lo, fits hi lo a).
  { destruct a as [| x a'] eqn:Ea.
    - exists 0%Q, 0%Q. constructor. lra.
    - rewrite <- Ea in *. destruct (fits_of_nonoverlapping a Ha (qv (start x))) as (hi & F).
      + rewrite Ea. rewrite Ea in Hfa. simpl in Hfa. bdestr.
        unfold finite_interval in *. fin_interval x. qbool. lra.
      + eauto. }
  assert (Gb : exists hi lo, fits hi lo b).
  { destruct b as [| y b'] eqn:Eb.
    - exists 0%Q, 0%Q. constructor. lra.
    - rewrite <- Eb in *. destruct (fits_of_nonoverlapping b Hb (qv (start y))) as (hi & F).
      + rewrite Eb. rewrite Eb in Hfb. simpl in Hfb. bdestr.
        unfold finite_interval in *. fin_interval y. qbool. lra.
      + eauto. }
  destruct Ga as (hia & loa & Fa). destruct Gb as (hib & lob & Fb).
  rewrite (overlapSeconds_finite a b Hfa Hfb), (overlapSeconds_finite b a Hfb Hfa).
  simpl.
  rewrite (ovq_dsum _ _ _ Fa _ _ _ Fb), (ovq_dsum _ _ _ Fb _ _ _ Fa).
  apply dsum_sym; assumption.
Qed.

Lemma C8_overlap_symmetric_witness :
  let a := [mkInterval 0 10; mkInterval 20 30] in
  let b := [mkInterval 5 10; mkInterval 10 25] in
  overlapSeconds a b = 10
  /\ overlapSeconds a b === overlapSeconds b a.
Proof.
  intros a b. split; [vm_compute; reflexivity |].
  apply (C8_overlap_symmetric a b); reflexivity.
Defined.

(** *** Inclusion and exclusion *)

(** Two non-overlapping lists inside [lo, hi] cover, overlap counted once,
    at most [hi - lo] seconds. *)
Lemma union_bound hi a : forall b lo lo' lo'',
  fits hi lo a -> fits hi lo' b -> (lo'' <= lo)%Q -> (lo'' <= lo')%Q ->
  (total a + total b - ovq a b 0 <= hi - lo'')%Q.
Proof.
  induction a as [| x a IHa]; intros b lo lo' lo'' Fa Fb H1 H2.
  { unfold ovq. rewrite overlap_loop_nil_l. simpl.
    pose proof (total_fits _ _ _ Fb). lra. }
  induction b as [| y b IHb] in lo, lo', lo'', Fa, Fb, H1, H2 |- *.
  { unfold ovq. rewrite overlap_loop_nil_r.
    pose proof (total_fits _ _ _ Fa). simpl in *. lra. }
  inversion Fa as [| ? sx ex ? Hsx Hex Fa']; subst.
  inversion Fb as [| ? sy ey ? Hsy Hey Fb']; subst.
  rewrite ovq_cons by eauto using fits_finite.
  assert (Fx : fits hi sx (mkInterval (Fin sx) (Fin ex) :: a))
    by (constructor; auto; lra).
  assert (Fy : fits hi sy (mkInterval (Fin sy) (Fin ey) :: b))
    by (constructor; auto; lra).
  cbn [total]. unfold span. cbn [start end_ Num.sub].
  destruct (Qle_bool ex ey) eqn:E; qbool.
  - destruct (Qlt_le_dec sy ex) as [L | L].
    + pose proof (IHa _ ex sy sy Fa' Fy ltac:(lra) ltac:(lra)) as IH.
      cbn [total] in IH. unfold span in IH. cbn [start end_ Num.sub] in IH.
      revert IH. ov1_cases; intros; lra.
    + pose proof (IHa _ ex sy ex Fa' Fy ltac:(lra) ltac:(lra)) as IH.
      cbn [total] in IH. unfold span in IH. cbn [start end_ Num.sub] in IH.
      revert IH. ov1_cases; intros; lra.
  - destruct (Qlt_le_dec sx ey) as [L | L].
    + pose proof (IHb sx ey sx Fx Fb' ltac:(lra) ltac:(lra)) as IH.
      cbn [total] in IH. unfold span in IH. cbn [start end_ Num.sub] in IH.
      revert IH. ov1_cases; intros; lra.
    + pose proof (IHb sx ey ey Fx Fb' ltac:(lra) ltac:(lra)) as IH.
      cbn [total] in IH. unfold span in IH. cbn [start end_ Num.sub] in IH.
      revert IH. ov1_cases; intros; lra.
Qed.

(** ** Uptime conservation *)

Lemma conserved_core (t d sU ov : Q) :
  (0 <= t)%Q -> (0 <= d)%Q -> (d <= t)%Q -> (sU - ov <= t - d)%Q ->
  let total_sec := Fin t in
  let downtime_sec := Fin d in
  let unknown_sec := Num.max 0 (Fin sU - Fin ov) in
  let unavailable_sec := Num.min total_sec (downtime_sec + unknown_sec) in
  let uptime_sec := Num.max 0 (total_sec - unavailable_sec) in
  let uptime_pct :=
    if Num.eqb total_sec 0 then 0 else (uptime_sec / total_sec) * 100 in
  conserved total_sec downtime_sec unknown_sec uptime_sec uptime_pct.
Proof.
  intros Ht Hd Hdt Hu. cbv zeta. unfold conserved.
  change (Num.of_Z 0) with (Fin 0). change (Num.of_Z 100) with (Fin 100).
  assert (Eu : exists u, Num.max (Fin 0) (Fin sU - Fin ov) = Fin u
                         /\ (0 <= u)%Q /\ (d + u <= t)%Q).
  { unfold Num.max. simpl. destruct (Num.Qlt_bool 0 (sU - ov)) eqn:E; qbool;
      eexists; (split; [reflexivity | split; lra]). }
  destruct Eu as (u & -> & Hu0 & Hut).
  assert (Ea : exists v, Num.min (Fin t) (Fin d + Fin u) = Fin v
                         /\ (v == d + u)%Q).
  { unfold Num.min. simpl. destruct (Num.Qlt_bool (d + u) t) eqn:E; qbool;
      eexists; (split; [reflexivity | lra]). }
  destruct Ea as (v & -> & Hv).
  assert (Ep : exists p, Num.max (Fin 0) (Fin t - Fin v) = Fin p
                         /\ (p == t - v)%Q).
  { unfold Num.max. simpl. destruct (Num.Qlt_bool 0 (t - v)) eqn:E; qbool;
      eexists; (split; [reflexivity | lra]). }
  destruct Ep as (p & -> & Hp).
  assert (Epct : exists c, (if Num.eqb (Fin t) (Fin 0) then Fin 0
                            else (Fin p / Fin t) * Fin 100) = Fin c
                           /\ (0 <= c)%Q /\ (c <= 100)%Q).
  { simpl. destruct (Qeq_bool t 0) eqn:E.
    - exists 0%Q. split; [reflexivity | split; lra].
    - assert (Hne : ~ (t == 0)%Q).
      { intros H. apply Qeq_bool_iff in H. congruence. }
      assert (Hpos : (0 < t)%Q) by (apply Qle_lteq in Ht as [? | ?]; [assumption | lra ]).
      exists (p / t * 100)%Q. split; [reflexivity |].
      assert (H0 : (0 <= p / t)%Q) by (apply Qle_shift_div_l; lra).
      assert (H1 : (p / t <= 1)%Q) by (apply Qle_shift_div_r; lra).
      split; lra. }
  destruct Epct as (c & -> & Hc0 & Hc1).
  simpl. repeat split; qbool; try lra.
Qed.

(** Every clamped outage that survives the filter is a proper interval
    inside the range, whatever the row holds. *)
Lemma clamp_outage_within (lo hi : Q) r :
  let it := clamp_outage (Fin lo) (Fin hi) r in
  (end_ it >? start it) = true -> within (Fin lo) (Fin hi) it = true.
Proof.
  destruct r as [[s | | |] [[e | | |] |]];
    unfold clamp_outage, within, proper, finite_interval, Num.gt, Num.max, Num.min;
    cbn [started_at ended_at start end_ Num.lt];
    repeat (match goal with
            | |- context [Num.Qlt_bool ?a ?b] =>
                let E := fresh "E" in destruct (Num.Qlt_bool a b) eqn:E
            end; cbn [start end_ Num.lt Num.le isFinite andb]);
    try discriminate; intros H; qbool; bsplit; qbool; lra.
Qed.

Lemma downtime_candidates_within (lo hi : Q) rows :
  forallb (within (Fin lo) (Fin hi))
    (filter (fun it => end_ it >? start it)
       (map (clamp_outage (Fin lo) (Fin hi)) rows)) = true.
Proof.
  induction rows as [| r rows IH]; [reflexivity |].
  cbn [map filter].
  destruct (end_ (clamp_outage (Fin lo) (Fin hi) r)
            >? start (clamp_outage (Fin lo) (Fin hi) r)) eqn:E; [| exact IH].
  cbn [forallb]. rewrite IH, (clamp_outage_within lo hi r E). reflexivity.
Qed.

Lemma within_nonempty_range (lo hi : Q) it :
  within (Fin lo) (Fin hi) it = true -> (lo < hi)%Q.
Proof.
  unfold within, proper, finite_interval. intros H. bdestr.
  fin_interval it. qbool. lra.
Qed.

Lemma within_empty_range (lo hi : Q) l :
  (hi <= lo)%Q -> forallb (within (Fin lo) (Fin hi)) l = true -> l = [].
Proof.
  intros Hle. destruct l as [| it l]; [reflexivity |]. simpl. intros H. bdestr.
  pose proof (within_nonempty_range lo hi it ltac:(assumption)). lra.
Qed.

(** C1. Every uptime response satisfies
    [unknown_sec + downtime_sec + uptime_sec == total_sec], with the three
    summands non-negative, [0 <= uptime_sec <= total_sec], [uptime_pct] in
    [[0, 100]] and
    [uptime_sec + min(total_sec, downtime_sec + unknown_sec) == total_sec];
    and a response is produced for every monitor row.  The monitor's
    [created_at] and the check times are finite numbers; the range, the
    interval length, the outage rows and the order of the checks are
    arbitrary. *)
Theorem C1_uptime_conservation :
  forall date_now range_query monitor outageRows checkRows,
    isFinite (UptimeMonitorRow.created_at monitor) = true ->
    forallb finite_check_row
      (match checkRows with Some rs => rs | None => [] end) = true ->
    exists resp,
      uptime_handler date_now range_query (Some monitor) outageRows checkRows
      = inr resp
      /\ UptimeResponse.unknown_sec resp + UptimeResponse.downtime_sec resp
         + UptimeResponse.uptime_sec resp === UptimeResponse.total_sec resp
      /\ (0 <=? UptimeResponse.unknown_sec resp) = true
      /\ (0 <=? UptimeResponse.downtime_sec resp) = true
      /\ (0 <=? UptimeResponse.uptime_sec resp) = true
      /\ (UptimeResponse.uptime_sec resp <=? UptimeResponse.total_sec resp) = true
      /\ (0 <=? UptimeResponse.uptime_pct resp) = true
      /\ (UptimeResponse.uptime_pct resp <=? 100) = true
      /\ UptimeResponse.uptime_sec resp
         + Num.min (UptimeResponse.total_sec resp)
             (UptimeResponse.downtime_sec resp + UptimeResponse.unknown_sec resp)
         === UptimeResponse.total_sec resp.
Proof.
  intros date_now range_query monitor outageRows checkRows Hcreated Hchecks.
  eexists. split; [reflexivity |].
  cbn [UptimeResponse.unknown_sec UptimeResponse.downtime_sec
       UptimeResponse.uptime_sec UptimeResponse.total_sec
       UptimeResponse.uptime_pct].
  set (rangeEnd := Num.floor (now_of date_now / 60) * 60).
  set (rangeStart := Num.max (rangeEnd - rangeToSeconds _) _).
  set (D := mergeIntervals _).
  set (U := buildUnknownIntervals _ _ _ _).
  assert (Hre : exists hi, rangeEnd = Fin hi) by (eexists; reflexivity).
  destruct Hre as (hi & Hre).
  assert (Hrs : exists lo, rangeStart = Fin lo).
  { subst rangeStart. rewrite Hre.
    destruct (UptimeMonitorRow.created_at monitor) as [c | | |]; try discriminate.
    destruct range_query as [[| |] |]; cbn [rangeToSeconds Num.mul Num.sub Num.of_Z];
      unfold Num.max, Num.lt;
      match goal with
      | |- context [Num.Qlt_bool ?a ?b] => destruct (Num.Qlt_bool a b)
      end; eexists; reflexivity. }
  destruct Hrs as (lo & Hrs).
  assert (HD : forallb (within (Fin lo) (Fin hi)) D = true /\ separated D = true).
  { subst D. rewrite Hre, Hrs.
    pose proof (downtime_candidates_within lo hi
                  (match outageRows with Some rs => rs | None => [] end)) as Hw.
    split.
    - apply mergeIntervals_forallb; auto using within_merge_closed.
    - apply mergeIntervals_separated.
      eapply forallb_impl; [| exact Hw]. apply within_finite. }
  assert (HU : unknown_ok (Fin lo) (Fin hi) U).
  { subst U. rewrite Hre, Hrs. apply buildUnknownIntervals_ok.
    rewrite forallb_map_compose. exact Hchecks. }
  rewrite Hre, Hrs. clearbody D U. clear Hre Hrs rangeEnd rangeStart.
  destruct HD as [HDw HDs]. destruct HU as [HUw HUs].
  assert (HDf : forallb finite_interval D = true)
    by (eapply forallb_impl; [| exact HDw]; apply within_finite).
  assert (HUf : forallb finite_interval U = true)
    by (eapply forallb_impl; [| exact HUw]; apply within_finite).
  destruct (sumIntervals_total D HDf) as [ED EDq].
  destruct (sumIntervals_total U HUf) as [EU EUq].
  rewrite ED, EU, (overlapSeconds_finite U D HUf HDf).
  assert (Et : exists t,
             Num.max 0 (Fin hi - Fin lo) = Fin t /\ (0 <= t)%Q
             /\ (qv (sumIntervals D) <= t)%Q
             /\ (qv (sumIntervals U) - ovq U D 0 <= t - qv (sumIntervals D))%Q).
  { unfold Num.max. cbn [Num.sub Num.of_Z Num.lt].
    destruct (Num.Qlt_bool 0 (hi - lo)) eqn:E; qbool.
    - exists (hi - lo)%Q. split; [reflexivity |].
      assert (Hlo : (lo <= hi)%Q) by (simpl in E; lra).
      pose proof (fits_of_within lo hi D Hlo HDw HDs) as FD.
      pose proof (fits_of_within lo hi U Hlo HUw HUs) as FU.
      pose proof (total_fits _ _ _ FD).
      pose proof (union_bound hi U D lo lo lo FU FD ltac:(lra) ltac:(lra)).
      simpl in E. repeat split; lra.
    - exists 0%Q. split; [reflexivity |].
      assert (Hlo : (hi <= lo)%Q) by (simpl in E; lra).
      rewrite (within_empty_range lo hi D Hlo HDw).
      rewrite (within_empty_range lo hi U Hlo HUw).
      vm_compute. repeat split; discriminate. }
  destruct Et as (t & -> & Ht0 & HDt & HUt).
  apply (conserved_core t (qv (sumIntervals D)) (qv (sumIntervals U)) (ovq U D 0));
    auto.
  rewrite EDq. apply total_nonneg. exact HDf.
Qed.

Lemma C1_uptime_conservation_witness :
  exists resp,
    uptime_handler 4620000 None (Some monitor_S1)
      (Some [mkOutageRow 2000 (Some 3000)])
      (Some [CheckRow.mk 1000 "up"; CheckRow.mk 1060 "up"])
    = inr resp
    /\ UptimeResponse.total_sec resp = 3620
    /\ UptimeResponse.downtime_sec resp = 1000
    /\ UptimeResponse.unknown_sec resp = 2500
    /\ UptimeResponse.uptime_sec resp = 120
    /\ UptimeResponse.unknown_sec resp + UptimeResponse.downtime_sec resp
       + UptimeResponse.uptime_sec resp === UptimeResponse.total_sec resp.
Proof.
  destruct (C1_uptime_conservation 4620000 None monitor_S1
              (Some [mkOutageRow 2000 (Some 3000)])
              (Some [CheckRow.mk 1000 "up"; CheckRow.mk 1060 "up"])
              eq_refl eq_refl)
    as (resp & Hr & Hsum & _).
  exists resp. split; [exact Hr |].
  vm_compute in Hr. injection Hr as <-.
  repeat split; first [exact Hsum | reflexivity].
Defined.

(** ** Invalid intervals *)

(** C4, as stated, fails: [mergeIntervals] and [overlapSeconds] filter
    nothing, and [sumIntervals] only clamps finite lengths.  The inverted
    interval [5, 3) survives a merge; in [overlapSeconds] the inverted
    [100, 50) hides the 3 seconds that [5, 8) shares with [0, 10); an
    interval from [-Infinity] to [Infinity] sums to [Infinity]. *)
Lemma C4_counterexample :
  invalid_interval (mkInterval 5 3)
  /\ mergeIntervals [mkInterval 5 3; mkInterval 10 20]
     = [mkInterval 5 3; mkInterval 10 20]
  /\ mergeIntervals [mkInterval 10 20] = [mkInterval 10 20]
  /\ mergeIntervals [mkInterval 5 3; mkInterval 10 20]
     <> mergeIntervals [mkInterval 10 20]
  /\ invalid_interval (mkInterval 100 50)
  /\ overlapSeconds [mkInterval 0 10; mkInterval 20 30]
       [mkInterval 100 50; mkInterval 5 8] = 0
  /\ overlapSeconds [mkInterval 0 10; mkInterval 20 30] [mkInterval 5 8] = 3
  /\ invalid_interval (mkInterval NInf PInf)
  /\ sumIntervals [mkInterval NInf PInf] = PInf.
Proof.
  repeat split; try (vm_compute; reflexivity);
    try (right; right; vm_compute; reflexivity);
    try (left; reflexivity).
  vm_compute. discriminate.
Qed.

Lemma total_app xs ys : (total (xs ++ ys) == total xs + total ys)%Q.
Proof. induction xs as [| x xs IH]; simpl; lra. Qed.

(** A proper interval is not invalid. *)
Lemma proper_not_invalid it : proper it = true -> ~ invalid_interval it.
Proof.
  unfold proper, finite_interval, invalid_interval. intros H Hinv. bdestr.
  destruct Hinv as [Hi | [Hi | Hi]]; try congruence.
  fin_interval it. qbool. lra.
Qed.

(** The start of the range of an uptime response is never [-Infinity]. *)
Lemma range_start_not_NInf (x : Q) created_at :
  Num.max (Fin x) created_at <> NInf.
Proof.
  destruct created_at as [c | | |]; unfold Num.max; cbn [Num.lt];
    try discriminate.
  destruct (Num.Qlt_bool x c); discriminate.
Qed.

(** A clamped outage that passes the filter of the uptime handler is not
    invalid, whatever the row and the start of the range hold. *)
Lemma clamp_outage_kept_valid rangeStart (hi : Q) r :
  rangeStart <> NInf ->
  let it := clamp_outage rangeStart (Fin hi) r in
  (end_ it >? start it) = true -> ~ invalid_interval it.
Proof.
  intros Hrs. destruct rangeStart as [lo | | |]; try congruence.
  - cbv zeta. intros H. apply proper_not_invalid.
    apply (within_proper (Fin lo) (Fin hi)).
    apply clamp_outage_within. exact H.
  - cbv zeta. intros H. exfalso. revert H.
    destruct r as [[s | | |] [[e | | |] |]];
      unfold clamp_outage, Num.gt, Num.max, Num.min;
      cbn [started_at ended_at start end_ Num.lt];
      repeat (match goal with
              | |- context [Num.Qlt_bool ?a ?b] => destruct (Num.Qlt_bool a b)
              end; cbn [start end_ Num.lt]);
      discriminate.
  - cbv zeta. intros H. exfalso. revert H.
    destruct r as [[s | | |] [[e | | |] |]];
      unfold clamp_outage, Num.gt, Num.max, Num.min;
      cbn [started_at ended_at start end_ Num.lt];
      repeat (match goal with
              | |- context [Num.Qlt_bool ?a ?b] => destruct (Num.Qlt_bool a b)
              end; cbn [start end_ Num.lt]);
      discriminate.
Qed.

(** C4 (amended). An invalid interval is rejected by [ensureInterval], so
    [addUnknown] leaves the unknown set as it is.  In the uptime handler an
    outage row whose clamp to the range of the response is invalid is
    dropped by the filter before the merge: [downtime_sec] is the sum of
    the merge of the clamps of the other rows that pass the filter, none of
    which is invalid, and the response is the one of the outage rows
    without that row.  [sumIntervals] counts a finite interval with
    [end <= start] as zero. *)
Theorem C4_invalid_intervals_dropped :
  forall it,
    invalid_interval it ->
    ensureInterval it = None
    /\ (forall unknown, addUnknown unknown (start it) (end_ it) = unknown)
    /\ (forall date_now range_query monitor checkRows pre r post,
          exists resp,
            uptime_handler date_now range_query (Some monitor)
              (Some (pre ++ r :: post)) checkRows = inr resp
            /\ (clamp_outage (UptimeResponse.range_start_at resp)
                  (UptimeResponse.range_end_at resp) r = it ->
                let kept :=
                  filter (fun x => end_ x >? start x)
                    (map (clamp_outage (UptimeResponse.range_start_at resp)
                            (UptimeResponse.range_end_at resp))
                       (pre ++ post)) in
                UptimeResponse.downtime_sec resp
                = sumIntervals (mergeIntervals kept)
                /\ (forall x, In x kept -> ~ invalid_interval x)
                /\ ~ In it kept
                /\ uptime_handler date_now range_query (Some monitor)
                     (Some (pre ++ post)) checkRows = inr resp))
    /\ ((end_ it <=? start it) = true -> finite_interval it = true ->
        Num.max 0 (end_ it - start it) = 0
        /\ forall xs ys,
             forallb finite_interval xs = true ->
             forallb finite_interval ys = true ->
             sumIntervals (xs ++ it :: ys) === sumIntervals (xs ++ ys)).
Proof.
  intros it Hinv.
  assert (He : ensureInterval it = None).
  { unfold ensureInterval. destruct Hinv as [H | [H | H]]; rewrite H; simpl;
      try reflexivity.
    - rewrite orb_true_r. reflexivity.
    - destruct (negb (isFinite (start it)) || negb (isFinite (end_ it)));
        reflexivity. }
  split; [exact He |]. split; [| split].
  - intros unknown. unfold addUnknown. rewrite finite_interval_eta, He.
    reflexivity.
  - intros date_now range_query monitor checkRows pre r post.
    eexists. split; [reflexivity |].
    cbn [UptimeResponse.range_start_at UptimeResponse.range_end_at
         UptimeResponse.downtime_sec].
    set (rangeEnd := Num.floor (now_of date_now / 60) * 60).
    set (rangeStart := Num.max (rangeEnd - rangeToSeconds _) _).
    assert (Hre : exists hi, rangeEnd = Fin hi) by (eexists; reflexivity).
    destruct Hre as (hi & Hre).
    assert (Hrs : rangeStart <> NInf).
    { subst rangeStart. rewrite Hre.
      destruct range_query as [[| |] |];
        cbn [rangeToSeconds Num.mul Num.sub Num.of_Z];
        apply range_start_not_NInf. }
    assert (Hvalid : forall rows x,
              In x (filter (fun x => end_ x >? start x)
                      (map (clamp_outage rangeStart rangeEnd) rows)) ->
              ~ invalid_interval x).
    { intros rows x Hx. apply filter_In in Hx as [Hx Hkeep].
      apply in_map_iff in Hx as (r' & <- & _). rewrite Hre in Hkeep |- *.
      apply (clamp_outage_kept_valid rangeStart hi r' Hrs Hkeep). }
    intros Hclamp.
    assert (Hdrop : (end_ (clamp_outage rangeStart rangeEnd r)
                     >? start (clamp_outage rangeStart rangeEnd r)) = false).
    { destruct (end_ (clamp_outage rangeStart rangeEnd r)
                >? start (clamp_outage rangeStart rangeEnd r)) eqn:E;
        [| reflexivity].
      exfalso. rewrite Hre in E, Hclamp.
      apply (clamp_outage_kept_valid rangeStart hi r Hrs E).
      rewrite Hclamp. exact Hinv. }
    assert (Hsame : filter (fun x => end_ x >? start x)
                      (map (clamp_outage rangeStart rangeEnd) (pre ++ r :: post))
                    = filter (fun x => end_ x >? start x)
                        (map (clamp_outage rangeStart rangeEnd) (pre ++ post))).
    { rewrite !map_app, !filter_app. cbn [map filter]. rewrite Hdrop.
      reflexivity. }
    cbv zeta. rewrite Hsame.
    split; [reflexivity |]. split; [apply Hvalid |].
    split; [intros Hin; exact (Hvalid _ _ Hin Hinv) |].
    reflexivity.
  - intros Hle Hfin.
    assert (Hspan : Num.max 0 (end_ it - start it) = 0).
    { unfold finite_interval in Hfin. fin_interval it.
      unfold Num.max. simpl.
      destruct (Num.Qlt_bool 0 (e - s)) eqn:E; [| reflexivity]. qbool. lra. }
    split; [exact Hspan |].
    intros xs ys Hxs Hys.
    assert (H1 : forallb finite_interval (xs ++ it :: ys) = true).
    { rewrite forallb_app. simpl. rewrite Hxs, Hfin, Hys. reflexivity. }
    assert (H2 : forallb finite_interval (xs ++ ys) = true).
    { rewrite forallb_app, Hxs, Hys. reflexivity. }
    destruct (sumIntervals_total _ H1) as [E1 Q1].
    destruct (sumIntervals_total _ H2) as [E2 Q2].
    rewrite E1, E2. simpl. rewrite Q1, Q2, !total_app. simpl.
    unfold span. rewrite Hspan. simpl. lra.
Qed.

(** The monitor of scenario S1 at clock reading 4620 s, range
    [1000, 4620): the outage row [5000, 6000) is clamped to the invalid
    [5000, 4620) and dropped. *)
Lemma C4_invalid_intervals_dropped_witness :
  ensureInterval (mkInterval 5000 4620) = None
  /\ addUnknown [mkInterval 0 1] 5000 4620 = [mkInterval 0 1]
  /\ (exists resp,
        uptime_handler 4620000 None (Some monitor_S1)
          (Some [mkOutageRow 2000 (Some 3000); mkOutageRow 5000 (Some 6000)])
          (Some [CheckRow.mk 1000 "up"; CheckRow.mk 1060 "up"])
        = inr resp
        /\ uptime_handler 4620000 None (Some monitor_S1)
             (Some [mkOutageRow 2000 (Some 3000)])
             (Some [CheckRow.mk 1000 "up"; CheckRow.mk 1060 "up"])
           = inr resp
        /\ UptimeResponse.downtime_sec resp = 1000)
  /\ sumIntervals [mkInterval 0 10; mkInterval 5000 4620; mkInterval 20 30]
     === sumIntervals [mkInterval 0 10; mkInterval 20 30].
Proof.
  destruct (C4_invalid_intervals_dropped (mkInterval 5000 4620))
    as (He & Ha & Hh & Hs).
  { right; right. reflexivity. }
  split; [exact He |]. split; [apply (Ha [mkInterval 0 1]) |]. split.
  - destruct (Hh 4620000%Z None monitor_S1
                (Some [CheckRow.mk 1000 "up"; CheckRow.mk 1060 "up"])
                [mkOutageRow 2000 (Some 3000)] (mkOutageRow 5000 (Some 6000)) [])
      as (resp & Hr & Hdrop).
    exists resp. split; [exact Hr |].
    vm_compute in Hr. injection Hr as <-.
    destruct (Hdrop eq_refl) as (_ & _ & _ & Hsame).
    split; [exact Hsame | reflexivity].
  - destruct (Hs eq_refl eq_refl) as [_ Hsum].
    apply (Hsum [mkInterval 0 10] [mkInterval 20 30]); reflexivity.
Defined.

(** * Further properties *)

(** ** [mergeIntervals] keeps the covered instants and does not add length *)

Lemma sort_insert_covered x l t :
  covered (sort_insert by_start x l) t = covers x t || covered l t.
Proof.
  induction l as [| y l IH]; cbn [sort_insert]; [reflexivity |].
  destruct (by_start x y >? 0); [| reflexivity].
  unfold covered in *. cbn [existsb]. rewrite IH.
  destruct (covers x t), (covers y t); reflexivity.
Qed.

Lemma array_sort_covered l t :
  covered (array_sort by_start l) t = covered l t.
Proof.
  induction l as [| x l IH]; [reflexivity |].
  cbn [array_sort]. rewrite sort_insert_covered, IH. reflexivity.
Qed.

Lemma covered_app l l' t : covered (l ++ l') t = covered l t || covered l' t.
Proof. apply existsb_app. Qed.

(** Coalescing two intervals that are ascending by start and touch or
    overlap covers what the two cover. *)
Lemma covers_coalesce p c t :
  finite_interval p = true -> finite_interval c = true -> isFinite t = true ->
  (start p <=? start c) = true -> (start c <=? end_ p) = true ->
  covers (mkInterval (start p) (Num.max (end_ p) (end_ c))) t
  = covers p t || covers c t.
Proof.
  unfold finite_interval, covers. intros Hp Hc Ht.
  fin_interval p; fin_interval c. destruct t as [t | | |]; try discriminate.
  unfold Num.max. simpl. intros H1 H2.
  destruct (Num.Qlt_bool e e0) eqn:E; simpl;
    destruct (Qle_bool s t) eqn:E1, (Qle_bool s0 t) eqn:E2,
             (Num.Qlt_bool t e) eqn:E3, (Num.Qlt_bool t e0) eqn:E4;
    simpl; try reflexivity; qbool; lra.
Qed.

Lemma push_covered l p c t :
  finite_interval p = true -> finite_interval c = true -> isFinite t = true ->
  (start p <=? start c) = true ->
  covered (pushMergedInterval (l ++ [p]) c) t
  = covered (l ++ [p]) t || covers c t.
Proof.
  intros Hp Hc Ht Hpc. rewrite push_snoc, !covered_app. cbn [pushMergedInterval].
  destruct (start c <=? end_ p) eqn:E; cbn [covered existsb].
  - rewrite (covers_coalesce p c t Hp Hc Ht Hpc E), !orb_false_r, orb_assoc.
    reflexivity.
  - rewrite finite_interval_eta, !orb_false_r, orb_assoc. reflexivity.
Qed.

Lemma fold_push_covered t rest : forall pre p,
  isFinite t = true ->
  forallb finite_interval (pre ++ [p]) = true ->
  forallb finite_interval rest = true ->
  ascending (p :: rest) = true ->
  covered (fold_left pushMergedInterval rest (pre ++ [p])) t
  = covered (pre ++ [p]) t || covered rest t.
Proof.
  induction rest as [| c rest IH]; intros pre p Ht Hm Hr Hpr; cbn [fold_left].
  { cbn [covered existsb]. rewrite orb_false_r. reflexivity. }
  cbn [forallb] in Hr. apply andb_true_iff in Hr as [Hc Hr].
  pose proof Hm as Hm'. rewrite forallb_app in Hm'.
  apply andb_true_iff in Hm' as [Hpre Hp]. cbn [forallb] in Hp.
  rewrite andb_true_r in Hp.
  unfold ascending in Hpr. cbn [chain] in Hpr.
  apply andb_true_iff in Hpr as [Hpc Hcr]. fold ascending in Hcr.
  pose proof (push_covered pre p c t Hp Hc Ht Hpc) as Hstep.
  rewrite push_snoc in Hstep |- *. cbn [pushMergedInterval] in Hstep |- *.
  destruct (start c <=? end_ p) eqn:E.
  - rewrite IH; auto.
    + rewrite Hstep. cbn [covered existsb]. rewrite orb_assoc. reflexivity.
    + rewrite forallb_app, Hpre. cbn [forallb].
      rewrite (finite_merge_closed p c Hp Hc). reflexivity.
    + destruct rest as [| d rest]; [reflexivity |].
      unfold ascending in Hcr |- *. cbn [chain] in Hcr |- *.
      apply andb_true_iff in Hcr as [Hcd Hcr]. rewrite Hcr, andb_true_r.
      cbn [forallb] in Hr. apply andb_true_iff in Hr as [Hd _].
      unfold finite_interval in Hp, Hc, Hd.
      apply andb_true_iff in Hp as [Hp _]. apply andb_true_iff in Hc as [Hc _].
      apply andb_true_iff in Hd as [Hd _].
      apply (le_trans_fin _ (start c)); assumption.
  - rewrite finite_interval_eta in Hstep |- *.
    change (pre ++ [p; c]) with (pre ++ [p] ++ [c]) in Hstep |- *.
    rewrite app_assoc in Hstep |- *.
    rewrite IH; auto.
    + rewrite Hstep. cbn [covered existsb]. rewrite orb_assoc. reflexivity.
    + rewrite forallb_app, Hm. cbn [forallb]. rewrite Hc. reflexivity.
Qed.

(** X1. Merging keeps the covered instants: a finite instant lies in some
    interval of [mergeIntervals xs] exactly when it lies in some interval
    of [xs]. *)
Theorem X1_merge_covers_same_instants :
  forall xs t,
    forallb finite_interval xs = true -> isFinite t = true ->
    covered (mergeIntervals xs) t = covered xs t.
Proof.
  intros xs t Hf Ht. rewrite mergeIntervals_eq.
  rewrite <- (array_sort_covered xs t).
  pose proof (array_sort_forallb _ _ Hf) as Hs.
  pose proof (array_sort_ascending _ Hf) as Ha.
  destruct (array_sort by_start xs) as [| first rest]; [reflexivity |].
  cbn [forallb] in Hs. apply andb_true_iff in Hs as [Hfirst Hrest].
  rewrite fold_push_covered; auto.
  - unfold covered. cbn [existsb app]. rewrite orb_false_r. reflexivity.
  - cbn [forallb app]. rewrite Hfirst. reflexivity.
Qed.

Lemma X1_merge_covers_same_instants_witness :
  let xs := [mkInterval 5 9; mkInterval 1 3; mkInterval 2 6; mkInterval 8 4] in
  covered (mergeIntervals xs) 7 = true /\ covered xs 7 = true
  /\ covered (mergeIntervals xs) 9 = false.
Proof.
  intros xs.
  pose proof (X1_merge_covers_same_instants xs 7 eq_refl eq_refl) as H7.
  pose proof (X1_merge_covers_same_instants xs 9 eq_refl eq_refl) as H9.
  rewrite H7, H9. repeat split; reflexivity.
Defined.

Lemma total_sort_insert x l :
  (total (sort_insert by_start x l) == span x + total l)%Q.
Proof.
  induction l as [| y l IH]; cbn [sort_insert total]; [lra |].
  destruct (by_start x y >? 0); cbn [total]; [rewrite IH |]; lra.
Qed.

Lemma total_array_sort l : (total (array_sort by_start l) == total l)%Q.
Proof.
  induction l as [| x l IH]; cbn [array_sort total]; [lra |].
  rewrite total_sort_insert, IH. lra.
Qed.

Lemma span_nonneg it : finite_interval it = true -> (0 <= span it)%Q.
Proof.
  unfold finite_interval, span. intros H. fin_interval it.
  unfold Num.max. simpl. qcase; simpl; qbool; lra.
Qed.

(** Coalescing never adds length. *)
Lemma span_coalesce p c :
  finite_interval p = true -> finite_interval c = true ->
  (start p <=? start c) = true -> (start c <=? end_ p) = true ->
  (span (mkInterval (start p) (Num.max (end_ p) (end_ c))) <= span p + span c)%Q.
Proof.
  unfold finite_interval, span. intros Hp Hc.
  fin_interval p; fin_interval c. intros H1 H2. qbool.
  unfold Num.max, Num.lt. cbn [Num.sub qv].
  repeat (match goal with
          | |- context [Num.Qlt_bool ?a ?b] =>
              let E := fresh "E" in destruct (Num.Qlt_bool a b) eqn:E
          end; cbn [qv Num.sub Num.lt]);
    qbool; simpl; lra.
Qed.

Lemma fold_push_total rest : forall pre p,
  forallb finite_interval (pre ++ [p]) = true ->
  forallb finite_interval rest = true ->
  ascending (p :: rest) = true ->
  (total (fold_left pushMergedInterval rest (pre ++ [p]))
   <= total (pre ++ [p]) + total rest)%Q.
Proof.
  induction rest as [| c rest IH]; intros pre p Hm Hr Hpr; cbn [fold_left total].
  { lra. }
  cbn [forallb] in Hr. apply andb_true_iff in Hr as [Hc Hr].
  pose proof Hm as Hm'. rewrite forallb_app in Hm'.
  apply andb_true_iff in Hm' as [Hpre Hp]. cbn [forallb] in Hp.
  rewrite andb_true_r in Hp.
  unfold ascending in Hpr. cbn [chain] in Hpr.
  apply andb_true_iff in Hpr as [Hpc Hcr]. fold ascending in Hcr.
  rewrite push_snoc. cbn [pushMergedInterval].
  destruct (start c <=? end_ p) eqn:E.
  - pose proof (span_coalesce p c Hp Hc Hpc E) as Hspan.
    eapply Qle_trans; [apply IH |]; auto.
    + rewrite forallb_app, Hpre. cbn [forallb].
      rewrite (finite_merge_closed p c Hp Hc). reflexivity.
    + destruct rest as [| d rest]; [reflexivity |].
      unfold ascending in Hcr |- *. cbn [chain] in Hcr |- *.
      apply andb_true_iff in Hcr as [Hcd Hcr]. rewrite Hcr, andb_true_r.
      cbn [forallb] in Hr. apply andb_true_iff in Hr as [Hd _].
      unfold finite_interval in Hp, Hc, Hd.
      apply andb_true_iff in Hp as [Hp _]. apply andb_true_iff in Hc as [Hc _].
      apply andb_true_iff in Hd as [Hd _].
      apply (le_trans_fin _ (start c)); assumption.
    + rewrite !total_app. cbn [total]. lra.
  - rewrite finite_interval_eta.
    change (pre ++ [p; c]) with (pre ++ [p] ++ [c]). rewrite app_assoc.
    eapply Qle_trans; [apply IH |]; auto.
    + rewrite forallb_app, Hm. cbn [forallb]. rewrite Hc. reflexivity.
    + rewrite !total_app. cbn [total]. lra.
Qed.

(** X2. Merging never adds length: for intervals with finite end points,
    [sumIntervals (mergeIntervals xs) <= sumIntervals xs]. *)
Theorem X2_merge_sum_le :
  forall xs,
    forallb finite_interval xs = true ->
    (sumIntervals (mergeIntervals xs) <=? sumIntervals xs) = true.
Proof.
  intros xs Hf.
  pose proof (mergeIntervals_forallb _ xs finite_merge_closed Hf) as Hmf.
  destruct (sumIntervals_total _ Hf) as [E1 Q1].
  destruct (sumIntervals_total _ Hmf) as [E2 Q2].
  rewrite E1, E2. cbn [Num.le]. qbool. rewrite Q1, Q2.
  rewrite mergeIntervals_eq, <- (total_array_sort xs).
  pose proof (array_sort_forallb _ _ Hf) as Hs.
  pose proof (array_sort_ascending _ Hf) as Ha.
  destruct (array_sort by_start xs) as [| first rest]; [cbn [total]; lra |].
  cbn [forallb] in Hs. apply andb_true_iff in Hs as [Hfirst Hrest].
  eapply Qle_trans; [apply fold_push_total |]; auto.
  - cbn [forallb app]. rewrite Hfirst. reflexivity.
  - cbn [app total]. lra.
Qed.

Lemma X2_merge_sum_le_witness :
  let xs := [mkInterval 5 9; mkInterval 1 3; mkInterval 2 6] in
  sumIntervals (mergeIntervals xs) = 8 /\ sumIntervals xs = 10
  /\ (sumIntervals (mergeIntervals xs) <=? sumIntervals xs) = true.
Proof.
  intros xs. split; [vm_compute; reflexivity |].
  split; [vm_compute; reflexivity |].
  apply (X2_merge_sum_le xs). reflexivity.
Defined.

(** ** Bounds on [overlapSeconds] *)

(** Unfold lengths and overlaps of finite intervals and split on the
    comparisons they make. *)
Ltac span_cases :=
  unfold span, ov1, overlap_term, Num.min, Num.max, Num.gt;
  cbn [start end_ qv Num.sub Num.lt];
  repeat (match goal with
          | |- context [Num.Qlt_bool ?a ?b] =>
              let E := fresh "E" in destruct (Num.Qlt_bool a b) eqn:E
          end; cbn [qv Num.sub Num.lt]);
  change (qv (Num.of_Z 0)) with 0%Q;
  qbool.

Lemma fits_upper hi lo l : fits hi lo l -> (lo <= hi)%Q.
Proof. induction 1; lra. Qed.

Lemma nonoverlapping_fits l :
  nonoverlapping l = true ->
  forallb finite_interval l = true /\ exists hi lo, fits hi lo l.
Proof.
  intros H. split.
  - unfold nonoverlapping in H. apply andb_true_iff in H as [H _].
    eapply forallb_impl; [| exact H]. intros it Hit. simpl in Hit. bdestr.
    assumption.
  - destruct l as [| x l'] eqn:El.
    + exists 0%Q, 0%Q. constructor. lra.
    + rewrite <- El in *.
      destruct (fits_of_nonoverlapping l H (qv (start x))) as (hi & F); [| eauto].
      rewrite El. rewrite El in H. unfold nonoverlapping in H.
      cbn [forallb] in H. bdestr. unfold finite_interval in *.
      fin_interval x. qbool. lra.
Qed.

(** Within a non-overlapping list, what one interval shares with the
    list is at most what it shares with the hull of the list. *)
Lemma col_le_hull hi lo b : fits hi lo b ->
  forall sx ex,
    (col (mkInterval (Fin sx) (Fin ex)) b
     <= ov1 (mkInterval (Fin sx) (Fin ex)) (mkInterval (Fin lo) (Fin hi)))%Q.
Proof.
  induction 1 as [lo Hlo | lo s e b Hs He F IH]; intros sx ex; cbn [col].
  - ov1_cases; lra.
  - pose proof (fits_upper _ _ _ F) as Hhi.
    eapply Qle_trans; [apply Qplus_le_r, IH |].
    ov1_cases; lra.
Qed.

Lemma col_le_span hi lo b sx ex : fits hi lo b ->
  (0 <= col (mkInterval (Fin sx) (Fin ex)) b
   /\ col (mkInterval (Fin sx) (Fin ex)) b <= span (mkInterval (Fin sx) (Fin ex)))%Q.
Proof.
  intros F. split.
  - clear F. induction b as [| y b IH]; cbn [col]; [lra |].
    assert (0 <= ov1 (mkInterval (Fin sx) (Fin ex)) y)%Q; [| lra].
    destruct y as [[sy | | |] [ey | | |]];
      unfold ov1, overlap_term, Num.min, Num.max, Num.gt, Num.lt;
      cbn [start end_ qv Num.sub Num.add Num.neg];
      repeat (match goal with
              | |- context [Num.Qlt_bool ?a ?b] =>
                  let E := fresh "E" in destruct (Num.Qlt_bool a b) eqn:E
              end; cbn [qv Num.sub Num.lt Num.add Num.neg]);
      change (qv (Num.of_Z 0)) with 0%Q; qbool; simpl; lra.
  - eapply Qle_trans; [apply (col_le_hull _ _ _ F) |].
    span_cases; simpl; lra.
Qed.

Lemma dsum_bounds hi lo b a : fits hi lo b ->
  forallb finite_interval a = true ->
  (0 <= dsum a b /\ dsum a b <= total a)%Q.
Proof.
  intros F. induction a as [| x a IH]; cbn [dsum total forallb]; intros Ha.
  - lra.
  - apply andb_true_iff in Ha as [Hx Ha]. specialize (IH Ha).
    unfold finite_interval in Hx.
    destruct x as [[sx | | |] [ex | | |]]; try discriminate.
    pose proof (col_le_span hi lo b sx ex F). lra.
Qed.

(** X3. For non-overlapping ascending lists, [overlapSeconds a b] is
    non-negative and at most [sumIntervals a] and [sumIntervals b]. *)
Theorem X3_overlap_bounded :
  forall a b,
    nonoverlapping a = true -> nonoverlapping b = true ->
    (0 <=? overlapSeconds a b) = true
    /\ (overlapSeconds a b <=? sumIntervals a) = true
    /\ (overlapSeconds a b <=? sumIntervals b) = true.
Proof.
  intros a b Ha Hb.
  destruct (nonoverlapping_fits a Ha) as (Hfa & hia & loa & Fa).
  destruct (nonoverlapping_fits b Hb) as (Hfb & hib & lob & Fb).
  rewrite (overlapSeconds_finite a b Hfa Hfb).
  destruct (sumIntervals_total a Hfa) as [Ea Qa].
  destruct (sumIntervals_total b Hfb) as [Eb Qb].
  rewrite Ea, Eb. cbn [Num.le].
  pose proof (ovq_dsum _ _ _ Fa _ _ _ Fb) as E.
  pose proof (dsum_bounds _ _ b a Fb Hfa) as [H0 H1].
  pose proof (dsum_bounds _ _ a b Fa Hfb) as [_ H2].
  pose proof (dsum_sym a b Hfa Hfb) as Hsym.
  repeat split; qbool; lra.
Qed.

Lemma X3_overlap_bounded_witness :
  let a := [mkInterval 0 10; mkInterval 20 30] in
  let b := [mkInterval 5 10; mkInterval 10 25] in
  (overlapSeconds a b <=? sumIntervals a) = true
  /\ (overlapSeconds a b <=? sumIntervals b) = true.
Proof.
  intros a b.
  destruct (X3_overlap_bounded a b eq_refl eq_refl) as (_ & H1 & H2).
  split; assumption.
Defined.

(** What an interval inside the range shares with the range is itself. *)
Lemma col_range_total (lo hi : Q) a :
  forallb (within (Fin lo) (Fin hi)) a = true ->
  (col (mkInterval (Fin lo) (Fin hi)) a == total a)%Q.
Proof.
  induction a as [| y a IH]; cbn [col total forallb]; intros H; [lra |].
  apply andb_true_iff in H as [Hy H]. rewrite (IH H).
  unfold within, proper, finite_interval in Hy. bdestr. fin_interval y. qbool.
  span_cases; simpl; lra.
Qed.

Lemma ovq_range (lo hi : Q) a :
  forallb (within (Fin lo) (Fin hi)) a = true -> separated a = true ->
  (ovq [mkInterval (Fin lo) (Fin hi)] a 0 == total a)%Q.
Proof.
  intros Hw Hs.
  destruct a as [| y a'] eqn:El.
  { unfold ovq. rewrite overlap_loop_nil_r. simpl. lra. }
  rewrite <- El in *.
  assert (Hlt : (lo < hi)%Q).
  { rewrite El in Hw. cbn [forallb] in Hw. bdestr.
    eapply within_nonempty_range; eassumption. }
  assert (Fa : fits hi lo a) by (apply fits_of_within; auto; lra).
  assert (Fr : fits hi lo [mkInterval (Fin lo) (Fin hi)]).
  { constructor; try lra. constructor. lra. }
  rewrite (ovq_dsum _ _ _ Fr _ _ _ Fa). cbn [dsum].
  rewrite (col_range_total lo hi a Hw). lra.
Qed.

(** X4. Against the whole range as a single interval, [overlapSeconds]
    returns the length of the other list: for a merged list [a] inside
    [lo, hi), [overlapSeconds [[lo, hi)] a == sumIntervals a]. *)
Theorem X4_overlap_with_range :
  forall (lo hi : Q) a,
    forallb (within (Fin lo) (Fin hi)) a = true -> separated a = true ->
    overlapSeconds [mkInterval (Fin lo) (Fin hi)] a === sumIntervals a.
Proof.
  intros lo hi a Hw Hs.
  assert (Hfa : forallb finite_interval a = true)
    by (eapply forallb_impl; [| exact Hw]; apply within_finite).
  destruct (sumIntervals_total a Hfa) as [Ea Qa].
  rewrite (overlapSeconds_finite [mkInterval (Fin lo) (Fin hi)] a eq_refl Hfa), Ea.
  cbn [Num.eq]. rewrite Qa. apply ovq_range; assumption.
Qed.

Lemma X4_overlap_with_range_witness :
  overlapSeconds [mkInterval 1000 4620] [mkInterval 2000 3000; mkInterval 3500 3600]
  === sumIntervals [mkInterval 2000 3000; mkInterval 3500 3600].
Proof.
  apply (X4_overlap_with_range 1000 4620
           [mkInterval 2000 3000; mkInterval 3500 3600]); reflexivity.
Defined.

(** ** A monitor without observations has no uptime *)

Lemma buildUnknownIntervals_full_range (lo hi : Q) intervalSec checks :
  (lo < hi)%Q ->
  checks = [] \/ isFinite intervalSec = false \/ (intervalSec <=? 0) = true ->
  buildUnknownIntervals (Fin lo) (Fin hi) intervalSec checks
  = [mkInterval (Fin lo) (Fin hi)].
Proof.
  intros Hlt H. unfold buildUnknownIntervals.
  assert (E : (Fin hi <=? Fin lo) = false) by (cbn [Num.le]; qbool; lra).
  rewrite E.
  destruct (negb (isFinite intervalSec) || (intervalSec <=? 0)) eqn:G;
    [reflexivity |].
  apply orb_false_iff in G as [G1 G2]. apply negb_false_iff in G1.
  destruct H as [-> | [H | H]]; try congruence.
  cbn [scanChecks lastCheck unknown cursor]. unfold processSegment.
  rewrite E. unfold addUnknown, ensureInterval. cbn [start end_ isFinite negb orb].
  rewrite E. reflexivity.
Qed.

Lemma no_uptime_core (t d sU ov : Q) :
  (0 <= t)%Q -> (0 <= d)%Q -> (d <= t)%Q -> (sU - ov == t - d)%Q ->
  let total_sec := Fin t in
  let downtime_sec := Fin d in
  let unknown_sec := Num.max 0 (Fin sU - Fin ov) in
  let unavailable_sec := Num.min total_sec (downtime_sec + unknown_sec) in
  let uptime_sec := Num.max 0 (total_sec - unavailable_sec) in
  let uptime_pct :=
    if Num.eqb total_sec 0 then 0 else (uptime_sec / total_sec) * 100 in
  uptime_sec === 0 /\ uptime_pct === 0
  /\ unknown_sec + downtime_sec === total_sec.
Proof.
  intros Ht Hd Hdt Hu. cbv zeta.
  assert (Eu : exists u, Num.max 0 (Fin sU - Fin ov) = Fin u /\ (u == t - d)%Q).
  { unfold Num.max. simpl. destruct (Num.Qlt_bool 0 (sU - ov)) eqn:E; qbool;
      eexists; (split; [reflexivity | lra]). }
  destruct Eu as (u & -> & Hu').
  assert (Ea : exists v, Num.min (Fin t) (Fin d + Fin u) = Fin v /\ (v == t)%Q).
  { unfold Num.min. simpl. destruct (Num.Qlt_bool (d + u) t) eqn:E; qbool;
      eexists; (split; [reflexivity | lra]). }
  destruct Ea as (v & -> & Hv).
  assert (Ep : exists p, Num.max 0 (Fin t - Fin v) = Fin p /\ (p == 0)%Q).
  { unfold Num.max. simpl. destruct (Num.Qlt_bool 0 (t - v)) eqn:E; qbool;
      eexists; (split; [reflexivity | lra]). }
  destruct Ep as (p & -> & Hp).
  split; [exact Hp |]. split.
  - simpl. destruct (Qeq_bool t 0); simpl; [reflexivity |].
    rewrite Hp. unfold Qdiv. ring.
  - simpl. lra.
Qed.

(** X5. When the check query returns no row, or the monitor's interval is
    not a positive finite number, the whole range is unknown or down:
    [uptime_sec] and [uptime_pct] are 0 and
    [unknown_sec + downtime_sec == total_sec], whatever the outages. *)
Theorem X5_no_observation_no_uptime :
  forall date_now range_query monitor outageRows checkRows,
    isFinite (UptimeMonitorRow.created_at monitor) = true ->
    match checkRows with Some rs => rs | None => [] end = []
    \/ isFinite (UptimeMonitorRow.interval_sec monitor) = false
    \/ (UptimeMonitorRow.interval_sec monitor <=? 0) = true ->
    exists resp,
      uptime_handler date_now range_query (Some monitor) outageRows checkRows
      = inr resp
      /\ UptimeResponse.uptime_sec resp === 0
      /\ UptimeResponse.uptime_pct resp === 0
      /\ UptimeResponse.unknown_sec resp + UptimeResponse.downtime_sec resp
         === UptimeResponse.total_sec resp.
Proof.
  intros date_now range_query monitor outageRows checkRows Hcreated Hnone.
  eexists. split; [reflexivity |].
  cbn [UptimeResponse.unknown_sec UptimeResponse.downtime_sec
       UptimeResponse.uptime_sec UptimeResponse.total_sec
       UptimeResponse.uptime_pct].
  set (rangeEnd := Num.floor (now_of date_now / 60) * 60).
  set (rangeStart := Num.max (rangeEnd - rangeToSeconds _) _).
  set (D := mergeIntervals _).
  set (U := buildUnknownIntervals _ _ _ _).
  assert (Hre : exists hi, rangeEnd = Fin hi) by (eexists; reflexivity).
  destruct Hre as (hi & Hre).
  assert (Hrs : exists lo, rangeStart = Fin lo).
  { subst rangeStart. rewrite Hre.
    destruct (UptimeMonitorRow.created_at monitor) as [c | | |]; try discriminate.
    destruct range_query as [[| |] |]; cbn [rangeToSeconds Num.mul Num.sub Num.of_Z];
      unfold Num.max, Num.lt;
      match goal with
      | |- context [Num.Qlt_bool ?a ?b] => destruct (Num.Qlt_bool a b)
      end; eexists; reflexivity. }
  destruct Hrs as (lo & Hrs).
  assert (HD : forallb (within (Fin lo) (Fin hi)) D = true /\ separated D = true).
  { subst D. rewrite Hre, Hrs.
    pose proof (downtime_candidates_within lo hi
                  (match outageRows with Some rs => rs | None => [] end)) as Hw.
    split.
    - apply mergeIntervals_forallb; auto using within_merge_closed.
    - apply mergeIntervals_separated.
      eapply forallb_impl; [| exact Hw]. apply within_finite. }
  assert (HU : (hi <= lo)%Q /\ U = []
               \/ (lo < hi)%Q /\ U = [mkInterval (Fin lo) (Fin hi)]).
  { subst U. rewrite Hre, Hrs. destruct (Qlt_le_dec lo hi) as [L | L].
    - right. split; [exact L |].
      apply buildUnknownIntervals_full_range; [exact L |].
      destruct Hnone as [H | H]; [left | right; exact H].
      rewrite H. reflexivity.
    - left. split; [exact L |]. unfold buildUnknownIntervals.
      assert (E : (Fin hi <=? Fin lo) = true) by (cbn [Num.le]; qbool; lra).
      rewrite E. reflexivity. }
  rewrite Hre, Hrs. clearbody D U. clear Hre Hrs rangeEnd rangeStart.
  destruct HD as [HDw HDs].
  assert (HDf : forallb finite_interval D = true)
    by (eapply forallb_impl; [| exact HDw]; apply within_finite).
  destruct (sumIntervals_total D HDf) as [ED EDq].
  pose proof (total_nonneg D HDf) as HD0.
  destruct HU as [[L ->] | [L ->]].
  - rewrite (within_empty_range lo hi D L HDw) in *.
    assert (Et : Num.max 0 (Fin hi - Fin lo) = Fin 0).
    { unfold Num.max. cbn [Num.sub Num.lt].
      destruct (Num.Qlt_bool 0 (hi - lo)) eqn:E; [| reflexivity]. qbool. lra. }
    rewrite Et.
    change (sumIntervals []) with (Fin 0).
    change (overlapSeconds [] []) with (Fin 0).
    apply (no_uptime_core 0 0 0 0); lra.
  - assert (Et : Num.max 0 (Fin hi - Fin lo) = Fin (hi - lo)).
    { unfold Num.max. cbn [Num.sub Num.lt].
      destruct (Num.Qlt_bool 0 (hi - lo)) eqn:E; [reflexivity |]. qbool. lra. }
    rewrite Et, ED.
    rewrite (overlapSeconds_finite [mkInterval (Fin lo) (Fin hi)] D eq_refl HDf).
    assert (EU : exists sU, sumIntervals [mkInterval (Fin lo) (Fin hi)] = Fin sU
                            /\ (sU == hi - lo)%Q).
    { unfold sumIntervals. cbn [fold_left start end_ Num.sub].
      unfold Num.max. cbn [Num.lt].
      destruct (Num.Qlt_bool 0 (hi - lo)) eqn:E; qbool; try lra.
      eexists. split; [reflexivity | lra]. }
    destruct EU as (sU & -> & HsU).
    pose proof (ovq_range lo hi D HDw HDs) as Hov.
    assert (FD : fits hi lo D) by (apply fits_of_within; auto; lra).
    pose proof (total_fits _ _ _ FD) as HDle.
    apply (no_uptime_core (hi - lo) (qv (sumIntervals D)) sU
             (ovq [mkInterval (Fin lo) (Fin hi)] D 0)); lra.
Qed.

Lemma X5_no_observation_no_uptime_witness :
  exists resp,
    uptime_handler 4620000 None (Some monitor_S1)
      (Some [mkOutageRow 2000 (Some 3000)]) (Some [])
    = inr resp
    /\ UptimeResponse.downtime_sec resp = 1000
    /\ UptimeResponse.unknown_sec resp = 2620
    /\ UptimeResponse.uptime_sec resp === 0.
Proof.
  destruct (X5_no_observation_no_uptime 4620000 None monitor_S1
              (Some [mkOutageRow 2000 (Some 3000)]) (Some [])
              eq_refl (or_introl eq_refl))
    as (resp & Hr & Hup & _).
  exists resp. split; [exact Hr |].
  vm_compute in Hr. injection Hr as <-.
  split; [reflexivity |]. split; [reflexivity | exact Hup].
Defined.

(** ** What the gap classifier computes *)

Lemma within_weaken lo (b b' : Q) it :
  (b <= b')%Q -> within lo (Fin b) it = true -> within lo (Fin b') it = true.
Proof.
  unfold within, proper, finite_interval. intros Hb H. bdestr.
  fin_interval it. qbool. bsplit; qbool; auto; lra.
Qed.

Lemma unknown_ok_weaken lo (b b' : Q) u :
  (b <= b')%Q -> unknown_ok lo (Fin b) u -> unknown_ok lo (Fin b') u.
Proof.
  intros Hb [Hw Hs]. split; [| exact Hs].
  eapply forallb_impl; [| exact Hw]. intros it. apply within_weaken. exact Hb.
Qed.

(** Nothing of a list inside [lo, b) covers an instant at or after [b]. *)
Lemma covered_beyond lo (b t : Q) u :
  forallb (within lo (Fin b)) u = true -> (b <= t)%Q ->
  covered u (Fin t) = false.
Proof.
  induction u as [| it u IH]; intros Hw Ht; [reflexivity |].
  cbn [forallb] in Hw. apply andb_true_iff in Hw as [Hit Hw].
  unfold covered in *. cbn [existsb]. rewrite (IH Hw Ht), orb_false_r.
  unfold within, proper, finite_interval in Hit. bdestr. fin_interval it.
  unfold covers. cbn [start end_ Num.le Num.lt].
  apply andb_false_iff. right. qbool. lra.
Qed.

Lemma push_covered_after (lo b s e t : Q) u :
  forallb (within (Fin lo) (Fin b)) u = true -> (b <= s)%Q ->
  covered (pushMergedInterval u (mkInterval (Fin s) (Fin e))) (Fin t)
  = covered u (Fin t) || covers (mkInterval (Fin s) (Fin e)) (Fin t).
Proof.
  intros Hw Hs. destruct u as [| p u _] using rev_ind.
  { unfold covered. cbn [pushMergedInterval existsb start end_].
    rewrite orb_false_r. reflexivity. }
  apply push_covered; try reflexivity.
  - rewrite forallb_app in Hw. apply andb_true_iff in Hw as [_ Hp].
    cbn [forallb] in Hp. rewrite andb_true_r in Hp.
    apply (within_finite _ _ _ Hp).
  - rewrite forallb_app in Hw. apply andb_true_iff in Hw as [_ Hp].
    cbn [forallb] in Hp. rewrite andb_true_r in Hp.
    unfold within, proper, finite_interval in Hp. bdestr. fin_interval p.
    qbool. lra.
Qed.

Lemma addUnknown_covered (lo b from to t : Q) u :
  forallb (within (Fin lo) (Fin b)) u = true -> (b <= from)%Q ->
  covered (addUnknown u (Fin from) (Fin to)) (Fin t)
  = covered u (Fin t) || (Qle_bool from t && Num.Qlt_bool t to).
Proof.
  intros Hw Hb. unfold addUnknown, ensureInterval.
  cbn [start end_ isFinite negb orb Num.le].
  destruct (Qle_bool to from) eqn:E.
  - destruct (Qle_bool from t) eqn:E1, (Num.Qlt_bool t to) eqn:E2;
      cbn [andb]; rewrite ?orb_false_r; try reflexivity.
    qbool. lra.
  - rewrite (push_covered_after lo b from to t u Hw Hb). reflexivity.
Qed.

(** One segment: the instants of [[segStart, segEnd)] that the verdict
    [lc] leaves unknown are added, and nothing else. *)
Lemma processSegment_covered (lo b iv segStart segEnd t : Q) lc u :
  check_finite lc ->
  unknown_ok (Fin lo) (Fin b) u -> (lo <= b)%Q -> (b <= segStart)%Q ->
  covered (processSegment (Fin iv) lc u (Fin segStart) (Fin segEnd)) (Fin t)
  = covered u (Fin t)
    || (Qle_bool segStart t && Num.Qlt_bool t segEnd
        && unknown_by (Fin iv) lc (Fin t)).
Proof.
  intros Hlc [Hw Hsep] Hlo Hb. unfold processSegment. cbn [Num.le].
  destruct (Qle_bool segEnd segStart) eqn:E.
  { destruct (Qle_bool segStart t) eqn:E1, (Num.Qlt_bool t segEnd) eqn:E2;
      cbn [andb]; rewrite ?orb_false_r; try reflexivity.
    qbool. lra. }
  destruct lc as [[[c | | |] st] |]; cbn [check_finite checked_at] in Hlc;
    try discriminate.
  2:{ rewrite (addUnknown_covered lo b _ _ t u Hw Hb).
      cbn [unknown_by]. rewrite andb_true_r. reflexivity. }
  cbn [checked_at status unknown_by Num.add Num.le]. unfold Num.ge.
  cbn [Num.le].
  destruct (Qle_bool (c + iv) segStart) eqn:E1.
  { rewrite (addUnknown_covered lo b _ _ t u Hw Hb).
    destruct (Qle_bool segStart t) eqn:E2; cbn [andb];
      rewrite ?orb_false_r; try reflexivity.
    assert (E3 : Qle_bool (c + iv) t = true) by (qbool; lra).
    rewrite E3. cbn [orb]. rewrite andb_true_r. reflexivity. }
  unfold Num.min. cbn [Num.lt].
  destruct (Num.Qlt_bool (c + iv) segEnd) eqn:E2; cbn [Num.lt].
  - rewrite E2.
    assert (Hw1 : forallb (within (Fin lo) (Fin (c + iv)))
                    (if String.eqb st "unknown"
                     then addUnknown u (Fin segStart) (Fin (c + iv)) else u)
                  = true).
    { qbool. destruct (String.eqb st "unknown").
      - apply (addUnknown_ok lo (c + iv) segStart (c + iv) u); try lra.
        apply (unknown_ok_weaken _ b); [lra | split; assumption].
      - eapply forallb_impl; [| exact Hw]. intros it.
        apply within_weaken. lra. }
    rewrite (addUnknown_covered lo (c + iv) _ _ t _ Hw1) by lra.
    destruct (String.eqb st "unknown").
    + rewrite (addUnknown_covered lo b _ _ t u Hw Hb).
      rewrite orb_true_r, andb_true_r, <- orb_assoc. f_equal.
      destruct (Qle_bool segStart t) eqn:F1, (Num.Qlt_bool t segEnd) eqn:F2,
               (Num.Qlt_bool t (c + iv)) eqn:F3, (Qle_bool (c + iv) t) eqn:F4;
        cbn [andb orb]; try reflexivity; qbool; lra.
    + rewrite orb_false_r. f_equal.
      destruct (Qle_bool segStart t) eqn:F1, (Num.Qlt_bool t segEnd) eqn:F2,
               (Qle_bool (c + iv) t) eqn:F4;
        cbn [andb orb]; try reflexivity; qbool; lra.
  - assert (E3 : Num.Qlt_bool segEnd segEnd = false) by (qbool; lra).
    rewrite E3.
    destruct (String.eqb st "unknown").
    + rewrite (addUnknown_covered lo b _ _ t u Hw Hb).
      rewrite orb_true_r, andb_true_r. reflexivity.
    + rewrite orb_false_r. 
      destruct (Qle_bool segStart t) eqn:F1, (Num.Qlt_bool t segEnd) eqn:F2,
               (Qle_bool (c + iv) t) eqn:F4;
        cbn [andb orb]; rewrite ?orb_false_r; try reflexivity; qbool; lra.
Qed.

Lemma verdict_at_app done rest t :
  verdict_at (done ++ rest) t
  = fold_left (fun acc c => if checked_at c <=? t then Some c else acc)
      rest (verdict_at done t).
Proof. unfold verdict_at. apply fold_left_app. Qed.

Lemma verdict_at_later done rest (t : Q) :
  forallb (fun y => Fin t <? checked_at y) rest = true ->
  verdict_at (done ++ rest) (Fin t) = verdict_at done (Fin t).
Proof.
  rewrite verdict_at_app. generalize (verdict_at done (Fin t)).
  induction rest as [| y rest IH]; intros acc H; [reflexivity |].
  cbn [forallb] in H. apply andb_true_iff in H as [Hy H].
  cbn [fold_left]. rewrite (lt_le_false _ _ Hy). apply IH. exact H.
Qed.

Lemma verdict_at_last done p (t : Q) :
  last (map Some done) None = Some p ->
  (checked_at p <=? Fin t) = true ->
  verdict_at done (Fin t) = Some p.
Proof.
  destruct done as [| x done _] using rev_ind; [discriminate |].
  rewrite map_app. cbn [map]. rewrite last_last. intros [= ->] Hp.
  rewrite verdict_at_app. cbn [fold_left]. rewrite Hp. reflexivity.
Qed.

Lemma last_none_nil (done : list Check) :
  last (map Some done) None = None -> done = [].
Proof.
  destruct done as [| x done _] using rev_ind; [reflexivity |].
  rewrite map_app. cbn [map]. rewrite last_last. discriminate.
Qed.

(** In a sorted list every later check is at or after the first. *)
Lemma checks_sorted_head x rest :
  forallb finite_check (x :: rest) = true -> checks_sorted (x :: rest) = true ->
  forallb (fun y => checked_at x <=? checked_at y) rest = true
  /\ checks_sorted rest = true.
Proof.
  revert x. induction rest as [| y rest IH]; intros x Hf Hs; [split; reflexivity |].
  cbn [checks_sorted] in Hs. apply andb_true_iff in Hs as [Hxy Hs].
  cbn [forallb] in Hf. apply andb_true_iff in Hf as [Hx Hf].
  destruct (IH y Hf Hs) as [Hall _]. split; [| exact Hs].
  cbn [forallb]. rewrite Hxy. cbn [andb].
  eapply forallb_impl; [| exact Hall].
  intros z Hz. pose proof Hf as Hf'. cbn [forallb] in Hf'.
  apply andb_true_iff in Hf' as [Hy _].
  unfold finite_check in Hx, Hy.
  destruct (checked_at x), (checked_at y), (checked_at z);
    cbn [isFinite Num.le] in *; try discriminate; try reflexivity.
  qbool. lra.
Qed.

(** The verdict that decides an instant at or after the cursor is the
    last check seen. *)
Lemma unknown_at_cursor (iv c t : Q) done lc :
  lc = last (map Some done) None ->
  match lc with
  | Some p => isFinite (checked_at p) = true /\ (qv (checked_at p) <= c)%Q
  | None => True
  end ->
  (c <= t)%Q ->
  unknown_at (Fin iv) done (Fin t) = unknown_by (Fin iv) lc (Fin t).
Proof.
  intros Hlast Hp Ht. unfold unknown_at. destruct lc as [p |].
  - rewrite (verdict_at_last done p t); [reflexivity | congruence |].
    destruct Hp as [Hfin Hle]. destruct (checked_at p); try discriminate.
    cbn [qv Num.le] in *. qbool. lra.
  - rewrite (last_none_nil done); [reflexivity | congruence].
Qed.

Lemma scanChecks_decided (lo hi iv : Q) checks : forall done st,
  forallb finite_check checks = true -> checks_sorted checks = true ->
  check_finite (lastCheck st) ->
  match lastCheck st, checks with
  | Some p, x :: _ => (checked_at p <=? checked_at x) = true
  | _, _ => True
  end ->
  scan_decided lo hi iv done st ->
  exists done' rest,
    done ++ checks = done' ++ rest
    /\ scan_decided lo hi iv done'
         (scanChecks (Fin lo) (Fin hi) (Fin iv) checks st)
    /\ check_finite (lastCheck (scanChecks (Fin lo) (Fin hi) (Fin iv) checks st))
    /\ forallb (fun y => Fin hi <=? checked_at y) rest = true.
Proof.
  induction checks as [| x checks IH]; intros done st Hf Hs Hlf Hj Hst.
  { exists done, []. repeat split; auto. }
  pose proof (checks_sorted_head x checks Hf Hs) as [Hge Hs'].
  pose proof Hf as Hf'. cbn [forallb] in Hf'.
  apply andb_true_iff in Hf' as [Hx Hf']. unfold finite_check in Hx.
  destruct (checked_at x) as [tx | | |] eqn:Etx; try discriminate.
  destruct Hst as (c & Hcur & Hlo & Hhi & Hok & Hcov & Hlast & Hrel).
  assert (Hnext : match checks with
                  | y :: _ => (checked_at x <=? checked_at y) = true
                  | [] => True
                  end).
  { destruct checks as [| y checks']; [exact I |].
    rewrite Etx. cbn [forallb] in Hge. bdestr. assumption. }
  assert (Hlastx : last (map Some (done ++ [x])) None = Some x)
    by (rewrite map_app; cbn [map]; apply last_last).
  cbn [scanChecks]. rewrite Etx. cbn [Num.lt]. unfold Num.ge. cbn [Num.le].
  destruct (Num.Qlt_bool tx lo) eqn:E1.
  - (* carried over *)
    qbool.
    assert (Hc : (c <= lo)%Q).
    { destruct (lastCheck st) as [p |]; [| exact Hrel].
      destruct Hrel as [Hp [H | H]]; [exact H |].
      cbn [check_finite] in Hlf. destruct (checked_at p); try discriminate.
      cbn [qv Num.le] in *. qbool. lra. }
    assert (Hxf : check_finite (Some x))
      by (cbn [check_finite]; rewrite Etx; reflexivity).
    assert (Hdec0 : scan_decided lo hi iv (done ++ [x])
                      (mkScan (Some x) (cursor st) (unknown st))).
    { exists c. cbn [cursor unknown lastCheck].
      split; [exact Hcur |]. split; [exact Hlo |]. split; [exact Hhi |].
      split; [exact Hok |]. split; [intros t H1 H2; lra |].
      split; [symmetry; exact Hlastx |].
      rewrite Etx. cbn [qv]. split; [lra | left; exact Hc]. }
    destruct (IH (done ++ [x]) (mkScan (Some x) (cursor st) (unknown st))
                Hf' Hs' Hxf Hnext Hdec0)
      as (done' & rest & Happ & Hdec & Hfin & Hrest).
    exists done', rest. rewrite <- Happ, <- app_assoc. auto.
  - destruct (Qle_bool hi tx) eqn:E2.
    + (* break *)
      exists done, (x :: checks). split; [reflexivity |].
      split; [exists c; auto 10 |]. split; [exact Hlf |].
      cbn [forallb]. rewrite Etx. cbn [Num.le]. rewrite E2. cbn [andb].
      eapply forallb_impl; [| exact Hge]. intros y Hy. cbn beta in Hy.
      destruct (checked_at y); cbn [Num.le] in *; try discriminate;
        try reflexivity.
      qbool. lra.
    + (* inside the range *)
      qbool.
      assert (Hctx : (c <= tx)%Q).
      { destruct (lastCheck st) as [p |]; [| lra].
        destruct Hrel as [Hp [H | H]]; [lra |].
        cbn [check_finite] in Hlf. destruct (checked_at p); try discriminate.
        cbn [qv Num.le] in *. qbool. lra. }
      assert (Hlcq : match lastCheck st with
                     | Some p => isFinite (checked_at p) = true
                                 /\ (qv (checked_at p) <= c)%Q
                     | None => True
                     end).
      { destruct (lastCheck st) as [p |]; [| exact I].
        split; [exact Hlf | apply Hrel]. }
      assert (Hxf : check_finite (Some x))
        by (cbn [check_finite]; rewrite Etx; reflexivity).
      assert (Hdec0 : scan_decided lo hi iv (done ++ [x])
                        (mkScan (Some x) (Fin tx)
                           (processSegment (Fin iv) (lastCheck st) (unknown st)
                              (cursor st) (Fin tx)))).
      { exists tx. cbn [cursor unknown lastCheck]. rewrite Hcur.
        split; [reflexivity |]. split; [lra |]. split; [lra |].
        split.
        { apply processSegment_ok; auto; try lra.
          apply (unknown_ok_weaken _ c); [lra | exact Hok]. }
        split.
        { intros t H1 H2.
          rewrite (processSegment_covered lo c iv c tx t); auto; try lra.
          unfold unknown_at. rewrite verdict_at_later.
          2:{ cbn [forallb]. rewrite Etx. cbn [Num.lt].
              rewrite andb_true_r. qbool. lra. }
          fold (unknown_at (Fin iv) done (Fin t)).
          destruct (Qlt_le_dec t c) as [L | L].
          - rewrite (Hcov t H1 L).
            assert (E3 : Qle_bool c t = false) by (qbool; lra).
            rewrite E3. cbn [andb]. rewrite orb_false_r. reflexivity.
          - destruct Hok as [Hw _].
            rewrite (covered_beyond _ c t _ Hw L).
            assert (E3 : Qle_bool c t = true) by (qbool; lra).
            assert (E4 : Num.Qlt_bool t tx = true) by (qbool; lra).
            rewrite E3, E4. cbn [andb orb]. symmetry.
            apply (unknown_at_cursor iv c t done); auto. }
        split; [symmetry; exact Hlastx |].
        rewrite Etx. cbn [qv]. split; [lra | right; lra]. }
      destruct (IH (done ++ [x])
                  (mkScan (Some x) (Fin tx)
                     (processSegment (Fin iv) (lastCheck st) (unknown st)
                        (cursor st) (Fin tx)))
                  Hf' Hs' Hxf Hnext Hdec0)
        as (done' & rest & Happ & Hdec & Hfin & Hrest).
      exists done', rest. rewrite <- Happ, <- app_assoc. auto.
Qed.

Lemma classifier_decides (lo hi iv t : Q) checks :
  (0 < iv)%Q ->
  forallb finite_check checks = true -> checks_sorted checks = true ->
  (lo <= t)%Q -> (t < hi)%Q ->
  covered (buildUnknownIntervals (Fin lo) (Fin hi) (Fin iv) checks) (Fin t)
  = unknown_at (Fin iv) checks (Fin t).
Proof.
  intros Hiv Hf Hs Hlo Hhi. unfold buildUnknownIntervals.
  assert (E : (Fin hi <=? Fin lo) = false) by (cbn [Num.le]; qbool; lra).
  assert (G : (Fin iv <=? 0) = false) by (cbn [Num.le]; qbool; lra).
  rewrite E. cbn [isFinite negb orb]. rewrite G.
  assert (Hinit : scan_decided lo hi iv [] (mkScan None (Fin lo) [])).
  { exists lo. cbn [cursor unknown lastCheck map last].
    split; [reflexivity |]. split; [lra |]. split; [lra |].
    split; [split; reflexivity |]. split; [intros; lra |].
    split; [reflexivity | lra]. }
  destruct (scanChecks_decided lo hi iv checks [] (mkScan None (Fin lo) [])
              Hf Hs I I Hinit)
    as (done & rest & Happ & Hdec & Hfin & Hrest).
  cbn [app] in Happ. subst checks.
  destruct Hdec as (c & Hcur & Hclo & Hchi & Hok & Hcov & Hlast & Hrel).
  rewrite Hcur.
  rewrite (processSegment_covered lo c iv c hi t); auto; try lra.
  unfold unknown_at. rewrite verdict_at_later.
  2:{ eapply forallb_impl; [| exact Hrest]. intros y Hy. cbn beta in Hy.
      destruct (checked_at y); cbn [Num.le Num.lt] in *; try discriminate;
        try reflexivity.
      qbool. lra. }
  fold (unknown_at (Fin iv) done (Fin t)).
  destruct (Qlt_le_dec t c) as [L | L].
  - rewrite (Hcov t Hlo L).
    assert (E3 : Qle_bool c t = false) by (qbool; lra).
    rewrite E3. cbn [andb]. rewrite orb_false_r. reflexivity.
  - destruct Hok as [Hw _].
    rewrite (covered_beyond _ c t _ Hw L).
    assert (E3 : Qle_bool c t = true) by (qbool; lra).
    assert (E4 : Num.Qlt_bool t hi = true) by (qbool; lra).
    rewrite E3, E4. cbn [andb orb]. symmetry.
    apply (unknown_at_cursor iv c t done); auto.
    destruct (lastCheck _) as [p |]; [| exact I].
    split; [exact Hfin | apply Hrel].
Qed.

(** X6. What the gap classifier computes.  For a positive finite interval
    and checks in chronological order, an instant [t] of the range lies
    in a returned interval exactly when the last check taken at or before
    [t] is missing, has expired ([checked_at + intervalSec <= t]) or has
    status unknown; no instant outside the range is covered. *)
Theorem X6_classifier_decides_each_instant :
  forall (rangeStart rangeEnd intervalSec t : Q) checks,
    (0 < intervalSec)%Q ->
    forallb finite_check checks = true -> checks_sorted checks = true ->
    let unknown :=
      buildUnknownIntervals (Fin rangeStart) (Fin rangeEnd) (Fin intervalSec)
        checks in
    ((rangeStart <= t)%Q -> (t < rangeEnd)%Q ->
     covered unknown (Fin t) = unknown_at (Fin intervalSec) checks (Fin t))
    /\ ((t < rangeStart)%Q \/ (rangeEnd <= t)%Q -> covered unknown (Fin t) = false).
Proof.
  intros lo hi iv t checks Hiv Hf Hs unknown. split.
  - intros Hlo Hhi. apply classifier_decides; assumption.
  - intros Hout.
    assert (Hcf : forallb (fun c => isFinite (checked_at c)) checks = true)
      by exact Hf.
    destruct (buildUnknownIntervals_ok lo hi (Fin iv) checks Hcf) as [Hw _].
    fold unknown in Hw. clearbody unknown.
    induction unknown as [| it u IH]; [reflexivity |].
    cbn [forallb] in Hw. apply andb_true_iff in Hw as [Hit Hw].
    unfold covered in *. cbn [existsb]. rewrite (IH Hw), orb_false_r.
    unfold within, proper, finite_interval in Hit. bdestr. fin_interval it.
    unfold covers. cbn [start end_ Num.le Num.lt].
    apply andb_false_iff. qbool.
    destruct Hout; [left | right]; qbool; lra.
Qed.

Lemma X6_classifier_decides_each_instant_witness :
  let checks := [mkCheck 970 "up"; mkCheck 1200 "unknown"; mkCheck 1290 "down"] in
  covered (buildUnknownIntervals 1000 1600 60 checks) 1100
  = unknown_at 60 checks 1100
  /\ unknown_at 60 checks 1100 = true
  /\ unknown_at 60 checks 1300 = false.
Proof.
  intros checks.
  destruct (X6_classifier_decides_each_instant 1000 1600 60 1100 checks)
    as [H _]; try reflexivity.
  split; [apply H; [unfold Qle | unfold Qlt]; simpl; lia |].
  split; reflexivity.
Defined.

(** ** A range observed throughout has no unknown time *)

Lemma verdict_fresh (iv hi t : Q) rest : forall p c,
  forallb finite_check (p :: rest) = true ->
  isFinite (checked_at c) = true ->
  checks_gapless (Fin iv) (p :: rest) = true ->
  (Fin hi <=? checked_at (last (p :: rest) (mkCheck NaN "")) + Fin iv) = true ->
  (t < hi)%Q ->
  (qv (checked_at c) <= t)%Q ->
  (t < qv (checked_at c) + iv)%Q \/ (qv (checked_at c) == qv (checked_at p))%Q ->
  exists c',
    fold_left (fun acc c => if checked_at c <=? Fin t then Some c else acc)
      rest (Some c) = Some c'
    /\ (c' = c \/ In c' rest)
    /\ (qv (checked_at c') <= t)%Q /\ (t < qv (checked_at c') + iv)%Q
    /\ isFinite (checked_at c') = true.
Proof.
  induction rest as [| x rest IH]; intros p c Hf Hc Hg Hend Ht Hle Hor.
  - exists c. cbn [fold_left]. split; [reflexivity |]. split; [left; reflexivity |].
    split; [exact Hle |]. split; [| exact Hc].
    destruct Hor as [H | H]; [exact H |].
    cbn [last forallb] in Hend, Hf. bdestr. unfold finite_check in *.
    destruct (checked_at p); try discriminate.
    cbn [Num.add Num.le qv] in *. qbool. lra.
  - pose proof Hf as Hf'. cbn [forallb] in Hf'.
    apply andb_true_iff in Hf' as [Hp Hf'].
    pose proof Hf' as Hf''. cbn [forallb] in Hf''.
    apply andb_true_iff in Hf'' as [Hx _].
    cbn [checks_gapless] in Hg. apply andb_true_iff in Hg as [Hpx Hg].
    change (last (p :: x :: rest) (mkCheck NaN ""))
      with (last (x :: rest) (mkCheck NaN "")) in Hend.
    unfold finite_check in Hp, Hx.
    cbn [fold_left].
    destruct (checked_at x <=? Fin t) eqn:E.
    + destruct (IH x x Hf' Hx Hg Hend Ht) as (c' & Hfold & Hin & H1 & H2 & H3).
      * destruct (checked_at x); try discriminate. cbn [Num.le qv] in *.
        qbool. lra.
      * right. lra.
      * exists c'. split; [exact Hfold |].
        split; [right; destruct Hin as [-> | Hin]; [left; reflexivity | right; exact Hin] |].
        auto.
    + destruct (IH x c Hf' Hc Hg Hend Ht Hle) as (c' & Hfold & Hin & H1 & H2 & H3).
      * left. destruct Hor as [H | H]; [exact H |].
        destruct (checked_at x), (checked_at p); try discriminate.
        cbn [Num.le Num.add qv] in *. qbool. lra.
      * exists c'. split; [exact Hfold |].
        split; [destruct Hin as [-> | Hin]; [left; reflexivity | right; right; exact Hin] |].
        auto.
Qed.

Lemma observed_no_unknown_instant (lo hi iv t : Q) checks :
  forallb finite_check checks = true ->
  observed_throughout (Fin lo) (Fin hi) (Fin iv) checks = true ->
  (lo <= t)%Q -> (t < hi)%Q ->
  unknown_at (Fin iv) checks (Fin t) = false.
Proof.
  intros Hf Hobs Hlo Hhi. unfold observed_throughout in Hobs.
  apply andb_true_iff in Hobs as [Hobs Hstatus].
  apply andb_true_iff in Hobs as [Hobs Hend].
  apply andb_true_iff in Hobs as [Hfirst Hgap].
  destruct checks as [| first rest]; [discriminate |].
  pose proof Hf as Hf'. cbn [forallb] in Hf'.
  apply andb_true_iff in Hf' as [Hff _]. unfold finite_check in Hff.
  assert (Hft : (qv (checked_at first) <= t)%Q).
  { destruct (checked_at first); try discriminate. cbn [Num.le qv] in *.
    qbool. lra. }
  assert (E : (checked_at first <=? Fin t) = true).
  { destruct (checked_at first); try discriminate. cbn [Num.le qv] in *.
    qbool. lra. }
  destruct (verdict_fresh iv hi t rest first first Hf Hff Hgap Hend Hhi Hft)
    as (c' & Hfold & Hin & H1 & H2 & H3).
  { right. lra. }
  unfold unknown_at, verdict_at. cbn [fold_left]. rewrite E, Hfold.
  cbn [unknown_by].
  assert (Hc' : In c' (first :: rest)).
  { destruct Hin as [-> | Hin]; [left; reflexivity | right; exact Hin]. }
  rewrite forallb_forall in Hstatus. specialize (Hstatus c' Hc').
  apply negb_true_iff in Hstatus. rewrite Hstatus, orb_false_r.
  destruct (checked_at c'); try discriminate. cbn [Num.add Num.le qv] in *.
  qbool. lra.
Qed.

Lemma observed_no_gap (lo hi iv : Q) checks :
  (0 < iv)%Q ->
  forallb finite_check checks = true -> checks_sorted checks = true ->
  observed_throughout (Fin lo) (Fin hi) (Fin iv) checks = true ->
  buildUnknownIntervals (Fin lo) (Fin hi) (Fin iv) checks = [].
Proof.
  intros Hiv Hf Hs Hobs.
  assert (Hcf : forallb (fun c => isFinite (checked_at c)) checks = true)
    by exact Hf.
  destruct (buildUnknownIntervals_ok lo hi (Fin iv) checks Hcf) as [Hw _].
  destruct (buildUnknownIntervals (Fin lo) (Fin hi) (Fin iv) checks)
    as [| it u] eqn:Eb; [reflexivity |].
  exfalso.
  cbn [forallb] in Hw. apply andb_true_iff in Hw as [Hit _].
  unfold within, proper, finite_interval in Hit. bdestr.
  destruct it as [[s | | |] [e | | |]]; cbn [start end_ isFinite] in *;
    try discriminate.
  cbn [Num.le Num.lt] in *. qbool.
  pose proof (classifier_decides lo hi iv s checks Hiv Hf Hs ltac:(lra) ltac:(lra))
    as Hdec.
  rewrite Eb in Hdec.
  rewrite (observed_no_unknown_instant lo hi iv s checks Hf Hobs) in Hdec by lra.
  unfold covered, covers in Hdec. cbn [existsb start end_ Num.le Num.lt] in Hdec.
  assert (E1 : Qle_bool s s = true) by (qbool; lra).
  assert (E2 : Num.Qlt_bool s e = true) by (qbool; lra).
  rewrite E1, E2 in Hdec. discriminate.
Qed.

(** X7. A range observed throughout has no unknown interval: when the
    first check is taken at or before the start of the range, consecutive
    checks are at most [intervalSec] apart, the last verdict reaches the
    end of the range and no check has status unknown, the classifier
    returns the empty list. *)
Theorem X7_observed_range_has_no_gap :
  forall (rangeStart rangeEnd intervalSec : Q) checks,
    (0 < intervalSec)%Q ->
    forallb finite_check checks = true -> checks_sorted checks = true ->
    observed_throughout (Fin rangeStart) (Fin rangeEnd) (Fin intervalSec) checks
    = true ->
    buildUnknownIntervals (Fin rangeStart) (Fin rangeEnd) (Fin intervalSec) checks
    = [].
Proof. intros. apply observed_no_gap; assumption. Qed.

Lemma X7_observed_range_has_no_gap_witness :
  buildUnknownIntervals 1000 1300 60
    [mkCheck 940 "up"; mkCheck 1000 "up"; mkCheck 1060 "down";
     mkCheck 1120 "up"; mkCheck 1180 "maintenance"; mkCheck 1240 "up"]
  = [].
Proof.
  apply (X7_observed_range_has_no_gap 1000 1300 60); try reflexivity.
Defined.

(** X8. Full uptime.  When the outage query returns no row and the checks
    observe the whole range of the response, the response reports no
    downtime and no unknown time, [uptime_sec == total_sec], and
    [uptime_pct == 100] unless the range is empty. *)
Theorem X8_observed_without_outage_is_up :
  forall date_now range_query monitor outageRows checkRows (intervalSec : Q),
    isFinite (UptimeMonitorRow.created_at monitor) = true ->
    UptimeMonitorRow.interval_sec monitor = Fin intervalSec ->
    (0 < intervalSec)%Q ->
    match outageRows with Some rs => rs | None => [] end = [] ->
    forallb finite_check (uptime_checks checkRows) = true ->
    checks_sorted (uptime_checks checkRows) = true ->
    exists resp,
      uptime_handler date_now range_query (Some monitor) outageRows checkRows
      = inr resp
      /\ (observed_throughout (UptimeResponse.range_start_at resp)
            (UptimeResponse.range_end_at resp) (Fin intervalSec)
            (uptime_checks checkRows) = true ->
          UptimeResponse.downtime_sec resp === 0
          /\ UptimeResponse.unknown_sec resp === 0
          /\ UptimeResponse.uptime_sec resp === UptimeResponse.total_sec resp
          /\ ((0 <? UptimeResponse.total_sec resp) = true ->
              UptimeResponse.uptime_pct resp === 100)).
Proof.
  intros date_now range_query monitor outageRows checkRows iv
    Hcreated Hiv Hpos Hout Hf Hs.
  eexists. split; [reflexivity |].
  cbn [UptimeResponse.unknown_sec UptimeResponse.downtime_sec
       UptimeResponse.uptime_sec UptimeResponse.total_sec
       UptimeResponse.uptime_pct UptimeResponse.range_start_at
       UptimeResponse.range_end_at].
  rewrite Hout, Hiv. fold (uptime_checks checkRows).
  set (rangeEnd := Num.floor (now_of date_now / 60) * 60).
  set (rangeStart := Num.max (rangeEnd - rangeToSeconds _) _).
  assert (Hre : exists hi, rangeEnd = Fin hi) by (eexists; reflexivity).
  destruct Hre as (hi & Hre).
  assert (Hrs : exists lo, rangeStart = Fin lo).
  { subst rangeStart. rewrite Hre.
    destruct (UptimeMonitorRow.created_at monitor) as [c | | |]; try discriminate.
    destruct range_query as [[| |] |]; cbn [rangeToSeconds Num.mul Num.sub Num.of_Z];
      unfold Num.max, Num.lt;
      match goal with
      | |- context [Num.Qlt_bool ?a ?b] => destruct (Num.Qlt_bool a b)
      end; eexists; reflexivity. }
  destruct Hrs as (lo & Hrs).
  rewrite Hre, Hrs. clear Hre Hrs rangeEnd rangeStart.
  intros Hobs. rewrite (observed_no_gap lo hi iv _ Hpos Hf Hs Hobs).
  cbn [map filter]. change (mergeIntervals []) with (@nil Interval).
  change (sumIntervals []) with (Fin 0).
  change (overlapSeconds [] []) with (Fin 0).
  unfold Num.max, Num.min. cbn [Num.sub Num.add Num.lt Num.eqb Num.div Num.mul].
  destruct (Num.Qlt_bool 0 (hi - lo)) eqn:E; cbn [Num.sub Num.add Num.lt];
    repeat (match goal with
            | |- context [Num.Qlt_bool ?a ?b] =>
                let E := fresh "E" in destruct (Num.Qlt_bool a b) eqn:E
            end; cbn [Num.sub Num.add Num.lt Num.eq Num.eqb Num.div Num.mul]);
    qbool; try lra;
    (split; [simpl; lra |]); (split; [simpl; lra |]); (split; [simpl; lra |]);
    intros Hgt; try (qbool; lra).
  all: destruct (Qeq_bool _ 0) eqn:Eq;
    [ apply Qeq_bool_iff in Eq; lra | ].
  all: cbn [Num.eq Num.mul]; field; lra.
Qed.

Lemma X8_observed_without_outage_is_up_witness :
  exists resp,
    uptime_handler 1200000 None
      (Some (UptimeMonitorRow.mk 1 "api" 60 1000)) None
      (Some [CheckRow.mk 940 "up"; CheckRow.mk 1000 "up"; CheckRow.mk 1060 "up";
             CheckRow.mk 1120 "up"; CheckRow.mk 1180 "up"])
    = inr resp
    /\ UptimeResponse.total_sec resp = 200
    /\ UptimeResponse.uptime_sec resp === 200
    /\ UptimeResponse.uptime_pct resp === 100.
Proof.
  destruct (X8_observed_without_outage_is_up 1200000 None
              (UptimeMonitorRow.mk 1 "api" 60 1000) None
              (Some [CheckRow.mk 940 "up"; CheckRow.mk 1000 "up";
                     CheckRow.mk 1060 "up"; CheckRow.mk 1120 "up";
                     CheckRow.mk 1180 "up"]) 60)
    as (resp & Hr & Hfull); try reflexivity.
  exists resp. split; [exact Hr |].
  vm_compute in Hr. injection Hr as <-.
  destruct (Hfull eq_refl) as (_ & _ & Hup & Hpct).
  split; [reflexivity |]. split; [exact Hup | apply Hpct; reflexivity].
Defined.

(** ** The range of an uptime response *)

Lemma Qfloor_inject_div (a : Z) (b : positive) :
  Qfloor (inject_Z a / inject_Z (Zpos b)) = (a / Zpos b)%Z.
Proof.
  unfold Qdiv, Qinv, Qmult, inject_Z. cbn [Qnum Qden Qfloor].
  rewrite Z.mul_1_r. reflexivity.
Qed.

Lemma floor_div_Z (a : Z) (b : positive) :
  Num.floor (Num.of_Z a / Num.of_Z (Zpos b)) = Num.of_Z (a / Zpos b).
Proof.
  unfold Num.of_Z. cbn [Num.div].
  destruct (Qeq_bool (inject_Z (Zpos b)) 0) eqn:E.
  { apply Qeq_bool_iff in E. unfold Qeq in E. simpl in E. lia. }
  cbn [Num.floor]. rewrite Qfloor_inject_div. reflexivity.
Qed.

(** The end of the range of every handler: the clock reading in seconds,
    rounded down to a whole minute. *)
Lemma range_end_minute date_now :
  Num.floor (now_of date_now / 60) * 60 = Num.of_Z (date_now / 1000 / 60 * 60).
Proof.
  change (Num.floor (now_of date_now / 60) * 60)
    with (Num.floor (Num.floor (Num.of_Z date_now / Num.of_Z (Zpos 1000))
                     / Num.of_Z (Zpos 60)) * Num.of_Z 60).
  rewrite (floor_div_Z date_now 1000), (floor_div_Z _ 60). reflexivity.
Qed.

(** X9. The range of an uptime response.  [range_end_at] is the clock
    reading rounded down to a whole minute; [range_start_at] is the
    monitor's [created_at] when that is later than the requested start
    ([range_end_at] minus 24 hours, 7 days or 30 days, 24 hours when no
    range is given) and the requested start otherwise; [total_sec] is
    never longer than the requested range. *)
Theorem X9_range_clamped_and_aligned :
  forall date_now range_query monitor outageRows checkRows (created : Q),
    UptimeMonitorRow.created_at monitor = Fin created ->
    exists resp (m seconds : Z),
      uptime_handler date_now range_query (Some monitor) outageRows checkRows
      = inr resp
      /\ UptimeResponse.range_end_at resp = Num.of_Z (m * 60)
      /\ (m * 60 <= date_now / 1000 < m * 60 + 60)%Z
      /\ seconds = match range_query with
                   | Some R7d => 604800%Z
                   | Some R30d => 2592000%Z
                   | _ => 86400%Z
                   end
      /\ ((inject_Z (m * 60) - inject_Z seconds < created)%Q ->
          UptimeResponse.range_start_at resp = Fin created)
      /\ ((created <= inject_Z (m * 60) - inject_Z seconds)%Q ->
          UptimeResponse.range_start_at resp
          = UptimeResponse.range_end_at resp - Num.of_Z seconds)
      /\ (UptimeResponse.total_sec resp <=? Num.of_Z seconds) = true.
Proof.
  intros date_now range_query monitor outageRows checkRows created Hc.
  eexists. exists (date_now / 1000 / 60)%Z.
  exists (match range_query with
          | Some R7d => 604800%Z
          | Some R30d => 2592000%Z
          | _ => 86400%Z
          end).
  split; [reflexivity |].
  cbn [UptimeResponse.range_end_at UptimeResponse.range_start_at
       UptimeResponse.total_sec].
  rewrite (range_end_minute date_now), Hc.
  set (m60 := (date_now / 1000 / 60 * 60)%Z).
  assert (Hsec : rangeToSeconds (match range_query with Some r => r | None => R24h end)
                 = Num.of_Z (match range_query with
                             | Some R7d => 604800%Z
                             | Some R30d => 2592000%Z
                             | _ => 86400%Z
                             end))
    by (destruct range_query as [[| |] |]; reflexivity).
  rewrite Hsec.
  set (seconds := match range_query with
                  | Some R7d => 604800%Z
                  | Some R30d => 2592000%Z
                  | _ => 86400%Z
                  end).
  assert (Hpos : (0 < seconds)%Z) by (subst seconds; destruct range_query as [[| |] |]; lia).
  split; [reflexivity |].
  split.
  { subst m60. pose proof (Z.div_mod (date_now / 1000) 60 ltac:(lia)).
    pose proof (Z.mod_pos_bound (date_now / 1000) 60 ltac:(lia)). lia. }
  split; [reflexivity |].
  unfold Num.of_Z. cbn [Num.sub].
  assert (Hq : (0 < inject_Z seconds)%Q).
  { unfold Qlt. cbn [inject_Z Qnum Qden]. lia. }
  assert (Hstart : Num.max (Fin (inject_Z m60 - inject_Z seconds)) (Fin created)
                   = if Num.Qlt_bool (inject_Z m60 - inject_Z seconds) created
                     then Fin created
                     else Fin (inject_Z m60 - inject_Z seconds))
    by reflexivity.
  rewrite Hstart. clear Hstart.
  destruct (Num.Qlt_bool (inject_Z m60 - inject_Z seconds) created) eqn:E; qbool.
  - split; [reflexivity |]. split; [intros; lra |].
    unfold Num.max. cbn [Num.sub Num.lt].
    destruct (Num.Qlt_bool 0 (inject_Z m60 - created)) eqn:E'; cbn [Num.le];
      qbool; lra.
  - split; [intros; lra |]. split; [reflexivity |].
    unfold Num.max. cbn [Num.sub Num.lt].
    destruct (Num.Qlt_bool 0 _) eqn:E'; cbn [Num.le]; qbool; lra.
Qed.

Lemma X9_range_clamped_and_aligned_witness :
  exists resp,
    uptime_handler 4659999 (Some R7d) (Some monitor_S1) None None = inr resp
    /\ UptimeResponse.range_end_at resp = 4620
    /\ UptimeResponse.range_start_at resp = 1000.
Proof.
  destruct (X9_range_clamped_and_aligned 4659999 (Some R7d) monitor_S1 None None
              1000 eq_refl)
    as (resp & m & seconds & Hr & _).
  exists resp. split; [exact Hr |].
  vm_compute in Hr. injection Hr as <-. split; reflexivity.
Defined.

(** ** Check statuses and uptime *)

Lemma processSegment_same_verdict iv lc lc' u s e :
  match lc, lc' with
  | Some c, Some c' => same_verdict c c'
  | None, None => True
  | _, _ => False
  end ->
  processSegment iv lc u s e = processSegment iv lc' u s e.
Proof.
  destruct lc as [c |], lc' as [c' |]; try contradiction; [| reflexivity].
  intros [Ht Hs]. unfold processSegment. rewrite Ht, Hs. reflexivity.
Qed.

Lemma scanChecks_same_verdict lo hi iv checks checks' :
  Forall2 same_verdict checks checks' ->
  forall st st',
    cursor st = cursor st' -> unknown st = unknown st' ->
    match lastCheck st, lastCheck st' with
    | Some c, Some c' => same_verdict c c'
    | None, None => True
    | _, _ => False
    end ->
    let r := scanChecks lo hi iv checks st in
    let r' := scanChecks lo hi iv checks' st' in
    cursor r = cursor r' /\ unknown r = unknown r'
    /\ match lastCheck r, lastCheck r' with
       | Some c, Some c' => same_verdict c c'
       | None, None => True
       | _, _ => False
       end.
Proof.
  induction 1 as [| x x' checks checks' Hx Hrest IH]; intros st st' Hc Hu Hl.
  { cbn [scanChecks]. auto. }
  cbn [scanChecks]. destruct Hx as [Ht Hs]. rewrite <- Ht.
  destruct (checked_at x <? lo).
  - apply IH; cbn [cursor unknown lastCheck]; auto. split; assumption.
  - destruct (checked_at x >=? hi); [auto |].
    apply IH; cbn [cursor unknown lastCheck]; auto.
    + rewrite Hc, Hu. apply processSegment_same_verdict. exact Hl.
    + split; assumption.
Qed.

Lemma buildUnknownIntervals_same_verdict lo hi iv checks checks' :
  Forall2 same_verdict checks checks' ->
  buildUnknownIntervals lo hi iv checks = buildUnknownIntervals lo hi iv checks'.
Proof.
  intros H. unfold buildUnknownIntervals.
  destruct (hi <=? lo); [reflexivity |].
  destruct (negb (isFinite iv) || (iv <=? 0)); [reflexivity |].
  destruct (scanChecks_same_verdict lo hi iv checks checks' H
              (mkScan None lo []) (mkScan None lo []) eq_refl eq_refl I)
    as (Hc & Hu & Hl).
  cbv zeta. rewrite Hc, Hu. apply processSegment_same_verdict. exact Hl.
Qed.

(** X10. The uptime computation reads a check status only as unknown or
    not unknown: two sets of check rows with the same times, whose
    statuses agree on being read as unknown (anything but up, down and
    maintenance), give the same response.  In particular a check with
    status down adds no downtime; only outage rows do. *)
Theorem X10_uptime_reads_status_as_unknown_or_not :
  forall date_now range_query monitor outageRows rows rows',
    Forall2 same_for_uptime rows rows' ->
    uptime_handler date_now range_query monitor outageRows (Some rows)
    = uptime_handler date_now range_query monitor outageRows (Some rows').
Proof.
  intros date_now range_query monitor outageRows rows rows' H.
  destruct monitor as [monitor |]; [| reflexivity].
  unfold uptime_handler. cbv zeta.
  set (f := fun r => mkCheck (CheckRow.checked_at r)
                       (check_status_string (toCheckStatus (Some (CheckRow.status r))))).
  assert (Hchecks : Forall2 same_verdict (map f rows) (map f rows')).
  { induction H as [| r r' rows rows' [Ht Hs] Hrest IH]; cbn [map];
      constructor; auto.
    split; [exact Ht | exact Hs]. }
  rewrite (buildUnknownIntervals_same_verdict _ _ _ _ _ Hchecks). reflexivity.
Qed.

Lemma X10_uptime_reads_status_as_unknown_or_not_witness :
  uptime_handler 4620000 None (Some monitor_S1) None
    (Some [CheckRow.mk 1000 "down"; CheckRow.mk 1060 "paused"])
  = uptime_handler 4620000 None (Some monitor_S1) None
      (Some [CheckRow.mk 1000 "up"; CheckRow.mk 1060 "unknown"]).
Proof.
  apply X10_uptime_reads_status_as_unknown_or_not.
  repeat constructor.
Defined.

(** ** The overall status in terms of the monitors *)

Lemma exposed_as_pos s ms :
  (0 < exposed_as s ms)%nat <-> exists m, In m ms /\ StatusMonitor.status m = s.
Proof.
  unfold exposed_as. split.
  - intros H. apply (count_occ_In MonitorStatus_eq_dec) in H.
    apply in_map_iff in H as (m & H1 & H2). exists m. auto.
  - intros (m & H1 & H2). apply (count_occ_In MonitorStatus_eq_dec).
    apply in_map_iff. exists m. auto.
Qed.

Lemma exposed_as_zero s ms :
  exposed_as s ms = 0%nat <-> forall m, In m ms -> StatusMonitor.status m <> s.
Proof.
  split.
  - intros H m Hin Hs.
    assert (0 < exposed_as s ms)%nat by (apply exposed_as_pos; eauto). lia.
  - intros H. destruct (exposed_as s ms) eqn:E; [reflexivity |].
    assert (Hpos : (0 < exposed_as s ms)%nat) by lia.
    apply exposed_as_pos in Hpos as (m & Hin & Hs). elim (H m Hin Hs).
Qed.

Lemma summary_counts date_now results :
  let resp := status_handler date_now results in
  let ms := StatusResponse.monitors resp in
  StatusResponse.overall_status resp
  = overall_status_of
      (Counts.mk (exposed_as MUp ms) (exposed_as MDown ms)
         (exposed_as MMaintenance ms) (exposed_as MPaused ms)
         (exposed_as MUnknown ms)).
Proof.
  intros resp ms.
  pose proof (tally_from_spec ms (Counts.mk 0 0 0 0 0)) as H. cbv zeta in H.
  fold (tally ms) in H. cbn [Counts.up Counts.down Counts.maintenance
                              Counts.paused Counts.unknown Nat.add] in H.
  destruct H as (H1 & H2 & H3 & H4 & H5).
  change (StatusResponse.overall_status resp) with (overall_status_of (tally ms)).
  unfold overall_status_of.
  cbn [Counts.up Counts.down Counts.maintenance Counts.paused Counts.unknown].
  rewrite H1, H2, H3, H4, H5. reflexivity.
Qed.

(** X11. The overall status read off the monitors of the response: it is
    down exactly when some monitor is exposed as down; up exactly when
    some monitor is up and every monitor is up or paused; paused exactly
    when there are monitors and all are paused; and unknown when there
    is no monitor. *)
Theorem X11_overall_status_of_monitors :
  forall date_now results,
    let resp := status_handler date_now results in
    let ms := StatusResponse.monitors resp in
    let overall := StatusResponse.overall_status resp in
    (overall = MDown <-> exists m, In m ms /\ StatusMonitor.status m = MDown)
    /\ (overall = MUp <->
        (exists m, In m ms /\ StatusMonitor.status m = MUp)
        /\ forall m, In m ms ->
             StatusMonitor.status m = MUp \/ StatusMonitor.status m = MPaused)
    /\ (overall = MPaused <->
        ms <> [] /\ forall m, In m ms -> StatusMonitor.status m = MPaused)
    /\ (ms = [] -> overall = MUnknown).
Proof.
  intros date_now results resp ms overall.
  assert (E : overall = overall_status_of
                (Counts.mk (exposed_as MUp ms) (exposed_as MDown ms)
                   (exposed_as MMaintenance ms) (exposed_as MPaused ms)
                   (exposed_as MUnknown ms)))
    by apply summary_counts.
  clearbody overall ms. subst overall. unfold overall_status_of.
  cbn [Counts.up Counts.down Counts.maintenance Counts.paused Counts.unknown].
  pose proof (exposed_as_pos MUp ms) as Pup.
  pose proof (exposed_as_pos MDown ms) as Pdown.
  pose proof (exposed_as_pos MPaused ms) as Ppaused.
  pose proof (exposed_as_zero MUp ms) as Zup.
  pose proof (exposed_as_zero MDown ms) as Zdown.
  pose proof (exposed_as_zero MMaintenance ms) as Zmaint.
  pose proof (exposed_as_zero MPaused ms) as Zpaused.
  pose proof (exposed_as_zero MUnknown ms) as Zunknown.
  assert (Hall : forall m, In m ms ->
            StatusMonitor.status m <> MDown ->
            StatusMonitor.status m <> MUnknown ->
            StatusMonitor.status m <> MMaintenance ->
            StatusMonitor.status m = MUp \/ StatusMonitor.status m = MPaused).
  { intros m _ H1 H2 H3. destruct (StatusMonitor.status m); auto; congruence. }
  destruct (exposed_as MDown ms) as [| nd] eqn:Ed; cbn [Nat.ltb Nat.leb].
  2:{ split; [split; [intros _; apply Pdown; lia | reflexivity] |].
      assert (Hd : exists m, In m ms /\ StatusMonitor.status m = MDown)
        by (apply Pdown; lia).
      destruct Hd as (m & Hin & Hm).
      split; [split; [discriminate |] |].
      { intros [_ Hall']. destruct (Hall' m Hin); congruence. }
      split; [split; [discriminate |] |].
      { intros [_ Hall']. rewrite (Hall' m Hin) in Hm. discriminate. }
      intros ->. destruct Hin. }
  assert (Hnd : forall m, In m ms -> StatusMonitor.status m <> MDown)
    by (apply Zdown; reflexivity).
  split.
  { split.
    - intros H. exfalso.
      destruct (exposed_as MUnknown ms), (exposed_as MMaintenance ms),
        (exposed_as MUp ms), (exposed_as MPaused ms); discriminate.
    - intros (m & Hin & Hm). elim (Hnd m Hin Hm). }
  destruct (exposed_as MUnknown ms) as [| nu] eqn:Eu; cbn [Nat.ltb Nat.leb].
  2:{ assert (Hu : exists m, In m ms /\ StatusMonitor.status m = MUnknown)
        by (apply exposed_as_pos; lia).
      destruct Hu as (m & Hin & Hm).
      split; [split; [discriminate |] |].
      { intros [_ Hall']. destruct (Hall' m Hin); congruence. }
      split; [split; [discriminate |] |].
      { intros [_ Hall']. rewrite (Hall' m Hin) in Hm. discriminate. }
      intros ->. destruct Hin. }
  assert (Hnu : forall m, In m ms -> StatusMonitor.status m <> MUnknown)
    by (apply Zunknown; reflexivity).
  destruct (exposed_as MMaintenance ms) as [| nm] eqn:Em; cbn [Nat.ltb Nat.leb].
  2:{ assert (Hu : exists m, In m ms /\ StatusMonitor.status m = MMaintenance)
        by (apply exposed_as_pos; lia).
      destruct Hu as (m & Hin & Hm).
      split; [split; [discriminate |] |].
      { intros [_ Hall']. destruct (Hall' m Hin); congruence. }
      split; [split; [discriminate |] |].
      { intros [_ Hall']. rewrite (Hall' m Hin) in Hm. discriminate. }
      intros ->. destruct Hin. }
  assert (Hnm : forall m, In m ms -> StatusMonitor.status m <> MMaintenance)
    by (apply Zmaint; reflexivity).
  destruct (exposed_as MUp ms) as [| np] eqn:Ep; cbn [Nat.ltb Nat.leb].
  2:{ split; [split; [intros _ | reflexivity] |].
      { split; [apply Pup; lia | intros m Hin; apply Hall; auto]. }
      assert (Hu : exists m, In m ms /\ StatusMonitor.status m = MUp)
        by (apply Pup; lia).
      destruct Hu as (m & Hin & Hm).
      split; [split; [discriminate |] |].
      { intros [_ Hall']. rewrite (Hall' m Hin) in Hm. discriminate. }
      intros ->. destruct Hin. }
  assert (Hnp : forall m, In m ms -> StatusMonitor.status m <> MUp)
    by (apply Zup; reflexivity).
  assert (Hpaused : forall m, In m ms -> StatusMonitor.status m = MPaused).
  { intros m Hin. destruct (Hall m Hin); auto. elim (Hnp m Hin); assumption. }
  destruct (exposed_as MPaused ms) as [| nq] eqn:Eq; cbn [Nat.ltb Nat.leb].
  - assert (Hnil : ms = []).
    { destruct ms as [| m ms']; [reflexivity |].
      assert (Hin : In m (m :: ms')) by (left; reflexivity).
      assert (Hz : forall m0, In m0 (m :: ms') -> StatusMonitor.status m0 <> MPaused)
        by (apply Zpaused; reflexivity).
      elim (Hz m Hin (Hpaused m Hin)). }
    split; [split; [discriminate |] |].
    { intros [(m & Hin & _) _]. rewrite Hnil in Hin. destruct Hin. }
    split; [split; [discriminate |] |].
    { intros [Hne _]. elim (Hne Hnil). }
    reflexivity.
  - assert (Hu : exists m, In m ms /\ StatusMonitor.status m = MPaused)
      by (apply Ppaused; lia).
    destruct Hu as (m & Hin & Hm).
    split; [split; [discriminate |] |].
    { intros [(m' & Hin' & Hm') _]. elim (Hnp m' Hin' Hm'). }
    split; [split; [intros _ | reflexivity] |].
    { split; [intros ->; destruct Hin | exact Hpaused]. }
    intros ->. destruct Hin.
Qed.

Lemma X11_overall_status_of_monitors_witness :
  StatusResponse.overall_status (status_handler 10000000 None) = MUnknown
  /\ StatusResponse.overall_status
       (status_handler 10000000 (Some [row_paused; row_paused])) = MPaused.
Proof.
  split.
  - apply (X11_overall_status_of_monitors 10000000 None). reflexivity.
  - apply (X11_overall_status_of_monitors 10000000 (Some [row_paused; row_paused])).
    split; [discriminate |].
    intros m [<- | [<- | []]]; reflexivity.
Defined.

(** X12. The monitors of a [GET /status] response are the rows of the
    monitor query, in the same order, with [id], [name] and [type]
    unchanged.  A row that is not stale is exposed with its stored status
    and latency; a row is exposed as unknown exactly when it is stale or
    its stored status is none of up, down, maintenance and paused. *)
Theorem X12_status_rows_pass_through :
  forall date_now results,
    let rows := match results with Some rs => rs | None => [] end in
    let ms := StatusResponse.monitors (status_handler date_now results) in
    map StatusMonitor.id ms = map PublicStatusMonitorRow.id rows
    /\ map StatusMonitor.name ms = map PublicStatusMonitorRow.name rows
    /\ map StatusMonitor.type ms = map PublicStatusMonitorRow.type rows
    /\ forall k m r,
         nth_error ms k = Some m -> nth_error rows k = Some r ->
         (StatusMonitor.is_stale m = false ->
          StatusMonitor.status m
          = toMonitorStatus (PublicStatusMonitorRow.state_status r)
          /\ StatusMonitor.last_latency_ms m
             = PublicStatusMonitorRow.last_latency_ms r)
         /\ (StatusMonitor.status m = MUnknown <->
             StatusMonitor.is_stale m = true
             \/ toMonitorStatus (PublicStatusMonitorRow.state_status r) = MUnknown).
Proof.
  intros date_now results rows ms.
  subst ms. cbn [status_handler StatusResponse.monitors]. fold rows.
  rewrite !map_map. cbn [status_monitor StatusMonitor.id StatusMonitor.name
                         StatusMonitor.type].
  repeat split; try reflexivity.
  - rewrite nth_error_map in H. rewrite H0 in H. cbn [option_map] in H.
    injection H as <-. cbn [status_monitor StatusMonitor.status].
    cbn [status_monitor StatusMonitor.is_stale] in H1. rewrite H1. reflexivity.
  - rewrite nth_error_map in H. rewrite H0 in H. cbn [option_map] in H.
    injection H as <-. cbn [status_monitor StatusMonitor.last_latency_ms].
    cbn [status_monitor StatusMonitor.is_stale] in H1. rewrite H1. reflexivity.
  - rewrite nth_error_map in H. rewrite H0 in H. cbn [option_map] in H.
    injection H as <-.
    cbn [status_monitor StatusMonitor.status StatusMonitor.is_stale].
    match goal with
    | |- (if ?b then _ else _) = _ -> _ => destruct b; auto
    end.
  - rewrite nth_error_map in H. rewrite H0 in H. cbn [option_map] in H.
    injection H as <-.
    cbn [status_monitor StatusMonitor.status StatusMonitor.is_stale].
    match goal with
    | |- _ -> (if ?b then _ else _) = _ => destruct b; auto
    end.
    intros [? | ?]; [discriminate | assumption].
Qed.

Lemma X12_status_rows_pass_through_witness :
  map StatusMonitor.id
    (StatusResponse.monitors (status_handler 9100000 (Some [row_S5; row_paused])))
  = [1; 2]
  /\ map StatusMonitor.status
       (StatusResponse.monitors (status_handler 9100000 (Some [row_S5; row_paused])))
     = [MDown; MPaused].
Proof.
  destruct (X12_status_rows_pass_through 9100000 (Some [row_S5; row_paused]))
    as (Hid & _).
  split; [exact Hid | reflexivity].
Defined.

(** ** The 95th percentile *)

Lemma sort_insert_count p x l :
  count_if p (sort_insert by_value x l) = count_if p (x :: l).
Proof.
  unfold count_if. induction l as [| y l IH]; cbn [sort_insert]; [reflexivity |].
  destruct (by_value x y >? 0); [| reflexivity].
  cbn [filter] in *. destruct (p y), (p x); cbn [List.length] in *; lia.
Qed.

Lemma array_sort_count p l :
  count_if p (array_sort by_value l) = count_if p l.
Proof.
  induction l as [| x l IH]; [reflexivity |].
  cbn [array_sort]. rewrite sort_insert_count. unfold count_if in *.
  cbn [filter]. destruct (p x); cbn [List.length]; lia.
Qed.

Lemma count_if_all l : count_if (fun _ => true) l = List.length l.
Proof.
  unfold count_if. induction l as [| x l IH]; cbn [filter List.length]; lia.
Qed.

Lemma sort_insert_In x l v : In v (sort_insert by_value x l) -> In v (x :: l).
Proof.
  induction l as [| y l IH]; cbn [sort_insert]; [auto |].
  destruct (by_value x y >? 0); [| auto].
  intros [<- | H]; [right; left; reflexivity |].
  destruct (IH H) as [<- | H']; [left; reflexivity | right; right; exact H'].
Qed.

Lemma array_sort_In l v : In v (array_sort by_value l) -> In v l.
Proof.
  induction l as [| x l IH]; [auto |]. cbn [array_sort]. intros H.
  destruct (sort_insert_In _ _ _ H) as [<- | H']; [left; reflexivity |].
  right. apply IH. exact H'.
Qed.

Lemma sort_insert_finite x l :
  isFinite x = true -> forallb isFinite l = true ->
  forallb isFinite (sort_insert by_value x l) = true.
Proof.
  intros Hx. induction l as [| y l IH]; cbn [sort_insert forallb]; intros Hl.
  - rewrite Hx. reflexivity.
  - apply andb_true_iff in Hl as [Hy Hl].
    destruct (by_value x y >? 0); cbn [forallb].
    + rewrite Hy. apply IH. exact Hl.
    + rewrite Hx, Hy, Hl. reflexivity.
Qed.

Lemma array_sort_finite l :
  forallb isFinite l = true -> forallb isFinite (array_sort by_value l) = true.
Proof.
  induction l as [| x l IH]; cbn [array_sort forallb]; intros Hl; [reflexivity |].
  apply andb_true_iff in Hl as [Hx Hl]. apply sort_insert_finite; auto.
Qed.

Lemma by_value_gt (x y : Q) : (by_value (Fin x) (Fin y) >? 0) = Num.Qlt_bool y x.
Proof.
  unfold by_value, Num.gt. cbn [Num.sub Num.lt].
  destruct (Num.Qlt_bool y x) eqn:E; qbool; lra.
Qed.

Lemma sort_insert_nums_ascending x l :
  isFinite x = true -> forallb isFinite l = true ->
  nums_ascending l = true -> nums_ascending (sort_insert by_value x l) = true.
Proof.
  intros Hx. destruct x as [x | | |]; try discriminate.
  induction l as [| y l IH]; intros Hl Hasc; [reflexivity |].
  cbn [forallb] in Hl. apply andb_true_iff in Hl as [Hy Hl].
  destruct y as [y | | |]; try discriminate.
  cbn [sort_insert]. rewrite by_value_gt.
  destruct (Num.Qlt_bool y x) eqn:E.
  - assert (Hasc' : nums_ascending l = true).
    { destruct l as [| z l]; [reflexivity |].
      cbn [nums_ascending] in Hasc. bdestr. assumption. }
    specialize (IH Hl Hasc').
    destruct l as [| z l].
    + cbn [sort_insert nums_ascending Num.le]. rewrite andb_true_r. qbool. lra.
    + cbn [forallb] in Hl. apply andb_true_iff in Hl as [Hz Hl].
      destruct z as [z | | |]; try discriminate.
      cbn [sort_insert] in IH |- *. rewrite by_value_gt in IH |- *.
      cbn [nums_ascending] in Hasc. apply andb_true_iff in Hasc as [Hyz _].
      destruct (Num.Qlt_bool z x) eqn:E'.
      * cbn [nums_ascending] in IH |- *. rewrite Hyz. exact IH.
      * cbn [nums_ascending] in IH |- *. rewrite IH, andb_true_r.
        cbn [Num.le]. qbool. lra.
  - cbn [nums_ascending] in Hasc |- *. rewrite Hasc, andb_true_r.
    cbn [Num.le]. qbool. lra.
Qed.

Lemma array_sort_nums_ascending l :
  forallb isFinite l = true -> nums_ascending (array_sort by_value l) = true.
Proof.
  induction l as [| x l IH]; cbn [array_sort forallb]; intros Hl; [reflexivity |].
  apply andb_true_iff in Hl as [Hx Hl].
  apply sort_insert_nums_ascending; auto using array_sort_finite.
Qed.

Lemma sort_insert_length x (l : list num) :
  List.length (sort_insert by_value x l) = S (List.length l).
Proof.
  induction l as [| y l IH]; cbn [sort_insert]; [reflexivity |].
  destruct (by_value x y >? 0); cbn [List.length]; [rewrite IH |]; reflexivity.
Qed.

Lemma array_sort_length (l : list num) :
  List.length (array_sort by_value l) = List.length l.
Proof.
  induction l as [| x l IH]; [reflexivity |].
  cbn [array_sort]. rewrite sort_insert_length, IH. reflexivity.
Qed.

(** In an ascending list the head is at most every element. *)
Lemma nums_ascending_head x l :
  forallb isFinite (x :: l) = true -> nums_ascending (x :: l) = true ->
  forallb (fun w => x <=? w) l = true /\ nums_ascending l = true.
Proof.
  revert x. induction l as [| y l IH]; intros x Hf Hs; [split; reflexivity |].
  cbn [nums_ascending] in Hs. apply andb_true_iff in Hs as [Hxy Hs].
  cbn [forallb] in Hf. apply andb_true_iff in Hf as [Hx Hf].
  destruct (IH y Hf Hs) as [Hall _]. split; [| exact Hs].
  cbn [forallb]. rewrite Hxy. cbn [andb].
  eapply forallb_impl; [| exact Hall]. intros z Hz.
  pose proof Hf as Hf'. cbn [forallb] in Hf'. apply andb_true_iff in Hf' as [Hy _].
  destruct x, y, z; cbn [isFinite Num.le] in *; try discriminate; try reflexivity.
  qbool. lra.
Qed.

(** Rank of the element at position [i] of an ascending list: at least
    [i + 1] elements are at most it, at most [i] are below it. *)
Lemma nums_ascending_rank s : forall i v,
  forallb isFinite s = true -> nums_ascending s = true ->
  nth_error s i = Some v ->
  (i + 1 <= count_if (fun x => (x <=? v)%num) s)%nat
  /\ (count_if (fun x => (x <? v)%num) s <= i)%nat.
Proof.
  induction s as [| x s IH]; intros i v Hf Hs Hn.
  { destruct i; discriminate. }
  destruct (nums_ascending_head x s Hf Hs) as [Hhead Hs'].
  pose proof Hf as Hf'. cbn [forallb] in Hf'. apply andb_true_iff in Hf' as [Hx Hfs].
  unfold count_if in *. cbn [filter].
  destruct i as [| i].
  - cbn [nth_error] in Hn. injection Hn as <-.
    assert (E1 : (x <=? x) = true).
    { destruct x; try discriminate. cbn [Num.le]. qbool. lra. }
    assert (E2 : (x <? x) = false).
    { destruct x; try discriminate. cbn [Num.lt]. qbool. lra. }
    rewrite E1, E2. cbn [List.length]. split; [lia |].
    assert (E3 : filter (fun w => w <? x) s = []).
    { clear -Hhead Hx. induction s as [| w s IH]; [reflexivity |].
      cbn [forallb] in Hhead. apply andb_true_iff in Hhead as [Hw Hhead].
      cbn [filter].
      assert (E : (w <? x) = false).
      { destruct x, w; cbn [Num.le Num.lt isFinite] in *; try discriminate;
          try reflexivity. qbool. lra. }
      rewrite E. apply IH. exact Hhead. }
    rewrite E3. cbn [List.length]. lia.
  - cbn [nth_error] in Hn.
    destruct (IH i v Hfs Hs' Hn) as [H1 H2].
    assert (Hv : In v s) by (eapply nth_error_In; eassumption).
    rewrite forallb_forall in Hhead. rewrite (Hhead v Hv).
    cbn [List.length]. split; [lia |].
    destruct (x <? v); cbn [List.length]; lia.
Qed.

(** The index [p95] reads: [ceil(0.95 n) - 1], which lies inside the
    bounds, so the clamp never applies. *)
Lemma p95_index (n : Z) :
  (1 <= n)%Z ->
  let k := Qceiling ((19 # 20) * inject_Z n) in
  (1 <= k <= n)%Z /\ (19 * n <= 20 * k)%Z /\ (20 * (k - 1) < 19 * n)%Z
  /\ exists q,
       Num.max 0
         (Num.min (Num.of_Z n - 1) (Num.ceil (Fin (19 # 20) * Num.of_Z n) - 1))
       = Fin q
       /\ (q == inject_Z (k - 1))%Q.
Proof.
  intros Hn k.
  pose proof (Qle_ceiling ((19 # 20) * inject_Z n)) as Hup.
  pose proof (Qceiling_lt ((19 # 20) * inject_Z n)) as Hlow.
  fold k in Hup, Hlow.
  assert (Hnq : (1 <= inject_Z n)%Q) by (rewrite Zle_Qle in Hn; exact Hn).
  assert (Ek : (inject_Z (k - 1) == inject_Z k - 1)%Q).
  { unfold Z.sub. rewrite inject_Z_plus. reflexivity. }
  assert (H1 : (19 * n <= 20 * k)%Z).
  { rewrite Zle_Qle, !inject_Z_mult.
    change (inject_Z 19) with 19%Q. change (inject_Z 20) with 20%Q. lra. }
  assert (H2 : (20 * (k - 1) < 19 * n)%Z).
  { rewrite Zlt_Qlt, !inject_Z_mult.
    change (inject_Z 19) with 19%Q. change (inject_Z 20) with 20%Q. lra. }
  assert (Hk : (1 <= k <= n)%Z) by lia.
  split; [exact Hk |]. split; [exact H1 |]. split; [exact H2 |].
  assert (Hkq : (1 <= inject_Z k)%Q /\ (inject_Z k <= inject_Z n)%Q).
  { split; [change 1%Q with (inject_Z 1) |]; rewrite <- Zle_Qle; lia. }
  unfold Num.of_Z. cbn [Num.mul Num.ceil Num.sub]. fold k.
  unfold Num.min, Num.max. cbn [Num.lt].
  destruct (Num.Qlt_bool (inject_Z k - 1) (inject_Z n - 1)) eqn:E1;
    cbn [Num.lt];
    match goal with
    | |- context [Num.Qlt_bool 0 ?a] =>
        let E := fresh "E" in destruct (Num.Qlt_bool 0 a) eqn:E
    end; qbool; eexists; (split; [reflexivity |]); lra.
Qed.

Lemma array_get_integer {A : Type} (l : list A) (q : Q) (i : Z) :
  (q == inject_Z i)%Q -> (0 <= i)%Z ->
  array_get l (Fin q) = nth_error l (Z.to_nat i).
Proof.
  intros Hq Hi. unfold array_get. cbn [Num.isInteger].
  rewrite (Qfloor_comp _ _ Hq), Qfloor_Z.
  assert (E1 : Qeq_bool (inject_Z i) q = true)
    by (apply Qeq_bool_iff; rewrite Hq; reflexivity).
  assert (E2 : Qle_bool 0 q = true).
  { apply Qle_bool_iff. rewrite Hq. change 0%Q with (inject_Z 0).
    rewrite <- Zle_Qle. exact Hi. }
  rewrite E1, E2. reflexivity.
Qed.

(** X13. [p95] is the nearest-rank 95th percentile.  For a non-empty
    list of finite numbers it returns one of them, [v], such that at
    least 95% of the values are at most [v] and fewer than 95% are below
    [v]; for the empty list it returns null. *)
Theorem X13_p95_nearest_rank :
  forall values,
    forallb isFinite values = true ->
    (values = [] -> p95 values = None)
    /\ (values <> [] ->
        exists v,
          p95 values = Some v /\ In v values
          /\ (19 * List.length values
              <= 20 * count_if (fun x => (x <=? v)%num) values)%nat
          /\ (20 * count_if (fun x => (x <? v)%num) values
              < 19 * List.length values)%nat).
Proof.
  intros values Hf. split; [intros ->; reflexivity |].
  intros Hne.
  assert (Hp : p95 values
               = let sorted := array_sort by_value values in
                 array_get sorted
                   (Num.max 0
                      (Num.min (array_length sorted - 1)
                         (Num.ceil (Fin (19 # 20) * array_length sorted) - 1)))).
  { destruct values; [contradiction | reflexivity]. }
  rewrite Hp. cbv zeta. clear Hp.
  set (s := array_sort by_value values).
  pose proof (array_sort_length values) as Hlen. fold s in Hlen.
  pose proof (array_sort_finite values Hf) as Hsf. fold s in Hsf.
  pose proof (array_sort_nums_ascending values Hf) as Hasc. fold s in Hasc.
  assert (Hn : (1 <= Z.of_nat (List.length s))%Z).
  { rewrite Hlen. destruct values; [contradiction | cbn [List.length]; lia]. }
  destruct (p95_index _ Hn) as (Hk & H1 & H2 & q & Hidx & Hq).
  unfold array_length. rewrite Hidx.
  set (k := Qceiling ((19 # 20) * inject_Z (Z.of_nat (List.length s)))) in *.
  rewrite (array_get_integer s q (k - 1) Hq) by lia.
  destruct (nth_error s (Z.to_nat (k - 1))) as [v |] eqn:Ev.
  2:{ apply nth_error_None in Ev. lia. }
  exists v. split; [reflexivity |].
  split; [apply array_sort_In; eapply nth_error_In; exact Ev |].
  destruct (nums_ascending_rank s _ v Hsf Hasc Ev) as [R1 R2].
  unfold s in R1, R2. rewrite !array_sort_count in R1, R2.
  rewrite <- Hlen. lia.
Qed.

Lemma X13_p95_nearest_rank_witness :
  p95 [300; 120; 80; 95; 110] = Some 300
  /\ p95 [] = None
  /\ exists v, p95 [7; 3; 5] = Some v /\ In v [7; 3; 5].
Proof.
  split; [vm_compute; reflexivity |].
  destruct (X13_p95_nearest_rank []) as [Hnil _]; [reflexivity |].
  split; [apply Hnil; reflexivity |].
  destruct (X13_p95_nearest_rank [7; 3; 5]) as [_ H]; [reflexivity |].
  destruct (H ltac:(discriminate)) as (v & Hv & Hin & _).
  exists v. split; assumption.
Defined.

(** ** The latency response *)

Lemma p95_none_iff values : p95 values = None <-> values = [].
Proof.
  split; [| intros ->; reflexivity].
  intros H. destruct values as [| x values]; [reflexivity |]. exfalso.
  assert (Hp : p95 (x :: values)
               = let sorted := array_sort by_value (x :: values) in
                 array_get sorted
                   (Num.max 0
                      (Num.min (array_length sorted - 1)
                         (Num.ceil (Fin (19 # 20) * array_length sorted) - 1))))
    by reflexivity.
  rewrite Hp in H. cbv zeta in H. clear Hp.
  set (s := array_sort by_value (x :: values)) in *.
  pose proof (array_sort_length (x :: values)) as Hlen. fold s in Hlen.
  assert (Hn : (1 <= Z.of_nat (List.length s))%Z)
    by (rewrite Hlen; cbn [List.length]; lia).
  destruct (p95_index _ Hn) as (Hk & _ & _ & q & Hidx & Hq).
  unfold array_length in H. rewrite Hidx in H.
  rewrite (array_get_integer s q _ Hq) in H by lia.
  apply nth_error_None in H. lia.
Qed.

Lemma up_latencies_eq results :
  map latency_of
    (filter up_with_latency
       (map (fun r =>
               LatencyPoint.mk (LatencyRow.checked_at r)
                 (toCheckStatus (Some (LatencyRow.status r)))
                 (LatencyRow.latency_ms r))
          (match results with Some rs => rs | None => [] end)))
  = up_latencies results.
Proof.
  unfold up_latencies.
  induction (match results with Some rs => rs | None => [] end) as [| r rows IH];
    [reflexivity |].
  cbn [map filter flat_map]. unfold up_with_latency at 1.
  cbn [LatencyPoint.status LatencyPoint.latency_ms].
  destruct (toCheckStatus (Some (LatencyRow.status r)));
    destruct (LatencyRow.latency_ms r); cbn [map app]; rewrite IH; reflexivity.
Qed.

(** X14. In a latency response every row of the check query appears in
    [points], in query order, with its time and latency and its status
    coerced; [avg_latency_ms] is the rounded mean and [p95_latency_ms] the
    95th percentile of the latencies of the rows with status up and a
    latency, and of no other row, and each is null exactly when there is
    no such row.  The range is the 24 hours before [range_end_at]. *)
Theorem X14_latency_response :
  forall date_now range_query monitor results,
    let rows := match results with Some rs => rs | None => [] end in
    exists resp,
      latency_handler date_now range_query (Some monitor) results = inr resp
      /\ map LatencyPoint.checked_at (LatencyResponse.points resp)
         = map LatencyRow.checked_at rows
      /\ map LatencyPoint.latency_ms (LatencyResponse.points resp)
         = map LatencyRow.latency_ms rows
      /\ map LatencyPoint.status (LatencyResponse.points resp)
         = map (fun r => toCheckStatus (Some (LatencyRow.status r))) rows
      /\ LatencyResponse.avg_latency_ms resp
         = rounded_mean (up_latencies results)
      /\ LatencyResponse.p95_latency_ms resp = p95 (up_latencies results)
      /\ (LatencyResponse.avg_latency_ms resp = None <-> up_latencies results = [])
      /\ (LatencyResponse.p95_latency_ms resp = None <-> up_latencies results = [])
      /\ LatencyResponse.range_end_at resp
         = Num.of_Z (date_now / 1000 / 60 * 60)
      /\ LatencyResponse.range_start_at resp
         = LatencyResponse.range_end_at resp - 86400.
Proof.
  intros date_now range_query monitor results rows.
  eexists. split; [reflexivity |].
  cbn [LatencyResponse.points LatencyResponse.p95_latency_ms
       LatencyResponse.avg_latency_ms LatencyResponse.range_end_at
       LatencyResponse.range_start_at].
  fold rows. rewrite !map_map.
  cbn [LatencyPoint.checked_at LatencyPoint.latency_ms LatencyPoint.status].
  pose proof (up_latencies_eq results) as Hup. fold rows in Hup.
  rewrite Hup.
  split; [reflexivity |]. split; [reflexivity |]. split; [reflexivity |].
  split; [reflexivity |]. split; [reflexivity |].
  split.
  { destruct (up_latencies results); split; try discriminate; reflexivity. }
  split; [apply p95_none_iff |].
  split; [apply range_end_minute |].
  destruct range_query as [[] |]; reflexivity.
Qed.

Lemma fold_add_bounds (lo hi : Q) l : forall acc,
  (forall v, In v l -> exists q, v = Fin q /\ (lo <= q)%Q /\ (q <= hi)%Q) ->
  exists s,
    fold_left (fun acc v => acc + v) l (Fin acc) = Fin s
    /\ (acc + inject_Z (Z.of_nat (List.length l)) * lo <= s)%Q
    /\ (s <= acc + inject_Z (Z.of_nat (List.length l)) * hi)%Q.
Proof.
  induction l as [| v l IH]; intros acc H.
  - exists acc. cbn [fold_left List.length Z.of_nat].
    split; [reflexivity |]. change (inject_Z 0) with 0%Q. lra.
  - destruct (H v (or_introl eq_refl)) as (q & -> & Hlo & Hhi).
    destruct (IH (acc + q)%Q) as (s & Hs & H1 & H2).
    { intros w Hw. apply H. right. exact Hw. }
    exists s. cbn [fold_left Num.add]. split; [exact Hs |].
    cbn [List.length]. rewrite Nat2Z.inj_succ. unfold Z.succ.
    rewrite inject_Z_plus. change (inject_Z 1) with 1%Q. lra.
Qed.

(** X15. The average latency lies between the extremes: when the
    latencies of the up rows all lie between the integers [lo] and [hi],
    [avg_latency_ms] is an integer between [lo] and [hi]. *)
Theorem X15_average_latency_bounded :
  forall date_now range_query monitor results (lo hi : Z),
    up_latencies results <> [] ->
    (forall v, In v (up_latencies results) ->
       exists q, v = Fin q /\ (inject_Z lo <= q)%Q /\ (q <= inject_Z hi)%Q) ->
    exists resp (a : Z),
      latency_handler date_now range_query (Some monitor) results = inr resp
      /\ LatencyResponse.avg_latency_ms resp = Some (Num.of_Z a)
      /\ (lo <= a <= hi)%Z.
Proof.
  intros date_now range_query monitor results lo hi Hne Hall.
  eexists. 
  destruct (fold_add_bounds (inject_Z lo) (inject_Z hi) (up_latencies results) 0 Hall)
    as (s & Hs & H1 & H2).
  set (n := Z.of_nat (List.length (up_latencies results))) in *.
  assert (Hn : (1 <= n)%Z).
  { subst n. destruct (up_latencies results); [contradiction |].
    cbn [List.length]. lia. }
  assert (Hnq : (0 < inject_Z n)%Q).
  { change 0%Q with (inject_Z 0). rewrite <- Zlt_Qlt. lia. }
  exists (Qfloor (s / inject_Z n + (1 # 2))).
  split; [reflexivity |].
  cbn [LatencyResponse.avg_latency_ms].
  rewrite (up_latencies_eq results).
  split.
  - destruct (up_latencies results) as [| v l] eqn:El; [contradiction |].
    f_equal. change (Num.of_Z 0) with (Fin 0) in *.
    rewrite Hs. unfold array_length. fold n. unfold Num.of_Z.
    cbn [Num.div].
    destruct (Qeq_bool (inject_Z n) 0) eqn:E.
    { apply Qeq_bool_iff in E. lra. }
    reflexivity.
  - assert (B1 : (inject_Z lo <= s / inject_Z n)%Q)
      by (apply Qle_shift_div_l; lra).
    assert (B2 : (s / inject_Z n <= inject_Z hi)%Q)
      by (apply Qle_shift_div_r; lra).
    split.
    + rewrite <- (Qfloor_Z lo). apply Qfloor_resp_le. lra.
    + pose proof (Qfloor_le (s / inject_Z n + (1 # 2))) as F.
      assert (F' : (inject_Z (Qfloor (s / inject_Z n + (1 # 2)))
                    < inject_Z (hi + 1))%Q).
      { rewrite inject_Z_plus. change (inject_Z 1) with 1%Q. lra. }
      rewrite <- Zlt_Qlt in F'. lia.
Qed.

Lemma X15_average_latency_bounded_witness :
  exists resp,
    latency_handler 4620000 None (Some (LatencyMonitorRow.mk 1 "api"))
      (Some [LatencyRow.mk 1000 "up" (Some 100);
             LatencyRow.mk 1060 "down" (Some 9000);
             LatencyRow.mk 1120 "up" (Some 105);
             LatencyRow.mk 1180 "up" None])
    = inr resp
    /\ LatencyResponse.avg_latency_ms resp = Some 103.
Proof.
  destruct (X15_average_latency_bounded 4620000 None
              (LatencyMonitorRow.mk 1 "api")
              (Some [LatencyRow.mk 1000 "up" (Some 100);
                     LatencyRow.mk 1060 "down" (Some 9000);
                     LatencyRow.mk 1120 "up" (Some 105);
                     LatencyRow.mk 1180 "up" None])
              100 105)
    as (resp & a & Hr & Ha & Hb).
  - discriminate.
  - intros v [<- | [<- | []]]; eexists; (split; [reflexivity |]);
      split; unfold Qle; simpl; lia.
  - exists resp. split; [exact Hr |].
    vm_compute in Hr. injection Hr as <-. reflexivity.
Defined.

(** ** Heartbeats *)

Lemma same_value_zero_refl a : same_value_zero a a = true.
Proof.
  destruct a; try reflexivity. cbn. apply Qeq_bool_iff. reflexivity.
Qed.

Lemma same_value_zero_sym a b : same_value_zero a b = same_value_zero b a.
Proof.
  destruct a, b; try reflexivity. cbn.
  destruct (Qeq_bool q q0) eqn:E1, (Qeq_bool q0 q) eqn:E2; try reflexivity.
  - apply Qeq_bool_iff in E1. symmetry in E1. apply Qeq_bool_iff in E1. congruence.
  - apply Qeq_bool_iff in E2. symmetry in E2. apply Qeq_bool_iff in E2. congruence.
Qed.

Lemma same_value_zero_trans a b c :
  same_value_zero a b = true -> same_value_zero b c = true ->
  same_value_zero a c = true.
Proof.
  destruct a, b, c; cbn; try discriminate; try reflexivity.
  intros H1 H2. apply Qeq_bool_iff in H1, H2. apply Qeq_bool_iff.
  rewrite H1. exact H2.
Qed.

(** Equal keys look alike from any third key. *)
Lemma same_value_zero_congr a b c :
  same_value_zero a b = true -> same_value_zero a c = same_value_zero b c.
Proof.
  intros H.
  destruct (same_value_zero a c) eqn:E1, (same_value_zero b c) eqn:E2;
    try reflexivity.
  - rewrite same_value_zero_sym in H.
    rewrite (same_value_zero_trans _ _ _ H E1) in E2. discriminate.
  - rewrite (same_value_zero_trans _ _ _ H E2) in E1. discriminate.
Qed.

Lemma map_get_congr {V : Type} (m : list (num * V)) k k' :
  same_value_zero k k' = true -> map_get m k = map_get m k'.
Proof.
  intros H. induction m as [| [k0 v] m IH]; [reflexivity |].
  cbn [map_get].
  rewrite (same_value_zero_sym k0 k), (same_value_zero_sym k0 k').
  rewrite (same_value_zero_congr _ _ k0 H), IH. reflexivity.
Qed.

Lemma map_get_set {V : Type} (m : list (num * V)) k v k' :
  map_get (map_set m k v) k'
  = if same_value_zero k k' then Some v else map_get m k'.
Proof.
  induction m as [| [k0 v0] m IH]; cbn [map_set map_get].
  - destruct (same_value_zero k k'); reflexivity.
  - destruct (same_value_zero k0 k) eqn:E; cbn [map_get].
    + rewrite (same_value_zero_congr _ _ k' E).
      destruct (same_value_zero k k'); reflexivity.
    + rewrite IH.
      destruct (same_value_zero k0 k') eqn:E'; [| reflexivity].
      destruct (same_value_zero k k') eqn:E''; [| reflexivity].
      rewrite same_value_zero_sym in E''.
      rewrite (same_value_zero_trans _ _ _ E' E'') in E. discriminate.
Qed.

(** After the first loop an entry holds the heartbeats of its key in query
    order, and there is an entry for the keys with a row only. *)
Lemma group_heartbeats_get rows k :
  map_get (group_heartbeats rows) k
  = match heartbeats_for k rows with
    | [] => None
    | _ :: _ => Some (heartbeats_for k rows)
    end.
Proof.
  unfold group_heartbeats.
  induction rows as [| r rows IH] using rev_ind; [reflexivity |].
  rewrite fold_left_app. cbn [fold_left]. unfold group_step at 1.
  rewrite map_get_set. unfold heartbeats_for in *.
  rewrite filter_app, map_app. cbn [filter].
  destruct (same_value_zero (PublicHeartbeatRow.monitor_id r) k) eqn:E.
  - rewrite (map_get_congr _ _ _ E), IH. cbn [map].
    destruct (map heartbeat_of
                (filter (fun r0 => same_value_zero (PublicHeartbeatRow.monitor_id r0) k)
                   rows)); reflexivity.
  - cbn [map]. rewrite app_nil_r. exact IH.
Qed.

Lemma iter_rev_nil {A : Type} n : Nat.iter n (@rev A) [] = [].
Proof.
  induction n as [| n IH]; [reflexivity |]. rewrite Nat.iter_succ, IH. reflexivity.
Qed.

(** The second loop: an entry is reversed once for every monitor of its
    key, and each monitor refers to the entry of its key. *)
Lemma attach_fold ms : forall store refs,
  let st := fold_left attach_step ms (store, refs) in
  (forall k, map_get (fst st) k
             = option_map (Nat.iter (monitors_with k ms) (@rev _)) (map_get store k))
  /\ snd st
     = refs ++ map (fun m => match map_get store (StatusMonitor.id m) with
                             | Some _ => InMap (StatusMonitor.id m)
                             | None => Fresh
                             end) ms.
Proof.
  induction ms as [| m ms IH]; intros store refs; cbn zeta.
  - cbn [fold_left fst snd map]. split.
    + intros k. unfold monitors_with. cbn [filter List.length Nat.iter].
      destruct (map_get store k); reflexivity.
    + rewrite app_nil_r. reflexivity.
  - cbn [fold_left map].
    assert (Hstep : attach_step (store, refs) m
                    = match map_get store (StatusMonitor.id m) with
                      | Some rows =>
                          (map_set store (StatusMonitor.id m) (rev rows),
                           refs ++ [InMap (StatusMonitor.id m)])
                      | None => (store, refs ++ [Fresh])
                      end) by reflexivity.
    rewrite Hstep. clear Hstep.
    destruct (map_get store (StatusMonitor.id m)) as [rows |] eqn:Em.
    + destruct (IH (map_set store (StatusMonitor.id m) (rev rows))
                  (refs ++ [InMap (StatusMonitor.id m)])) as [Hget Hrefs].
      cbn zeta in Hget, Hrefs. split.
      * intros k. rewrite Hget, map_get_set.
        unfold monitors_with. cbn [filter].
        destruct (same_value_zero (StatusMonitor.id m) k) eqn:E.
        -- rewrite <- (map_get_congr store _ _ E), Em.
           cbn [option_map List.length]. rewrite Nat.iter_succ_r. reflexivity.
        -- reflexivity.
      * rewrite Hrefs, <- app_assoc. cbn [app]. do 2 f_equal.
        apply map_ext. intros m'. rewrite map_get_set.
        destruct (same_value_zero (StatusMonitor.id m) (StatusMonitor.id m')) eqn:E;
          [| reflexivity].
        rewrite <- (map_get_congr store _ _ E), Em. reflexivity.
    + destruct (IH store (refs ++ [Fresh])) as [Hget Hrefs].
      cbn zeta in Hget, Hrefs. split.
      * intros k. rewrite Hget. unfold monitors_with. cbn [filter].
        destruct (same_value_zero (StatusMonitor.id m) k) eqn:E; [| reflexivity].
        rewrite <- (map_get_congr store _ _ E), Em. reflexivity.
      * rewrite Hrefs, <- app_assoc. reflexivity.
Qed.

(** Every monitor gets the heartbeats of its id, reversed once for every
    monitor of the list that has this id. *)
Lemma status_heartbeats_shared ms heartbeatRows :
  status_heartbeats ms heartbeatRows
  = map (fun m =>
           Nat.iter (monitors_with (StatusMonitor.id m) ms) (@rev _)
             (heartbeats_for (StatusMonitor.id m)
                (match heartbeatRows with Some rs => rs | None => [] end)))
      ms.
Proof.
  unfold status_heartbeats. cbv zeta.
  destruct ms as [| m0 ms0]; [reflexivity |].
  set (ms := m0 :: ms0). rewrite length_map.
  change (0 <? List.length ms)%nat with true. cbv iota.
  set (rows := match heartbeatRows with Some rs => rs | None => [] end).
  destruct (attach_fold ms (group_heartbeats rows) []) as [Hget Hrefs].
  cbn zeta in Hget, Hrefs. rewrite Hrefs. cbn [app]. rewrite map_map.
  apply map_ext. intros m.
  rewrite group_heartbeats_get.
  destruct (heartbeats_for (StatusMonitor.id m) rows) as [| h hs] eqn:Eh.
  - cbn [deref]. rewrite iter_rev_nil. reflexivity.
  - cbn [deref]. rewrite Hget, group_heartbeats_get, Eh. reflexivity.
Qed.

Lemma monitors_with_none k ms :
  existsb (same_value_zero k) (map StatusMonitor.id ms) = false ->
  monitors_with k ms = 0%nat.
Proof.
  unfold monitors_with. induction ms as [| m ms IH]; intros H; [reflexivity |].
  cbn [map existsb] in H. apply orb_false_iff in H as [H1 H2].
  cbn [filter]. rewrite same_value_zero_sym, H1. apply IH. exact H2.
Qed.

Lemma distinct_keys_once ms :
  distinct_keys (map StatusMonitor.id ms) = true ->
  forall m, In m ms -> monitors_with (StatusMonitor.id m) ms = 1%nat.
Proof.
  induction ms as [| m0 ms IH]; intros Hd m Hin; [destruct Hin |].
  cbn [map distinct_keys] in Hd. apply andb_true_iff in Hd as [Hno Hd].
  apply negb_true_iff in Hno.
  assert (Hcons : forall k,
            monitors_with k (m0 :: ms)
            = ((if same_value_zero (StatusMonitor.id m0) k then 1 else 0)
               + monitors_with k ms)%nat).
  { intros k. unfold monitors_with. cbn [filter].
    destruct (same_value_zero (StatusMonitor.id m0) k); reflexivity. }
  rewrite Hcons. destruct Hin as [<- | Hin].
  - rewrite same_value_zero_refl, (monitors_with_none _ _ Hno). reflexivity.
  - rewrite (IH Hd m Hin).
    destruct (same_value_zero (StatusMonitor.id m0) (StatusMonitor.id m)) eqn:E;
      [| reflexivity].
    assert (existsb (same_value_zero (StatusMonitor.id m0))
              (map StatusMonitor.id ms) = true); [| congruence].
    apply existsb_exists. exists (StatusMonitor.id m). split; [| exact E].
    apply in_map. exact Hin.
Qed.

Lemma iter_rev_even {A : Type} n (l : list A) :
  Nat.iter n (@rev A) l = if Nat.even n then l else rev l.
Proof.
  induction n as [| n IH]; [reflexivity |].
  rewrite Nat.iter_succ, IH, Nat.even_succ, <- Nat.negb_even.
  destruct (Nat.even n); cbn [negb]; [reflexivity | apply rev_involutive].
Qed.

(** X16. When the monitors of the response have pairwise different ids,
    each monitor's [heartbeats] are exactly the rows of the heartbeat query
    with its [monitor_id], in the reverse of the query's order, each with
    its time and latency and its status coerced.  Rows of other ids are
    left out. *)
Theorem X16_heartbeats_per_monitor :
  forall date_now results heartbeatRows,
    let monitorsList := StatusResponse.monitors (status_handler date_now results) in
    let rows := match heartbeatRows with Some rs => rs | None => [] end in
    distinct_keys
      (map PublicStatusMonitorRow.id
         (match results with Some rs => rs | None => [] end)) = true ->
    status_heartbeats monitorsList heartbeatRows
    = map (fun m => rev (heartbeats_for (StatusMonitor.id m) rows)) monitorsList.
Proof.
  intros date_now results heartbeatRows monitorsList rows Hd.
  assert (Hids : map StatusMonitor.id monitorsList
                 = map PublicStatusMonitorRow.id
                     (match results with Some rs => rs | None => [] end)).
  { subst monitorsList. cbn [status_handler StatusResponse.monitors].
    rewrite map_map. reflexivity. }
  rewrite <- Hids in Hd.
  rewrite status_heartbeats_shared. fold rows.
  apply map_ext_in. intros m Hm.
  rewrite (distinct_keys_once _ Hd m Hm). reflexivity.
Qed.

Lemma X16_heartbeats_per_monitor_witness :
  status_heartbeats
    (StatusResponse.monitors
       (status_handler 9100000 (Some [row_S5; row_paused])))
    (Some [PublicHeartbeatRow.mk 1 9060 "up" (Some 40);
           PublicHeartbeatRow.mk 1 9000 "down" None;
           PublicHeartbeatRow.mk 2 8800 "paused" None;
           PublicHeartbeatRow.mk 3 9060 "up" (Some 12)])
  = [[Heartbeat.mk 9000 CDown None; Heartbeat.mk 9060 CUp (Some 40)];
     [Heartbeat.mk 8800 CUnknown None]].
Proof.
  rewrite (X16_heartbeats_per_monitor 9100000 (Some [row_S5; row_paused]));
    reflexivity.
Defined.

(** X17. Monitors that share an id share one heartbeat array, which is
    reversed once for each of them: with an odd number of monitors of an id
    each of them shows the rows of that id in the reverse of the query's
    order, with an even number in the query's order. *)
Theorem X17_heartbeats_shared_array :
  forall monitorsList heartbeatRows,
    let rows := match heartbeatRows with Some rs => rs | None => [] end in
    status_heartbeats monitorsList heartbeatRows
    = map (fun m =>
             if Nat.even (monitors_with (StatusMonitor.id m) monitorsList)
             then heartbeats_for (StatusMonitor.id m) rows
             else rev (heartbeats_for (StatusMonitor.id m) rows))
        monitorsList.
Proof.
  intros monitorsList heartbeatRows rows.
  rewrite status_heartbeats_shared. fold rows.
  apply map_ext. intros m. apply iter_rev_even.
Qed.

(** ** Status coercion *)

(** X18. The status coercions keep a recognised string and turn anything
    else, null included, into unknown: the result is the stored string
    itself or unknown, every status string is kept, and a check status is
    the monitor status of the same value except that paused reads as
    unknown. *)
Theorem X18_status_coercions :
  forall value,
    (value = Some (monitor_status_string (toMonitorStatus value))
     \/ toMonitorStatus value = MUnknown)
    /\ (value = Some (check_status_string (toCheckStatus value))
        \/ toCheckStatus value = CUnknown)
    /\ toCheckStatus value = as_check_status (toMonitorStatus value)
    /\ (forall s, toMonitorStatus (Some (monitor_status_string s)) = s)
    /\ (forall s, toCheckStatus (Some (check_status_string s)) = s)
    /\ toCheckStatus (Some "paused") = CUnknown.
Proof.
  intros value.
  assert (Hm : forall s, toMonitorStatus (Some (monitor_status_string s)) = s)
    by (intros []; reflexivity).
  assert (Hc : forall s, toCheckStatus (Some (check_status_string s)) = s)
    by (intros []; reflexivity).
  split; [| split; [| split; [| split; [exact Hm | split; [exact Hc | reflexivity]]]]].
  - destruct value as [s |]; [| right; reflexivity]. unfold toMonitorStatus.
    destruct (String.eqb s "up") eqn:E1;
      [apply String.eqb_eq in E1; subst s; left; reflexivity |].
    destruct (String.eqb s "down") eqn:E2;
      [apply String.eqb_eq in E2; subst s; left; reflexivity |].
    destruct (String.eqb s "maintenance") eqn:E3;
      [apply String.eqb_eq in E3; subst s; left; reflexivity |].
    destruct (String.eqb s "paused") eqn:E4;
      [apply String.eqb_eq in E4; subst s; left; reflexivity |].
    right. reflexivity.
  - destruct value as [s |]; [| right; reflexivity]. unfold toCheckStatus.
    destruct (String.eqb s "up") eqn:E1;
      [apply String.eqb_eq in E1; subst s; left; reflexivity |].
    destruct (String.eqb s "down") eqn:E2;
      [apply String.eqb_eq in E2; subst s; left; reflexivity |].
    destruct (String.eqb s "maintenance") eqn:E3;
      [apply String.eqb_eq in E3; subst s; left; reflexivity |].
    right. reflexivity.
  - destruct value as [s |]; [| reflexivity].
    unfold toMonitorStatus, toCheckStatus.
    destruct (String.eqb s "up"); [reflexivity |].
    destruct (String.eqb s "down"); [reflexivity |].
    destruct (String.eqb s "maintenance"); [reflexivity |].
    destruct (String.eqb s "paused"); reflexivity.
Qed.

(** ** An outage that spans the range *)

Lemma mergeIntervals_covered xs t :
  forallb finite_interval xs = true -> isFinite t = true ->
  covered (mergeIntervals xs) t = covered xs t.
Proof.
  intros Hf Ht. rewrite mergeIntervals_eq.
  rewrite <- (array_sort_covered xs t).
  pose proof (array_sort_forallb _ _ Hf) as Hs.
  pose proof (array_sort_ascending _ Hf) as Ha.
  destruct (array_sort by_start xs) as [| first rest]; [reflexivity |].
  cbn [forallb] in Hs. apply andb_true_iff in Hs as [Hfirst Hrest].
  rewrite fold_push_covered; auto.
  - unfold covered. cbn [existsb app]. rewrite orb_false_r. reflexivity.
  - cbn [forallb app]. rewrite Hfirst. reflexivity.
Qed.

Lemma fits_uncovered_before hi lo l (t : Q) :
  fits hi lo l -> (t < lo)%Q -> covered l (Fin t) = false.
Proof.
  induction 1 as [| lo s e l Hs He F IH]; intros Ht; [reflexivity |].
  unfold covered in *. cbn [existsb]. rewrite IH by lra.
  unfold covers. cbn [start end_ Num.le Num.lt].
  destruct (Qle_bool s t) eqn:E; [qbool; lra | reflexivity].
Qed.

(** Non-overlapping intervals in [lo, hi] that cover every instant of
    [lo, hi) have the length of the range. *)
Lemma full_cover_total hi lo l :
  fits hi lo l ->
  (forall t, (lo <= t)%Q -> (t < hi)%Q -> covered l (Fin t) = true) ->
  (total l == hi - lo)%Q.
Proof.
  induction 1 as [lo Hlo | lo s e l Hs He F IH]; intros Hcov.
  - cbn [total]. destruct (Qlt_le_dec lo hi) as [L | L]; [| lra].
    specialize (Hcov lo ltac:(lra) L). discriminate.
  - pose proof (fits_upper _ _ _ F) as Heh.
    assert (Hspan : (span (mkInterval (Fin s) (Fin e)) == e - s)%Q).
    { unfold span, Num.max. cbn [start end_ Num.sub Num.of_Z Num.lt].
      destruct (Num.Qlt_bool 0 (e - s)) eqn:E; qbool; simpl; simpl in E; lra. }
    cbn [total]. rewrite Hspan.
    assert (Hrest : (total l == hi - e)%Q).
    { apply IH. intros t Ht1 Ht2.
      assert (Ht : (lo <= t)%Q) by lra.
      specialize (Hcov t Ht Ht2). unfold covered in Hcov. cbn [existsb] in Hcov.
      apply orb_true_iff in Hcov as [Hc | Hc]; [| exact Hc].
      unfold covers in Hc. cbn [start end_ Num.le Num.lt] in Hc.
      apply andb_true_iff in Hc as [_ Hc]. qbool. lra. }
    destruct (Qlt_le_dec lo s) as [L | L]; [| lra].
    destruct (Qlt_le_dec lo hi) as [L' | L']; [| lra].
    specialize (Hcov lo ltac:(lra) L'). unfold covered in Hcov.
    cbn [existsb] in Hcov.
    fold (covered l (Fin lo)) in Hcov.
    rewrite (fits_uncovered_before hi e l lo F) in Hcov by lra.
    rewrite orb_false_r in Hcov.
    unfold covers in Hcov. cbn [start end_ Num.le Num.lt] in Hcov.
    apply andb_true_iff in Hcov as [Hc _]. qbool. lra.
Qed.

(** An outage that began by the start of the range and has not ended by
    its end is clamped to the whole range. *)
Lemma clamp_outage_spanning (lo hi t : Q) r :
  (started_at r <=? Fin lo) = true ->
  match ended_at r with
  | Some e => (Fin hi <=? e) = true
  | None => True
  end ->
  (lo <= t)%Q -> (t < hi)%Q ->
  let it := clamp_outage (Fin lo) (Fin hi) r in
  (end_ it >? start it) = true /\ covers it (Fin t) = true.
Proof.
  destruct r as [[s | | |] [[e | | |] |]];
    unfold clamp_outage, covers, Num.gt, Num.max, Num.min;
    cbn [started_at ended_at start end_ Num.lt Num.le];
    intros H1 H2 Ht1 Ht2; try discriminate;
    repeat (match goal with
            | |- context [Num.Qlt_bool ?a ?b] =>
                let E := fresh "E" in destruct (Num.Qlt_bool a b) eqn:E
            end; cbn [start end_ Num.lt Num.le]);
    qbool; split; try (apply andb_true_intro; split); qbool; lra.
Qed.

Lemma all_down_core (t d sU ov : Q) :
  (0 <= t)%Q -> (d == t)%Q -> (sU - ov <= 0)%Q ->
  let total_sec := Fin t in
  let downtime_sec := Fin d in
  let unknown_sec := Num.max 0 (Fin sU - Fin ov) in
  let unavailable_sec := Num.min total_sec (downtime_sec + unknown_sec) in
  let uptime_sec := Num.max 0 (total_sec - unavailable_sec) in
  let uptime_pct :=
    if Num.eqb total_sec 0 then 0 else (uptime_sec / total_sec) * 100 in
  downtime_sec === total_sec /\ unknown_sec === 0
  /\ uptime_sec === 0 /\ uptime_pct === 0.
Proof.
  intros Ht Hd Hu. cbv zeta.
  assert (Eu : Num.max 0 (Fin sU - Fin ov) = Fin 0).
  { unfold Num.max. simpl. destruct (Num.Qlt_bool 0 (sU - ov)) eqn:E;
      [qbool; lra | reflexivity]. }
  rewrite Eu.
  assert (Ea : exists v, Num.min (Fin t) (Fin d + Fin 0) = Fin v /\ (v == t)%Q).
  { unfold Num.min. simpl. destruct (Num.Qlt_bool (d + 0) t) eqn:E; qbool;
      eexists; (split; [reflexivity | lra]). }
  destruct Ea as (v & -> & Hv).
  assert (Ep : exists p, Num.max 0 (Fin t - Fin v) = Fin p /\ (p == 0)%Q).
  { unfold Num.max. simpl. destruct (Num.Qlt_bool 0 (t - v)) eqn:E; qbool;
      eexists; (split; [reflexivity | lra]). }
  destruct Ep as (p & -> & Hp).
  split; [exact Hd |]. split; [reflexivity |]. split; [exact Hp |].
  simpl. destruct (Qeq_bool t 0); simpl; [reflexivity |].
  rewrite Hp. unfold Qdiv. ring.
Qed.

(** X19. Full downtime.  When some outage row began by the start of the
    response's range and is open or ends at its end or later, the whole
    range is downtime: [downtime_sec == total_sec], and [unknown_sec],
    [uptime_sec] and [uptime_pct] are 0, whatever the other outages and the
    checks. *)
Theorem X19_outage_spanning_range_is_down :
  forall date_now range_query monitor outageRows checkRows,
    isFinite (UptimeMonitorRow.created_at monitor) = true ->
    forallb finite_check_row
      (match checkRows with Some rs => rs | None => [] end) = true ->
    exists resp,
      uptime_handler date_now range_query (Some monitor) outageRows checkRows
      = inr resp
      /\ ((exists r,
             In r (match outageRows with Some rs => rs | None => [] end)
             /\ (started_at r <=? UptimeResponse.range_start_at resp) = true
             /\ match ended_at r with
                | Some e => (UptimeResponse.range_end_at resp <=? e) = true
                | None => True
                end) ->
          UptimeResponse.downtime_sec resp === UptimeResponse.total_sec resp
          /\ UptimeResponse.unknown_sec resp === 0
          /\ UptimeResponse.uptime_sec resp === 0
          /\ UptimeResponse.uptime_pct resp === 0).
Proof.
  intros date_now range_query monitor outageRows checkRows Hcreated Hchecks.
  eexists. split; [reflexivity |].
  cbn [UptimeResponse.unknown_sec UptimeResponse.downtime_sec
       UptimeResponse.uptime_sec UptimeResponse.total_sec
       UptimeResponse.uptime_pct UptimeResponse.range_start_at
       UptimeResponse.range_end_at].
  set (rangeEnd := Num.floor (now_of date_now / 60) * 60).
  set (rangeStart := Num.max (rangeEnd - rangeToSeconds _) _).
  set (rows := match outageRows with Some rs => rs | None => [] end).
  set (D := mergeIntervals _).
  set (U := buildUnknownIntervals _ _ _ _).
  assert (Hre : exists hi, rangeEnd = Fin hi) by (eexists; reflexivity).
  destruct Hre as (hi & Hre).
  assert (Hrs : exists lo, rangeStart = Fin lo).
  { subst rangeStart. rewrite Hre.
    destruct (UptimeMonitorRow.created_at monitor) as [c | | |]; try discriminate.
    destruct range_query as [[| |] |]; cbn [rangeToSeconds Num.mul Num.sub Num.of_Z];
      unfold Num.max, Num.lt;
      match goal with
      | |- context [Num.Qlt_bool ?a ?b] => destruct (Num.Qlt_bool a b)
      end; eexists; reflexivity. }
  destruct Hrs as (lo & Hrs).
  pose proof (downtime_candidates_within lo hi rows) as Hw.
  assert (HD : forallb (within (Fin lo) (Fin hi)) D = true /\ separated D = true).
  { subst D. rewrite Hre, Hrs. split.
    - apply mergeIntervals_forallb; auto using within_merge_closed.
    - apply mergeIntervals_separated.
      eapply forallb_impl; [| exact Hw]. apply within_finite. }
  assert (HU : unknown_ok (Fin lo) (Fin hi) U).
  { subst U. rewrite Hre, Hrs. apply buildUnknownIntervals_ok.
    rewrite forallb_map_compose. exact Hchecks. }
  intros (r & Hin & Hbegan & Hopen).
  rewrite Hrs in Hbegan. rewrite Hre in Hopen.
  assert (Hcov : forall t, (lo <= t)%Q -> (t < hi)%Q -> covered D (Fin t) = true).
  { intros t Ht1 Ht2. subst D. rewrite Hre, Hrs.
    rewrite mergeIntervals_covered;
      [| eapply forallb_impl; [| exact Hw]; apply within_finite | reflexivity].
    destruct (clamp_outage_spanning lo hi t r Hbegan Hopen Ht1 Ht2) as [Hkeep Hc].
    apply existsb_exists. exists (clamp_outage (Fin lo) (Fin hi) r).
    split; [| exact Hc]. apply filter_In. split; [| exact Hkeep].
    apply in_map. exact Hin. }
  rewrite Hre, Hrs. clearbody D U. clear Hre Hrs rangeEnd rangeStart.
  destruct HD as [HDw HDs]. destruct HU as [HUw HUs].
  assert (HDf : forallb finite_interval D = true)
    by (eapply forallb_impl; [| exact HDw]; apply within_finite).
  assert (HUf : forallb finite_interval U = true)
    by (eapply forallb_impl; [| exact HUw]; apply within_finite).
  destruct (sumIntervals_total D HDf) as [ED EDq].
  destruct (sumIntervals_total U HUf) as [EU EUq].
  rewrite ED, EU, (overlapSeconds_finite U D HUf HDf).
  destruct (Qlt_le_dec lo hi) as [L | L].
  - assert (Et : Num.max 0 (Fin hi - Fin lo) = Fin (hi - lo)).
    { unfold Num.max. cbn [Num.sub Num.lt].
      destruct (Num.Qlt_bool 0 (hi - lo)) eqn:E; [reflexivity |]. qbool. lra. }
    rewrite Et.
    assert (Hlo : (lo <= hi)%Q) by lra.
    pose proof (fits_of_within lo hi D Hlo HDw HDs) as FD.
    pose proof (fits_of_within lo hi U Hlo HUw HUs) as FU.
    pose proof (full_cover_total hi lo D FD Hcov) as Hfull.
    pose proof (union_bound hi U D lo lo lo FU FD ltac:(lra) ltac:(lra)) as Hub.
    apply (all_down_core (hi - lo) (qv (sumIntervals D)) (qv (sumIntervals U))
             (ovq U D 0)); lra.
  - assert (Et : Num.max 0 (Fin hi - Fin lo) = Fin 0).
    { unfold Num.max. cbn [Num.sub Num.lt].
      destruct (Num.Qlt_bool 0 (hi - lo)) eqn:E; [| reflexivity]. qbool. lra. }
    rewrite Et.
    rewrite (within_empty_range lo hi D L HDw) in *.
    rewrite (within_empty_range lo hi U L HUw) in *.
    apply (all_down_core 0 0 0 0); vm_compute; try discriminate; reflexivity.
Qed.

Lemma X19_outage_spanning_range_is_down_witness :
  exists resp,
    uptime_handler 4620000 None (Some monitor_S1)
      (Some [mkOutageRow 900 None; mkOutageRow 2000 (Some 3000)])
      (Some [CheckRow.mk 1000 "up"; CheckRow.mk 1060 "up"])
    = inr resp
    /\ UptimeResponse.total_sec resp = 3620
    /\ UptimeResponse.downtime_sec resp === 3620
    /\ UptimeResponse.uptime_pct resp === 0.
Proof.
  destruct (X19_outage_spanning_range_is_down 4620000 None monitor_S1
              (Some [mkOutageRow 900 None; mkOutageRow 2000 (Some 3000)])
              (Some [CheckRow.mk 1000 "up"; CheckRow.mk 1060 "up"])
              eq_refl eq_refl)
    as (resp & Hr & Hdown).
  exists resp. split; [exact Hr |].
  vm_compute in Hr. injection Hr as <-.
  destruct Hdown as (Hd & _ & _ & Hp).
  { exists (mkOutageRow 900 None). split; [left; reflexivity |].
    split; [reflexivity | exact I]. }
  split; [reflexivity |]. split; [exact Hd | exact Hp].
Defined.
